(** * SHADOw: sparse Hessian automatic differentiation and optimisation

  A shallow embedding of the C++ sources of the SHADOw framework
  (sparse_matrix.h, op_base.h, op_unary.h, op_iverson.h, op_multiply.h,
  op_minus.h, op_divide.h, tape.h, trace.h, tape_autodiff.cpp, spy.h,
  spy_minus.cpp, spy_divide.cpp, spy_plus.cpp, spy_power.cpp, spy_unary.cpp,
  tensor.h, vector_overloads.h, trace.cpp, eigen_sparse_matrix.cpp,
  solver_newton.cpp) together with the properties
  established about them.

  Conventions.
  - [double] is IEEE binary64, embedded as Rocq's primitive [float]; the
    C++ comparisons [x == 0.0], [x > 0.0], [x >= 0.0], [a < b] are
    [PrimFloat.eqb], [PrimFloat.ltb] and [PrimFloat.leb].
  - [index_t] is [long long], embedded as [Z].  Container sizes ([size_t])
    are embedded as [Z] as well; the conversions [index_t(size)] that the
    sources perform are the identity on the sizes a [std::vector] can have.
  - [std::map<index_t, T>] is a [gmap Z T]; range-for loops over a map visit
    the keys in increasing order ([in_order]).
  - [std::vector<double>] is a [list float], read with [vget] and written
    with [vset].
  - A failed [assert] (or the undefined behaviour that would follow it in a
    release build) is the result [None] in the functions that return an
    [option]: [erase], the tuple [vec_index], the reverse sweep and [play].
    The operations on tensors and the recording functions are given as the
    code runs when its assertions hold; the assertions on their path are
    stated beside them ([constructor_asserts] for the operator constructors)
    and are hypotheses of the properties about them.
  - The sweeps index [values] and [adjoints] without a check; the properties
    about them take traces with one slot for every index of the tape, on
    which [vget] and [vset] stay inside the vectors. *)

From Stdlib Require Import ZArith Lia Uint63 PrimFloat.
From stdpp Require Import gmap list sorting strings.

Local Open Scope Z_scope.

(** ** Doubles *)

Abbreviation double := float (only parsing).

(** [x == 0.0] *)
Definition is_zero (x : double) : bool := PrimFloat.eqb x 0%float.

(** [x != 0.0] *)
Definition nonzero (x : double) : bool := negb (is_zero x).

(** [-std::numeric_limits<double>::infinity()] *)
Definition minus_infinity : double := neg_infinity.

(** ** [std::map] with integer keys *)

Section std_map.
Context {V : Type}.

(** [m.insert({k, v})]: an existing mapping is kept. *)
Definition map_insert_new (k : Z) (v : V) (m : gmap Z V) : gmap Z V :=
  match m !! k with
  | Some _ => m
  | None => <[k := v]> m
  end.

Definition key_le (a b : Z * V) : Prop := a.1 ≤ b.1.

Global Instance key_le_dec a b : Decision (key_le a b).
Proof. unfold key_le. apply _. Defined.

(** The sequence visited by [for (const auto& it : m)]. *)
Definition in_order (m : gmap Z V) : list (Z * V) :=
  merge_sort key_le (map_to_list m).

End std_map.

(** ** SPARSE SYMMETRIC MATRIX (sparse_matrix.h) *)

Module SparseSymMat.

Abbreviation row_t := (gmap Z float).
Abbreviation matrix_t := (gmap Z (gmap Z float)).

(** The class: its width and the public [matrix] member. *)
Record t := mk { width_ : Z; matrix : matrix_t }.

(** [SparseSymMat(size_t width)] *)
Definition make (width : Z) : t := mk width ∅.

Definition width (h : t) : Z := width_ h.

(** [double read(i, j) const] *)
Definition read (m : matrix_t) (i j : Z) : double :=
  match m !! i with
  | None => 0%float
  | Some row_i =>
      match row_i !! j with
      | None => 0%float
      | Some x => x
      end
  end.

(** [row_t* get_row_ptr(i)]; [None] is [nullptr]. *)
Definition get_row_ptr (m : matrix_t) (i : Z) : option row_t := m !! i.

(** One iteration of the loop of [erase]; [j] is [it_j.first]. *)
Definition erase_step (i : Z) (acc : option matrix_t) (j : Z)
  : option matrix_t :=
  match acc with
  | None => None
  | Some m =>
      if j =? i then Some m
      else
        match m !! j with
        | None => None                          (* assert(row_j != matrix.end()) *)
        | Some row_j =>
            let row_j' := delete i row_j in     (* row_j->second.erase(i) *)
            if (size row_j' =? 0)%nat
            then Some (delete j m)              (* matrix.erase(row_j) *)
            else Some (<[j := row_j']> m)
        end
  end.

(** [void erase(i)]: erase the ith row and the ith column. *)
Definition erase (i : Z) (m : matrix_t) : option matrix_t :=
  match m !! i with
  | None => Some m
  | Some row_i =>
      match foldl (erase_step i) (Some m) (in_order row_i).*1 with
      | None => None
      | Some m' => Some (delete i m')           (* matrix.erase(row_i) *)
      end
  end.

(** *** [elem_ref_t]

    The reference keeps the indices, and iterators to row [i], element
    [(i,j)], row [j] and element [(j,i)] that are meaningful while
    [is_valid_ij] holds.  The iterators are represented by the keys they
    point to. *)
Record elem_ref_t := mk_ref { er_i : Z; er_j : Z; is_valid_ij : bool }.

(** [elem_ref_t get(i, j)] *)
Definition get (i j : Z) : elem_ref_t := mk_ref i j false.

(** [it = matrix.insert({i, row_t{}}).first;
     it->second.insert({j, 0.0})] *)
Definition insert_entry (i j : Z) (m : matrix_t) : matrix_t :=
  alter (map_insert_new j 0%float) i (map_insert_new i ∅ m).

(** [void prepare_write()] *)
Definition prepare_write (e : elem_ref_t) (m : matrix_t)
  : matrix_t * elem_ref_t :=
  let m1 := insert_entry (er_i e) (er_j e) m in
  let m2 := if er_j e =? er_i e then m1
            else insert_entry (er_j e) (er_i e) m1 in
  (m2, mk_ref (er_i e) (er_j e) true).

(** [it_row->second.erase(it_elem);
     if (it_row->second.size() == 0) matrix.erase(it_row);] *)
Definition erase_entry (i j : Z) (m : matrix_t) : matrix_t :=
  match m !! i with
  | None => m
  | Some row_i =>
      let row_i' := delete j row_i in
      if (size row_i' =? 0)%nat then delete i m else <[i := row_i']> m
  end.

(** [void set_zero()] *)
Definition set_zero (e : elem_ref_t) (m : matrix_t)
  : matrix_t * elem_ref_t :=
  if negb (is_valid_ij e) then (m, e)
  else
    let m1 := erase_entry (er_i e) (er_j e) m in
    let e' := mk_ref (er_i e) (er_j e) false in
    if er_j e =? er_i e then (m1, e')
    else (erase_entry (er_j e) (er_i e) m1, e').

(** [it->second = f(it->second)] on the stored element [(i,j)]. *)
Definition update_entry (f : double → double) (i j : Z) (m : matrix_t)
  : matrix_t :=
  alter (alter f j) i m.

(** [void operator+=(const double x)] *)
Definition add_assign (x : double) (e : elem_ref_t) (m : matrix_t)
  : matrix_t * elem_ref_t :=
  if is_zero x then (m, e)
  else
    let '(m1, e1) := if is_valid_ij e then (m, e) else prepare_write e m in
    let m2 := update_entry (λ y, y + x)%float (er_i e1) (er_j e1) m1 in
    if er_j e1 =? er_i e1 then (m2, e1)
    else (update_entry (λ y, y + x)%float (er_j e1) (er_i e1) m2, e1).

(** [void operator=(const double x)] *)
Definition assign (x : double) (e : elem_ref_t) (m : matrix_t)
  : matrix_t * elem_ref_t :=
  if is_zero x then set_zero e m
  else
    let '(m1, e1) := if is_valid_ij e then (m, e) else prepare_write e m in
    let m2 := update_entry (λ _, x) (er_i e1) (er_j e1) m1 in
    if er_j e1 =? er_i e1 then (m2, e1)
    else (update_entry (λ _, x) (er_j e1) (er_i e1) m2, e1).

(** [hessian.get(i, j) += x] on a temporary reference, as the reverse
    sweep writes it. *)
Definition get_add (i j : Z) (x : double) (m : matrix_t) : matrix_t :=
  (add_assign x (get i j) m).1.

(** [hessian.get(i, j) = x] on a temporary reference. *)
Definition get_assign (i j : Z) (x : double) (m : matrix_t) : matrix_t :=
  (assign x (get i j) m).1.

(** The stored entry at [(i,j)], if any. *)
Definition entry (m : matrix_t) (i j : Z) : option double :=
  m !! i ≫= (.!! j).

(** Every stored entry has a stored mirror with the same value. *)
Definition symmetric (m : matrix_t) : Prop :=
  ∀ i j v, entry m i j = Some v → entry m j i = Some v.

(** No row of the outer map is empty. *)
Definition no_empty_row (m : matrix_t) : Prop :=
  ∀ i, m !! i ≠ Some ∅.

End SparseSymMat.

(** *** Sequences of operations on a matrix

    A client of the class obtains a reference with [get(i,j)] and writes
    through it with [+=] and [=] (possibly several times), or calls
    [erase(i)]. *)
Module SparseSymMatOps.
Import SparseSymMat.

Inductive write_t :=
| PlusAssign (x : double)      (* ref += x *)
| Assign (x : double).         (* ref = x *)

Definition apply_write (st : matrix_t * elem_ref_t) (w : write_t)
  : matrix_t * elem_ref_t :=
  match w with
  | PlusAssign x => add_assign x st.2 st.1
  | Assign x => assign x st.2 st.1
  end.

Inductive op_t :=
| Write (i j : Z) (ws : list write_t)   (* auto e = get(i,j); e op x; ... *)
| Erase (i : Z).                        (* erase(i) *)

Definition run_op (acc : option matrix_t) (o : op_t) : option matrix_t :=
  match acc with
  | None => None
  | Some m =>
      match o with
      | Write i j ws => Some (foldl apply_write (m, get i j) ws).1
      | Erase i => erase i m
      end
  end.

Definition run (ops : list op_t) (m : matrix_t) : option matrix_t :=
  foldl run_op (Some m) ops.

End SparseSymMatOps.

(** ** [std::vector<double>] *)

(** [v[i]]; the sources index inside the vector. *)
Definition vget (v : list double) (i : Z) : double :=
  if i <? 0 then 0%float else default 0%float (v !! Z.to_nat i).

(** [v[i] = x] *)
Definition vset (v : list double) (i : Z) (x : double) : list double :=
  if i <? 0 then v else <[Z.to_nat i := x]> v.

(** [v[i] += x] *)
Definition vadd (v : list double) (i : Z) (x : double) : list double :=
  vset v i (vget v i + x)%float.

(** [for (index_t i = 0; i < n; i++) body] *)
Definition for_range {S : Type} (n : Z) (body : S → Z → S) (s : S) : S :=
  foldl body s (seqZ 0 n).

(** [for (index_t i = from; i < n; i++) body] *)
Definition for_from {S : Type} (from n : Z) (body : S → Z → S) (s : S) : S :=
  foldl body s (seqZ from (n - from)).

(** ** Operator signatures (op_base.h) *)

(** [IndexRange]: [begin_] and [end_]. *)
Record IndexRange := mkRange { range_begin : Z; range_end : Z }.

(** [size_t size() const { return end_ - begin_; }] *)
Definition range_size (r : IndexRange) : Z := range_end r - range_begin r.

(** [index_t operator[](i) const { return begin_ + i; }] *)
Definition range_at (r : IndexRange) (i : Z) : Z := range_begin r + i.

(** The [in] field of an operator, by input signature class. *)
Inductive OpIn :=
| In_Array1 (j : Z)                                  (* OpIn::Array<1>, alias Scalar *)
| In_ScalarScalar (left right : Z)                   (* OpIn::ScalarScalar *)
| In_Range (r : IndexRange)                          (* OpIn::Range *)
| In_RangePair (left right : IndexRange)             (* OpIn::RangePair *)
| In_RangeArrayPair (left : IndexRange) (right : Z)  (* OpIn::RangeArrayPair<1> *)
| In_ArrayRangePair (left : Z) (right : IndexRange). (* OpIn::ArrayRangePair<1> *)

(** [in.left.size()] of an [operand_pair_t]. *)
Definition in_left_size (i : OpIn) : Z :=
  match i with
  | In_Array1 _ => 1
  | In_ScalarScalar _ _ => 1
  | In_Range r => range_size r
  | In_RangePair l _ => range_size l
  | In_RangeArrayPair l _ => range_size l
  | In_ArrayRangePair _ _ => 1
  end.

(** [in.size()]: the vectorized [{left, right}] length. *)
Definition in_size (i : OpIn) : Z :=
  match i with
  | In_Array1 _ => 1
  | In_ScalarScalar _ _ => 1 + 1
  | In_Range r => range_size r
  | In_RangePair l r => range_size l + range_size r
  | In_RangeArrayPair l _ => range_size l + 1
  | In_ArrayRangePair _ r => 1 + range_size r
  end.

(** [op.in[k]]: for a pair,
    [if (k < left.size()) return left[0] + k;
     else return right[0] + k - left.size();] *)
Definition in_at (i : OpIn) (k : Z) : Z :=
  match i with
  | In_Array1 j => j
  | In_ScalarScalar l r => if k <? 1 then l + k else r + k - 1
  | In_Range r => range_at r k
  | In_RangePair l r =>
      if k <? range_size l then range_at l 0 + k
      else range_at r 0 + k - range_size l
  | In_RangeArrayPair l r =>
      if k <? range_size l then range_at l 0 + k else r + k - range_size l
  | In_ArrayRangePair l r => if k <? 1 then l + k else range_at r 0 + k - 1
  end.

(** The [out] field of an operator. *)
Inductive OpOut :=
| Out_Scalar (i : Z)             (* OpOut::Scalar *)
| Out_Range (r : IndexRange).    (* OpOut::Range *)

Definition out_size (o : OpOut) : Z :=
  match o with
  | Out_Scalar _ => 1
  | Out_Range r => range_size r
  end.

Definition out_at (o : OpOut) (k : Z) : Z :=
  match o with
  | Out_Scalar i => i
  | Out_Range r => range_at r k
  end.

(** What the reverse sweep requires of an operator type: its [in] and [out]
    fields, the tags it derives from, [evaluate], and the two [partial]
    overloads of the [LocalDiff] object built by [local_diff(v)]. *)
Record Operator := mkOperator {
  op_in : OpIn;
  op_out : OpOut;
  OpIsElementWise : bool;
  HessianDiagAlwaysZero : bool;
  HessianOffDiagAlwaysZero : bool;
  evaluate : list double → list double;
  partial1 : list double → Z → Z → double;
  partial2 : list double → Z → Z → Z → double;
}.

(** ** Operator bodies (op_unary.h, op_iverson.h, op_multiply.h, op_minus.h,
    op_divide.h)

    Each definition is the [evaluate] method and the [LocalDiff] object of
    the struct of the same name, with the tags the struct derives from. *)

Module Body.

(** Template argument [RESULT] of [TrivialScalar] and [TrivialVector]; the
    variant of operator types holds the instances [<0>] and [<1>]. *)
Inductive RESULT := RESULT_0 | RESULT_1.

(** [double(RESULT)] *)
Definition double_of_RESULT (r : RESULT) : double :=
  match r with RESULT_0 => 0%float | RESULT_1 => 1%float end.

(** [for (i = 0; i < in.size(); i++) v[out[i]] = f(v[in[i]]);] *)
Definition map_range (f : double → double) (i o : IndexRange)
    (v : list double) : list double :=
  for_range (range_size i)
    (λ v k, vset v (range_at o k) (f (vget v (range_at i k)))) v.

(** *** IDENTITY *)

Definition IdentityScalar (i o : Z) : Operator := {|
  op_in := In_Array1 i;
  op_out := Out_Scalar o;
  OpIsElementWise := false;
  HessianDiagAlwaysZero := true;
  HessianOffDiagAlwaysZero := true;
  evaluate v := vset v o (vget v i);
  partial1 v _ _ := 1%float;
  partial2 v _ _ _ := 0%float;
|}.

Definition IdentityVector (i o : IndexRange) : Operator := {|
  op_in := In_Range i;
  op_out := Out_Range o;
  OpIsElementWise := false;
  HessianDiagAlwaysZero := true;
  HessianOffDiagAlwaysZero := true;
  evaluate := map_range (λ x, x) i o;
  partial1 v k j := if j =? k then 1%float else 0%float;
  partial2 v _ _ _ := 0%float;
|}.

(** *** TRIVIAL, INTEGER CONSTANT *)

Definition TrivialScalar (R : RESULT) (i o : Z) : Operator := {|
  op_in := In_Array1 i;
  op_out := Out_Scalar o;
  OpIsElementWise := false;
  HessianDiagAlwaysZero := true;
  HessianOffDiagAlwaysZero := true;
  evaluate v := vset v o (double_of_RESULT R);
  partial1 v _ _ := 0%float;
  partial2 v _ _ _ := 0%float;
|}.

Definition TrivialVector (R : RESULT) (i o : IndexRange) : Operator := {|
  op_in := In_Range i;
  op_out := Out_Range o;
  OpIsElementWise := false;
  HessianDiagAlwaysZero := true;
  HessianOffDiagAlwaysZero := true;
  evaluate := map_range (λ _, double_of_RESULT R) i o;
  partial1 v _ _ := 0%float;
  partial2 v _ _ _ := 0%float;
|}.

(** *** INVERT, y = 1/x *)

Definition InvertScalar (i o : Z) : Operator := {|
  op_in := In_Array1 i;
  op_out := Out_Scalar o;
  OpIsElementWise := false;
  HessianDiagAlwaysZero := false;
  HessianOffDiagAlwaysZero := false;
  evaluate v := vset v o (1 / vget v i)%float;
  partial1 v _ _ :=
    let x_inv := (1 / vget v i)%float in ((- x_inv) * x_inv)%float;
  partial2 v _ _ _ :=
    let x_inv := (1 / vget v i)%float in (2 * x_inv * x_inv * x_inv)%float;
|}.

Definition InvertVector (i o : IndexRange) : Operator := {|
  op_in := In_Range i;
  op_out := Out_Range o;
  OpIsElementWise := true;
  HessianDiagAlwaysZero := false;
  HessianOffDiagAlwaysZero := false;
  evaluate := map_range (λ x, 1 / x)%float i o;
  partial1 v k j :=
    if negb (j =? k) then 0%float
    else let x_inv := (1 / vget v (range_at i k))%float in
         ((- x_inv) * x_inv)%float;
  partial2 v k j l :=
    if negb (j =? k) || negb (l =? k) then 0%float
    else let x_inv := (1 / vget v (range_at i k))%float in
         (2 * x_inv * x_inv * x_inv)%float;
|}.

(** *** SQUARE, y = x*x *)

Definition SquareScalar (i o : Z) : Operator := {|
  op_in := In_Array1 i;
  op_out := Out_Scalar o;
  OpIsElementWise := false;
  HessianDiagAlwaysZero := false;
  HessianOffDiagAlwaysZero := false;
  evaluate v := let x := vget v i in vset v o (x * x)%float;
  partial1 v _ _ := (2 * vget v i)%float;
  partial2 v _ _ _ := 2%float;
|}.

Definition SquareVector (i o : IndexRange) : Operator := {|
  op_in := In_Range i;
  op_out := Out_Range o;
  OpIsElementWise := true;
  HessianDiagAlwaysZero := false;
  HessianOffDiagAlwaysZero := false;
  evaluate := map_range (λ x, x * x)%float i o;
  partial1 v k j :=
    if negb (j =? k) then 0%float else (2 * vget v (range_at i k))%float;
  partial2 v k j l :=
    if negb (j =? k) || negb (l =? k) then 0%float else 2%float;
|}.

(** *** CUBE, y = x*x*x *)

Definition CubeScalar (i o : Z) : Operator := {|
  op_in := In_Array1 i;
  op_out := Out_Scalar o;
  OpIsElementWise := false;
  HessianDiagAlwaysZero := false;
  HessianOffDiagAlwaysZero := false;
  evaluate v := let x := vget v i in vset v o (x * x * x)%float;
  partial1 v _ _ := let x := vget v i in (3 * x * x)%float;
  partial2 v _ _ _ := (6 * vget v i)%float;
|}.

Definition CubeVector (i o : IndexRange) : Operator := {|
  op_in := In_Range i;
  op_out := Out_Range o;
  OpIsElementWise := true;
  HessianDiagAlwaysZero := false;
  HessianOffDiagAlwaysZero := false;
  evaluate := map_range (λ x, x * x * x)%float i o;
  partial1 v k j :=
    if negb (j =? k) then 0%float
    else let x := vget v (range_at i k) in (3 * x * x)%float;
  partial2 v k j l :=
    if negb (j =? k) || negb (l =? k) then 0%float
    else (6 * vget v (range_at i k))%float;
|}.

(** *** MULTIPLICATION *)

(** [MultiplyScalarScalar<true, true>]: y = a * b, both free. *)
Definition MultiplyScalarScalar_free_free (l r o : Z) : Operator := {|
  op_in := In_ScalarScalar l r;
  op_out := Out_Scalar o;
  OpIsElementWise := false;
  HessianDiagAlwaysZero := true;
  HessianOffDiagAlwaysZero := false;
  evaluate v := vset v o (vget v l * vget v r)%float;
  (* LocalDiff{ v[in.right[0]], v[in.left[0]] }, partial returns x[j] *)
  partial1 v _ j := if j =? 0 then vget v r else vget v l;
  partial2 v _ j k := if j =? k then 0%float else 1%float;
|}.

(** [MultiplyScalarScalar<true, false>]: y = a * c, [c] the constant. *)
Definition MultiplyScalarScalar_free_fixed (i : Z) (c : double) (o : Z)
  : Operator := {|
  op_in := In_Array1 i;
  op_out := Out_Scalar o;
  OpIsElementWise := false;
  HessianDiagAlwaysZero := true;
  HessianOffDiagAlwaysZero := false;
  evaluate v := vset v o (vget v i * c)%float;
  partial1 v _ _ := c;
  partial2 v _ _ _ := 0%float;
|}.

(** [MultiplyVectorScalar<true, false>] *)
Definition MultiplyVectorScalar_free_fixed (i : IndexRange) (c : double)
    (o : IndexRange) : Operator := {|
  op_in := In_Range i;
  op_out := Out_Range o;
  OpIsElementWise := true;
  HessianDiagAlwaysZero := false;
  HessianOffDiagAlwaysZero := false;
  evaluate := map_range (λ a, a * c)%float i o;
  partial1 v k j := if j =? k then c else 0%float;
  partial2 v _ _ _ := 0%float;
|}.

(** *** SCALAR MINUS SCALAR *)

(** [MinusScalarScalar<true, true>]: y = a - b, both free. *)
Definition MinusScalarScalar_free_free (l r o : Z) : Operator := {|
  op_in := In_ScalarScalar l r;
  op_out := Out_Scalar o;
  OpIsElementWise := false;
  HessianDiagAlwaysZero := true;
  HessianOffDiagAlwaysZero := true;
  evaluate v := vset v o (vget v l - vget v r)%float;
  partial1 v _ j := if j =? 1 then (-1)%float else 1%float;
  partial2 v _ _ _ := 0%float;
|}.

(** *** DIVISION, SCALAR DIVIDED BY SCALAR *)

(** [DivideScalarScalar<IN_FREE, IN_FREE>]: y = a / b, both free. *)
Definition DivideScalarScalar_free_free (l r o : Z) : Operator := {|
  op_in := In_ScalarScalar l r;
  op_out := Out_Scalar o;
  OpIsElementWise := false;
  HessianDiagAlwaysZero := false;
  HessianOffDiagAlwaysZero := false;
  evaluate v := vset v o (vget v l / vget v r)%float;
  (* LocalDiff{ a = v[in.left[0]], bi = 1.0 / v[in.right[0]] } *)
  partial1 v _ j :=
    let a := vget v l in
    let bi := (1 / vget v r)%float in
    if j =? 0 then bi else ((- a) * bi * bi)%float;
  partial2 v _ j k :=
    let a := vget v l in
    let bi := (1 / vget v r)%float in
    if (j =? 0) && (k =? 0) then 0%float
    else if k =? 1 - j then ((- bi) * bi)%float
    else (2 * a * bi * bi * bi)%float;
|}.

(** *** IVERSON BRACKETS, LINEAR SCALE *)

(** [x > 0.0 ? 1.0 : 0.0] *)
Definition gt_zero (x : double) : double :=
  if PrimFloat.ltb 0%float x then 1%float else 0%float.

(** [x >= 0.0 ? 1.0 : 0.0] *)
Definition ge_zero (x : double) : double :=
  if PrimFloat.leb 0%float x then 1%float else 0%float.

(** [x > 0.0 ? 0.0 : -infinity] *)
Definition log_gt_zero (x : double) : double :=
  if PrimFloat.ltb 0%float x then 0%float else minus_infinity.

(** [x >= 0.0 ? 0.0 : -infinity] *)
Definition log_ge_zero (x : double) : double :=
  if PrimFloat.leb 0%float x then 0%float else minus_infinity.

(** The eight Iverson operators share their shape: tags
    [PartialAlwaysZero] and [HessianAlwaysZero], partials [0.]. *)
Definition iverson_scalar (f : double → double) (i o : Z) : Operator := {|
  op_in := In_Array1 i;
  op_out := Out_Scalar o;
  OpIsElementWise := false;
  HessianDiagAlwaysZero := true;
  HessianOffDiagAlwaysZero := true;
  evaluate v := vset v o (f (vget v i));
  partial1 v _ _ := 0%float;
  partial2 v _ _ _ := 0%float;
|}.

Definition iverson_vector (f : double → double) (i o : IndexRange)
  : Operator := {|
  op_in := In_Range i;
  op_out := Out_Range o;
  OpIsElementWise := false;
  HessianDiagAlwaysZero := true;
  HessianOffDiagAlwaysZero := true;
  evaluate := map_range f i o;
  partial1 v _ _ := 0%float;
  partial2 v _ _ _ := 0%float;
|}.

Definition GreaterThanZeroScalar := iverson_scalar gt_zero.
Definition GreaterThanZeroVector := iverson_vector gt_zero.
Definition GreaterThanOrEqualZeroScalar := iverson_scalar ge_zero.
Definition GreaterThanOrEqualZeroVector := iverson_vector ge_zero.
Definition LogGreaterThanZeroScalar := iverson_scalar log_gt_zero.
Definition LogGreaterThanZeroVector := iverson_vector log_gt_zero.
Definition LogGreaterThanOrEqualZeroScalar := iverson_scalar log_ge_zero.
Definition LogGreaterThanOrEqualZeroVector := iverson_vector log_ge_zero.

End Body.

(** ** Trace (trace.h) *)

Record Trace := mkTrace {
  values : list double;            (* Function values *)
  adjoints : list double;          (* Adjoints (gradient in reverse sweep) *)
  hessian : SparseSymMat.t;        (* Sparse Hessian map *)
}.

(** [double result() const { return values.back(); }] *)
Definition result (tr : Trace) : double := default 0%float (last (values tr)).

(** ** Forward and reverse sweeps (tape_autodiff.cpp) *)

Module Sweep.
Import SparseSymMat.

(** [Tape::play_forward]: [evaluate] on each operation, in record order. *)
Definition play_forward (operations : list Operator) (tr : Trace) : Trace :=
  mkTrace (foldl (λ v op, evaluate op v) (values tr) operations)
          (adjoints tr) (hessian tr).

Section visitor.
(** The visited operator, [trace.values] and the local index of the output
    under consideration.  [local] is [op.local_diff(trace.values)]. *)
Variable op : Operator.
Variable v : list double.
Variable i_local : Z.

Definition local1 (j : Z) : double := partial1 op v i_local j.
Definition local2 (j k : Z) : double := partial2 op v i_local j k.
Definition input (j_local : Z) : Z := in_at (op_in op) j_local.

(** [trace.adjoints[op.in[j_local]] += local.partial(i_local, j_local) * w] *)
Definition adjoint_add (w : double) (a : list double) (j_local : Z)
  : list double :=
  vadd a (input j_local) (local1 j_local * w)%float.

(** ADJOINT UPDATE, inside [if (w != 0.0)]. *)
Definition adjoint_update (w : double) (a : list double) : list double :=
  match op_in op with
  | In_Array1 _ =>                                   (* Unary input *)
      adjoint_add w a 0
  | In_ScalarScalar _ _ =>                           (* Binary input j,k *)
      adjoint_add w (adjoint_add w a 0) 1
  | shape =>
      if OpIsElementWise op then
        match shape with
        | In_Range _ =>                              (* Single range, j = i *)
            adjoint_add w a i_local
        | In_RangePair _ _ =>                        (* j = i, k = i+n *)
            let n := in_left_size shape in
            adjoint_add w (adjoint_add w a i_local) (i_local + n)
        | In_RangeArrayPair _ _ =>                   (* j = i, k = n *)
            let n := in_left_size shape in
            adjoint_add w (adjoint_add w a i_local) n
        | _ =>                                       (* j = 0, k = i+1 *)
            adjoint_add w (adjoint_add w a 0) (i_local + 1)
        end
      else                                           (* Generic iterable input *)
        for_range (in_size shape)
          (λ a j_local,
             if is_zero (local1 j_local) then a
             else adjoint_add w a j_local) a
  end.

(** [if (d != 0.0) trace.hessian.get(j, k) += d * x;] *)
Definition push (d : double) (j k : Z) (x : double) (h : matrix_t)
  : matrix_t :=
  if nonzero d then get_add j k (d * x)%float h else h.

(** PUSHING PART 1, body of the loop over the row of [i]: [j] is
    [it_j.first], [hij] is [it_j.second]. *)
Definition pushing_part_1 (i : Z) (h : matrix_t) (it_j : Z * double)
  : matrix_t :=
  let '(j, hij) := it_j in
  if j =? i then h
  else
    match op_in op with
    | In_Array1 _ => push (local1 0) j (input 0) hij h
    | In_ScalarScalar _ _ =>
        push (local1 1) j (input 1) hij (push (local1 0) j (input 0) hij h)
    | shape =>
        for_range (in_size shape)
          (λ h k_in, push (local1 k_in) j (input k_in) hij h) h
    end.

(** PUSHING PART 2, inside [if (it_i != r->end())]: [r_i] is [it_i->second]. *)
Definition pushing_part_2 (r_i : double) (h : matrix_t) : matrix_t :=
  match op_in op with
  | In_Array1 _ =>
      let didj := local1 0 in
      if nonzero didj
      then get_add (input 0) (input 0) (didj * didj * r_i)%float h
      else h
  | In_ScalarScalar _ _ =>
      let didj := local1 0 in
      let didk := local1 1 in
      let didj_didk := (didj * didk)%float in
      let h1 := if nonzero didj
                then get_add (input 0) (input 0) (didj * didj * r_i)%float h
                else h in
      let h2 := if nonzero didk
                then get_add (input 1) (input 1) (didk * didk * r_i)%float h1
                else h1 in
      if nonzero didj_didk
      then get_add (input 0) (input 1) (didj_didk * r_i)%float h2
      else h2
  | shape =>
      (* Unordered pairs of operands (j,k), including j == k *)
      for_range (in_size shape)
        (λ h j_in,
           let didj := local1 j_in in
           if is_zero didj then h
           else
             for_from j_in (in_size shape)
               (λ h k_in,
                  let didk := local1 k_in in
                  if is_zero didk then h
                  else get_add (input j_in) (input k_in)
                         (didj * didk * r_i)%float h) h) h
  end.

(** [creating_part_unary(op, local, trace, w, i_local, j_local)] *)
Definition creating_part_unary (w : double) (j_local : Z) (h : matrix_t)
  : matrix_t :=
  if HessianDiagAlwaysZero op then h
  else push (local2 j_local j_local) (input j_local) (input j_local) w h.

(** [creating_part_binary(op, local, trace, w, i_local, j_local, k_local)] *)
Definition creating_part_binary (w : double) (j_local k_local : Z)
    (h : matrix_t) : matrix_t :=
  let j := input j_local in
  let k := input k_local in
  let h1 :=
    if HessianDiagAlwaysZero op then h
    else push (local2 k_local k_local) k k w
           (push (local2 j_local j_local) j j w h) in
  if HessianOffDiagAlwaysZero op then h1
  else push (local2 j_local k_local) j k w h1.

(** CREATING PART, inside [if (w != 0.0)]. *)
Definition creating_part (w : double) (h : matrix_t) : matrix_t :=
  match op_in op with
  | In_Array1 _ => creating_part_unary w 0 h
  | In_ScalarScalar _ _ => creating_part_binary w 0 1 h
  | shape =>
      if OpIsElementWise op then
        match shape with
        | In_Range _ => creating_part_unary w i_local h
        | In_RangePair _ _ =>
            creating_part_binary w i_local (i_local + in_left_size shape) h
        | In_RangeArrayPair _ _ =>
            creating_part_binary w i_local (in_left_size shape) h
        | _ => creating_part_binary w 0 (i_local + 1) h
        end
      else
        (* Generic N-ary input *)
        for_range (in_size shape)
          (λ h j_local,
             let h1 := creating_part_unary w j_local h in
             if HessianOffDiagAlwaysZero op then h1
             else
               for_from (j_local + 1) (in_size shape)
                 (λ h k_local,
                    push (local2 j_local k_local)
                      (input j_local) (input k_local) w h) h1) h
  end.

End visitor.

(** Body of the loop [for (i_local = 0; i_local < op.out.size(); i_local++)]
    of [OpVariantReverse::operator()]; [None] when [assert(r_i != 0.0)] of
    pushing part 2 or an assertion of [erase] fails. *)
Definition reverse_output (op : Operator) (acc : option Trace) (i_local : Z)
  : option Trace :=
  match acc with
  | None => None
  | Some tr =>
      let v := values tr in
      let i := out_at (op_out op) i_local in
      (* Adjoint of i *)
      let w := vget (adjoints tr) i in
      let a := if nonzero w then adjoint_update op v i_local w (adjoints tr)
               else adjoints tr in
      let h := matrix (hessian tr) in
      let r := get_row_ptr h i in
      let h1 := match r with
                | None => h
                | Some row => foldl (pushing_part_1 op v i_local i) h
                                (in_order row)
                end in
      let h2 := match r with
                | None => Some h1
                | Some row =>
                    match row !! i with            (* r->find(i) *)
                    | None => Some h1
                    | Some r_i =>
                        if is_zero r_i then None   (* assert(r_i != 0.0) *)
                        else Some (pushing_part_2 op v i_local r_i h1)
                    end
                end in
      match h2 with
      | None => None
      | Some h2 =>
          let h3 :=
            if nonzero w then creating_part op v i_local w h2 else h2 in
          (* HOUSEKEEPING PART: remove the ith row/column *)
          let h4 := match r with
                    | None => Some h3
                    | Some _ => erase i h3
                    end in
          match h4 with
          | None => None
          | Some h' => Some (mkTrace v a (mk (width_ (hessian tr)) h'))
          end
      end
  end.

(** [OpVariantReverse(trace)(op)] *)
Definition OpVariantReverse (acc : option Trace) (op : Operator)
  : option Trace :=
  foldl (reverse_output op) acc (seqZ 0 (out_size (op_out op))).

(** [adjoints.back() = 1.0] *)
Definition set_back (a : list double) (x : double) : list double :=
  match a with
  | [] => []
  | _ => <[Nat.pred (length a) := x]> a
  end.

(** [Tape::play_reverse]; [None] when [adjoints] is empty, where
    [adjoints.back()] is undefined. *)
Definition play_reverse (operations : list Operator) (tr : Trace)
  : option Trace :=
  match adjoints tr with
  | [] => None
  | _ =>
      let a := set_back (replicate (length (adjoints tr)) 0%float) 1%float in
      let tr0 := mkTrace (values tr) a (mk (width_ (hessian tr)) ∅) in
      foldl OpVariantReverse (Some tr0) (reverse operations)
  end.

(** [play_forward(trace); play_reverse(trace);], the body of [Tape::play]
    after its assertion on the size of the trace, which needs the tape and is
    made by [Trace_play] below. *)
Definition play (operations : list Operator) (tr : Trace) : option Trace :=
  play_reverse operations (play_forward operations tr).

End Sweep.

(** ** Exceptions *)

Inductive exception := logic_error (what : string).

Inductive Result (A : Type) :=
| Ok (a : A)
| Throw (e : exception).
Arguments Ok {A} a.
Arguments Throw {A} e.

(** ** Tensor (tensor.h) and vector overloads (vector_overloads.h) *)

Record Tensor := mkTensor { dim : list Z; val : list double }.

(** [TensorDim::product].  The loop multiplies in [size_t]; for positive
    dimensions whose product is below 2^64 no step of it wraps around, and
    the product in [Z] is what it returns. *)
Definition product (vec : list Z) : Z :=
  match vec with
  | [] => 0
  | _ => foldl Z.mul 1 vec
  end.

(** [TensorDim::size], [is_null], [is_scalar] *)
Definition tensor_size (t : Tensor) : Z := product (dim t).
Definition is_null (t : Tensor) : bool := tensor_size t =? 0.
Definition is_scalar (t : Tensor) : bool := tensor_size t =? 1.

(** [val.size()] *)
Definition val_size (t : Tensor) : Z := Z.of_nat (length (val t)).

(** [Tensor(const double& x)] *)
Definition Tensor_scalar (x : double) : Tensor := mkTensor [1] [x].

(** [Tensor(const std::vector<double>& x)] *)
Definition Tensor_vector (x : list double) : Tensor :=
  mkTensor [Z.of_nat (length x)] x.

(** [Tensor(const TensorDim& dim)]: [val.resize(size())] *)
Definition Tensor_dim (d : list Z) : Tensor :=
  mkTensor d (replicate (Z.to_nat (product d)) 0%float).

(** [Tensor& fill(const double x)] *)
Definition fill (x : double) (t : Tensor) : Tensor :=
  mkTensor (dim t) (map (λ _, x) (val t)).

(** [double scalar() const { return val[0]; }] *)
Definition scalar (t : Tensor) : double := vget (val t) 0.

(** [a.dim == b.dim] *)
Definition dim_eq (a b : Tensor) : bool := bool_decide (dim a = dim b).

(** The macro-generated overloads of a binary operation or function on
    [std::vector<double>]. *)
Definition vector_binary (f : double → double → double)
    (a b : list double) : list double :=
  if Z.of_nat (length a) =? 1 then map (f (vget a 0)) b
  else if Z.of_nat (length b) =? 1 then map (λ x, f x (vget b 0)) a
  else imap (λ i x, f x (vget b (Z.of_nat i))) a.

(** [Tensor operator OP(const Tensor& a, const Tensor& b)] and
    [Tensor pow(const Tensor& a, const Tensor& b)].  The code first asserts
    [!a.is_null()] and [!b.is_null()], and the last branch asserts [false]
    before it throws: with assertions compiled in, the operation returns a
    tensor or stops.  The branches are given as the code runs without the
    assertions. *)
Definition tensor_binary (f : double → double → double) (a b : Tensor)
  : Result Tensor :=
  if dim_eq a b then Ok (mkTensor (dim a) (vector_binary f (val a) (val b)))
  else if is_scalar a then
    Ok (mkTensor (dim b) (vector_binary f (val a) (val b)))
  else if is_scalar b then
    Ok (mkTensor (dim a) (vector_binary f (val a) (val b)))
  else Throw (logic_error "Uncompatible tensor dimensions").

(** ** Shapes and indices of tensors (tensor.h) *)

(** The loop of [TensorDim::is_vector]:
    [for (dim_size : dim) {
       if (dim_size == tensor_size) return true;
       if (dim_size > 1) return false;
     }
     return false;] *)
Fixpoint is_vector_loop (tensor_size : Z) (dims : list Z) : bool :=
  match dims with
  | [] => false
  | dim_size :: rest =>
      if dim_size =? tensor_size then true
      else if 1 <? dim_size then false
      else is_vector_loop tensor_size rest
  end.

(** [bool is_vector() const] *)
Definition is_vector (t : Tensor) : bool :=
  is_vector_loop (tensor_size t) (dim t).

(** [index_t vec_index(i, j) const]; [None] where [dim[0]] does not
    exist. *)
Definition vec_index_2 (d : list Z) (i j : Z) : option Z :=
  dim_0 ← d !! 0%nat;
  Some (i + j * dim_0).

(** [index_t vec_index(i, j, k) const]; [None] where [dim[0]] or [dim[1]]
    does not exist. *)
Definition vec_index_3 (d : list Z) (i j k : Z) : option Z :=
  dim_0 ← d !! 0%nat;
  dim_1 ← d !! 1%nat;
  Some (i + j * dim_0 + k * dim_1 * dim_0).

(** The loop of [vec_index(const std::vector<index_t>& ivec)], from the
    values [vi] and [n_] on: [vi += ivec[k] * n_; n_ *= dim[k];].  [None]
    when [ivec] is longer than [dim], which the function asserts not to
    happen. *)
Fixpoint vec_index_loop (vi n_ : Z) (ivec d : list Z) : option Z :=
  match ivec with
  | [] => Some vi
  | i_k :: ivec' =>
      match d with
      | [] => None
      | dim_k :: d' => vec_index_loop (vi + i_k * n_) (n_ * dim_k) ivec' d'
      end
  end.

(** [index_t vec_index(const std::vector<index_t>& ivec) const] *)
Definition vec_index (ivec : list Z) (d : list Z) : option Z :=
  vec_index_loop 0 1 ivec d.

(** [bool vec_index_is_valid(const index_t vi) const] *)
Definition vec_index_is_valid (t : Tensor) (vi : Z) : bool :=
  (0 <=? vi) && (vi <? val_size t).


(** ** Operator types held by the tape (operators.h) *)

(** The freedom mix of a binary family:
    [<true, true>], [<true, false>], [<false, true>]. *)
Inductive Freedom := FreeFree | FreeFixed | FixedFree.

(** Alternatives of [Tape::OpVariant] that the recording functions below
    emit. *)
Inductive OpType :=
| IdentityScalar | IdentityVector
| TrivialScalar (R : Body.RESULT) | TrivialVector (R : Body.RESULT)
| NegateScalar | NegateVector
| InvertScalar | InvertVector
| SquareScalar | SquareVector
| CubeScalar | CubeVector
| PlusScalarScalar (f : Freedom) | PlusVectorScalar (f : Freedom)
| PlusVectorVector (f : Freedom)
| MinusScalarScalar (f : Freedom) | MinusVectorScalar (f : Freedom)
| MinusScalarVector (f : Freedom) | MinusVectorVector (f : Freedom)
| MultiplyScalarScalar (f : Freedom) | MultiplyVectorScalar (f : Freedom)
| MultiplyVectorVector (f : Freedom)
| DivideScalarScalar (f : Freedom) | DivideVectorScalar (f : Freedom)
| DivideScalarVector (f : Freedom) | DivideVectorVector (f : Freedom)
| PowerScalarScalar (f : Freedom) | PowerVectorScalar (f : Freedom)
| PowerScalarVector (f : Freedom) | PowerVectorVector (f : Freedom)
| GreaterThanZeroScalar | GreaterThanZeroVector
| GreaterThanOrEqualZeroScalar | GreaterThanOrEqualZeroVector
| LogGreaterThanZeroScalar | LogGreaterThanZeroVector
| LogGreaterThanOrEqualZeroScalar | LogGreaterThanOrEqualZeroVector.

(** The [constant] field of an operator. *)
Inductive OpConst :=
| Const_None                          (* OpConst::None *)
| Const_Array1 (c : double)           (* OpConst::Array<1> *)
| Const_Vector (c : list double).     (* OpConst::Vector *)

(** [OpConst::Array<1>(const Tensor&)]: [constant{ { tensor.val[0] } }];
    the constructor asserts [tensor.is_scalar()]. *)
Definition Const_Array1_of_Tensor (t : Tensor) : OpConst :=
  Const_Array1 (vget (val t) 0).

(** [OpConst::Vector(const Tensor&)]: [constant{ tensor.val }]; the
    constructor asserts [tensor.is_vector()]. *)
Definition Const_Vector_of_Tensor (t : Tensor) : OpConst :=
  Const_Vector (val t).

(** An operator instance: its type and its [in], [constant], [out]. *)
Record OpVariant := mkOp {
  ov_type : OpType;
  ov_in : OpIn;
  ov_constant : OpConst;
  ov_out : OpOut;
}.

(** [std::is_base_of_v<OpOut::Scalar, OP>] *)
Definition out_is_scalar (t : OpType) : bool :=
  match t with
  | IdentityScalar | TrivialScalar _ | NegateScalar | InvertScalar
  | SquareScalar | CubeScalar
  | PlusScalarScalar _ | MinusScalarScalar _ | MultiplyScalarScalar _
  | DivideScalarScalar _ | PowerScalarScalar _
  | GreaterThanZeroScalar | GreaterThanOrEqualZeroScalar
  | LogGreaterThanZeroScalar | LogGreaterThanOrEqualZeroScalar => true
  | _ => false
  end.

(** [OP::output_range_size(in, constant)]: the helper of [OpOutSize] that a
    range-valued operator with these signatures derives from. *)
Definition output_range_size (i : OpIn) (c : OpConst) : Z :=
  match i, c with
  | In_RangeArrayPair l _, Const_None => range_size l  (* RangeArray_None_RangeSize *)
  | In_ArrayRangePair _ r, Const_None => range_size r  (* ArrayRange_None_RangeSize *)
  | In_Range r, Const_Array1 _ => range_size r         (* Range_Scalar_RangeSize *)
  | In_Range r, Const_Vector _ => range_size r         (* Range_Vector_RangeSize *)
  | In_Range r, Const_None => range_size r             (* Range_None_RangeSize *)
  | In_Array1 _, Const_Vector k => Z.of_nat (length k) (* Scalar_Vector_VectorSize *)
  | In_RangePair l _, Const_None => range_size l       (* RangePair_None_RangeSize *)
  | _, _ => 0
  end.

(** ** Assertions of the operator constructors (op_unary.h, op_plus.h,
    op_minus.h, op_multiply.h, op_divide.h, op_power.h, op_iverson.h) *)

(** [(in.left.end() <= in.right[0]) || (in.right[0] < in.left.begin())] *)
Definition scalar_outside (l : IndexRange) (r : Z) : bool :=
  (range_end l <=? r) || (r <? range_begin l).

(** [(in.left[0] < in.right.begin()) || (in.right.end() <= in.left[0])] *)
Definition scalar_before_or_after (l : Z) (r : IndexRange) : bool :=
  (l <? range_begin r) || (range_end r <=? l).

(** [(in.right.begin() >= in.left.end()) ||
     (in.left.begin() >= in.right.end())] *)
Definition ranges_apart (l r : IndexRange) : bool :=
  (range_begin r >=? range_end l) || (range_begin l >=? range_end r).

(** The assertions in the body of the constructor [OP(in, constant, out)] of
    each operator type; [false] on the signatures that the type does not
    have. *)
Definition constructor_asserts (o : OpVariant) : bool :=
  match ov_type o, ov_in o, ov_constant o, ov_out o with
  (* Unary, scalar: no assertion *)
  | (IdentityScalar | TrivialScalar _ | NegateScalar | InvertScalar
     | SquareScalar | CubeScalar
     | GreaterThanZeroScalar | GreaterThanOrEqualZeroScalar
     | LogGreaterThanZeroScalar | LogGreaterThanOrEqualZeroScalar),
    In_Array1 _, Const_None, Out_Scalar _ => true
  (* Unary, vector: assert(in.size() == out.size()) *)
  | (IdentityVector | TrivialVector _ | NegateVector | InvertVector
     | SquareVector | CubeVector
     | GreaterThanZeroVector | GreaterThanOrEqualZeroVector
     | LogGreaterThanZeroVector | LogGreaterThanOrEqualZeroVector),
    In_Range i, Const_None, Out_Range y => range_size i =? range_size y
  (* Scalar and scalar, both free: assert(in.left[0] != in.right[0]) *)
  | (PlusScalarScalar FreeFree | MultiplyScalarScalar FreeFree
     | DivideScalarScalar FreeFree | PowerScalarScalar FreeFree),
    In_ScalarScalar l r, Const_None, Out_Scalar _ => negb (l =? r)
  (* assert(in.left[0] > -1 && in.right[0] > -1) comes first *)
  | MinusScalarScalar FreeFree,
    In_ScalarScalar l r, Const_None, Out_Scalar _ =>
      (-1 <? l) && (-1 <? r) && negb (l =? r)
  (* Scalar and scalar, one fixed: no assertion *)
  | (PlusScalarScalar (FreeFixed | FixedFree)
     | MinusScalarScalar (FreeFixed | FixedFree)
     | MultiplyScalarScalar (FreeFixed | FixedFree)
     | DivideScalarScalar (FreeFixed | FixedFree)
     | PowerScalarScalar (FreeFixed | FixedFree)),
    In_Array1 _, Const_Array1 _, Out_Scalar _ => true
  (* Vector and scalar, both free *)
  | (PlusVectorScalar FreeFree | MinusVectorScalar FreeFree
     | MultiplyVectorScalar FreeFree | DivideVectorScalar FreeFree
     | PowerVectorScalar FreeFree),
    In_RangeArrayPair l r, Const_None, Out_Range _ => scalar_outside l r
  (* Vector and scalar, one fixed: no assertion *)
  | (PlusVectorScalar FreeFixed | MinusVectorScalar FreeFixed
     | MultiplyVectorScalar FreeFixed | DivideVectorScalar FreeFixed
     | PowerVectorScalar FreeFixed),
    In_Range _, Const_Array1 _, Out_Range _ => true
  | (PlusVectorScalar FixedFree | MinusVectorScalar FixedFree
     | MultiplyVectorScalar FixedFree | DivideVectorScalar FixedFree
     | PowerVectorScalar FixedFree),
    In_Array1 _, Const_Vector _, Out_Range _ => true
  (* Scalar and vector, both free *)
  | (MinusScalarVector FreeFree | DivideScalarVector FreeFree
     | PowerScalarVector FreeFree),
    In_ArrayRangePair l r, Const_None, Out_Range y =>
      (range_size r =? range_size y) && scalar_before_or_after l r
  (* Scalar and vector, the vector fixed:
     assert(constant.size() == out.size()) *)
  | (MinusScalarVector FreeFixed | DivideScalarVector FreeFixed
     | PowerScalarVector FreeFixed),
    In_Array1 _, Const_Vector c, Out_Range y =>
      Z.of_nat (length c) =? range_size y
  (* Scalar and vector, the scalar fixed: assert(in.size() == out.size()) *)
  | (MinusScalarVector FixedFree | DivideScalarVector FixedFree
     | PowerScalarVector FixedFree),
    In_Range i, Const_Array1 _, Out_Range y => range_size i =? range_size y
  (* Vector and vector, both free *)
  | (PlusVectorVector FreeFree | PowerVectorVector FreeFree),
    In_RangePair l r, Const_None, Out_Range y =>
      (range_size l =? range_size r) && (range_size l =? range_size y)
      && ranges_apart l r
  | (MinusVectorVector FreeFree | MultiplyVectorVector FreeFree
     | DivideVectorVector FreeFree),
    In_RangePair l r, Const_None, Out_Range _ =>
      (range_size l =? range_size r) && ranges_apart l r
  (* Vector and vector, one fixed:
     assert(in.size() == constant.size()); assert(in.size() == out.size()) *)
  | (PlusVectorVector (FreeFixed | FixedFree)
     | MinusVectorVector (FreeFixed | FixedFree)
     | MultiplyVectorVector (FreeFixed | FixedFree)
     | DivideVectorVector (FreeFixed | FixedFree)
     | PowerVectorVector (FreeFixed | FixedFree)),
    In_Range i, Const_Vector c, Out_Range y =>
      (range_size i =? Z.of_nat (length c))
      && (range_size i =? range_size y)
  | _, _, _, _ => false
  end.

(** ** Tape (tape.h) *)

(** The tensor maps of the class serve the [TensorMap] constructor of [Spy]
    only and are left out. *)
Record Tape := mkTape {
  n_input_size : Z;
  n_trace_size : Z;
  operations : list OpVariant;
  initial_values : list double;
}.

(** [Tape(const size_t n_input_size = 0)] *)
Definition Tape_make (n : Z) : Tape := mkTape n n [] [].

Definition input_size (t : Tape) : Z := n_input_size t.
Definition trace_size (t : Tape) : Z := n_trace_size t.

(** [void op_register(const OP operation)] *)
Definition op_register (operation : OpVariant) (t : Tape) : Tape :=
  mkTape (n_input_size t)
         (n_trace_size t + out_size (ov_out operation))
         (operations t ++ [operation])
         (initial_values t).

(** [index_t rec<OP>(in, constant)].  [OP operation(in, constant, out)]
    runs the constructor of the operator, whose assertions are
    [constructor_asserts] above; [rec] is given as it runs when they hold. *)
Definition rec (OP : OpType) (i : OpIn) (c : OpConst) (t : Tape)
  : Z * Tape :=
  let out_begin := trace_size t in
  let o := if out_is_scalar OP then Out_Scalar out_begin
           else Out_Range (mkRange out_begin
                             (out_begin + output_range_size i c)) in
  (out_begin, op_register (mkOp OP i c o) t).

(** ** Spy (spy.h) *)

(** A spy is a tensor with its first index in the tape and its index in a
    tensor map; the tape it refers to is the one threaded through the
    recording functions. *)
Record Spy := mkSpy {
  tensor : Tensor;
  tape_id_ : Z;
  tensor_id_ : Z;
}.

Definition tape_begin (s : Spy) : Z := tape_id_ s.
Definition tape_end (s : Spy) : Z := tape_id_ s + val_size (tensor s).

(** [Spy(const Tensor& tensor, Tape& tape, const index_t tape_id)] *)
Definition Spy_register (x : Tensor) (tape_id : Z) : Spy :=
  mkSpy x tape_id (-1).

(** [operator OpIn::Scalar() const], [operator OpIn::Range() const],
    [operator IndexRange() const] *)
Definition to_Scalar (s : Spy) : OpIn := In_Array1 (tape_begin s).
Definition to_IndexRange (s : Spy) : IndexRange :=
  mkRange (tape_begin s) (tape_end s).
Definition to_Range (s : Spy) : OpIn := In_Range (to_IndexRange s).

(** [Spy(const Tensor& tensor, Tape& tape)]: declaration of an input.
    The result comes with the tape as the call leaves it. *)
Definition Spy_input (x : Tensor) (tape : Tape) : Result Spy * Tape :=
  let s := Spy_register x (input_size tape) in
  if 0 <? Z.of_nat (length (operations tape)) then
    (Throw (logic_error
              "Attempt to declare an input Spy after recording started."),
     tape)
  else
    (Ok s, mkTape (n_input_size tape + val_size x)
                  (n_trace_size tape + val_size x)
                  (operations tape)
                  (initial_values tape ++ val x)).

(** [Spy(const Spy& spy)]: the copy records an Identity operation. *)
Definition Spy_copy (spy : Spy) (tape : Tape) : Spy * Tape :=
  let this := Spy_register (tensor spy) (-1) in
  let '(out, tape') :=
    if is_scalar (tensor this)
    then rec IdentityScalar (to_Scalar spy) Const_None tape
    else rec IdentityVector (to_Range spy) Const_None tape in
  (mkSpy (tensor this) out (tensor_id_ this), tape').

(** [Spy operator[](const index_t i) const] *)
Definition Spy_at (s : Spy) (i : Z) : Spy :=
  Spy_register (Tensor_scalar (vget (val (tensor s)) i)) (tape_begin s + i).

(** ** Recording arithmetic on spies (spy_minus.cpp, spy_divide.cpp,
    spy_plus.cpp, spy_power.cpp)

    Every function returns its result, or the exception it throws, together
    with the tape as the call leaves it. *)

(** [return Spy(value, tape, out)] where computing [value] may throw. *)
Definition return_Spy (value : Result Tensor) (out : Z) (tape : Tape)
  : Result Spy * Tape :=
  match value with
  | Ok t => (Ok (Spy_register t out), tape)
  | Throw e => (Throw e, tape)
  end.

(** The non-trivial case shared by the binary functions on two spies: the
    operator is chosen by the shapes, and the value of the result is
    [value].  The last branch asserts [false] before it throws. *)
Definition record_spy_spy (SS VV SV VS : OpType) (swap_SV : bool)
    (value : Result Tensor) (a b : Spy) (tape : Tape) : Result Spy * Tape :=
  if dim_eq (tensor a) (tensor b) then            (* Equal dimensions *)
    let '(out, tape') :=
      if is_scalar (tensor a)
      then rec SS (In_ScalarScalar (tape_begin a) (tape_begin b))
             Const_None tape
      else rec VV (In_RangePair (to_IndexRange a) (to_IndexRange b))
             Const_None tape in
    return_Spy value out tape'
  else if is_scalar (tensor a) then               (* Unequal dimensions *)
    let '(out, tape') :=
      if swap_SV
      then rec SV (In_RangeArrayPair (to_IndexRange b) (tape_begin a))
             Const_None tape
      else rec SV (In_ArrayRangePair (tape_begin a) (to_IndexRange b))
             Const_None tape in
    return_Spy value out tape'
  else if is_scalar (tensor b) then
    let '(out, tape') :=
      rec VS (In_RangeArrayPair (to_IndexRange a) (tape_begin b))
        Const_None tape in
    return_Spy value out tape'
  else (Throw (logic_error "Uncompatible tensor dimensions"), tape).

(** [Spy operator-(const Spy& a, const Spy& b)]; the trivial case asserts
    [a.dim == b.dim]. *)
Definition Spy_minus (a b : Spy) (tape : Tape) : Result Spy * Tape :=
  if tape_begin a =? tape_begin b then            (* Trivial case a-a *)
    let '(out, tape') :=
      if is_scalar (tensor a)
      then rec (TrivialScalar Body.RESULT_0) (to_Scalar a) Const_None tape
      else rec (TrivialVector Body.RESULT_0) (to_Range a) Const_None tape in
    (Ok (Spy_register (fill 0%float (Tensor_dim (dim (tensor a)))) out),
     tape')
  else
    record_spy_spy (MinusScalarScalar FreeFree) (MinusVectorVector FreeFree)
      (MinusScalarVector FreeFree) (MinusVectorScalar FreeFree) false
      (tensor_binary PrimFloat.sub (tensor a) (tensor b)) a b tape.

(** [Spy operator/(const Spy& a, const Spy& b)]; the trivial case asserts
    [a.dim == b.dim]. *)
Definition Spy_divide (a b : Spy) (tape : Tape) : Result Spy * Tape :=
  if tape_begin a =? tape_begin b then            (* Trivial case a/a *)
    let '(out, tape') :=
      if is_scalar (tensor a)
      then rec (TrivialScalar Body.RESULT_1) (to_Scalar a) Const_None tape
      else rec (TrivialVector Body.RESULT_1) (to_Range a) Const_None tape in
    (Ok (Spy_register (fill 1%float (Tensor_dim (dim (tensor a)))) out),
     tape')
  else
    record_spy_spy (DivideScalarScalar FreeFree) (DivideVectorVector FreeFree)
      (DivideScalarVector FreeFree) (DivideVectorScalar FreeFree) false
      (tensor_binary PrimFloat.div (tensor a) (tensor b)) a b tape.

(** [Spy operator+(const Spy& a, const Spy& b)]; for a scalar plus a vector
    the commutative operator is recorded with the operands swapped.  The
    trivial case asserts [a.dim == b.dim]. *)
Definition Spy_plus (a b : Spy) (tape : Tape) : Result Spy * Tape :=
  if tape_begin a =? tape_begin b then
    let '(out, tape') :=
      if is_scalar (tensor a)
      then rec (MultiplyScalarScalar FreeFixed) (to_Scalar a)
             (Const_Array1 2%float) tape
      else rec (MultiplyVectorScalar FreeFixed) (to_Range a)
             (Const_Array1 2%float) tape in
    return_Spy (tensor_binary PrimFloat.add (tensor a) (tensor b)) out tape'
  else
    record_spy_spy (PlusScalarScalar FreeFree) (PlusVectorVector FreeFree)
      (PlusVectorScalar FreeFree) (PlusVectorScalar FreeFree) true
      (tensor_binary PrimFloat.add (tensor a) (tensor b)) a b tape.

(** The non-trivial case shared by the functions on a spy and a tensor:
    [x] is the spy, [k] the tensor recorded as the constant, and
    [k_is_left] tells on which side of the operation the tensor stands.
    The constant is built by [OpConst::Array<1>] or [OpConst::Vector], with
    the assertion of its constructor, and the last branch asserts [false]
    before it throws. *)
Definition record_spy_tensor (SS VV SV VS : OpType) (k_is_left : bool)
    (value : Result Tensor) (x : Spy) (k : Tensor) (tape : Tape)
  : Result Spy * Tape :=
  let a := if k_is_left then k else tensor x in
  let b := if k_is_left then tensor x else k in
  if dim_eq a b then                               (* Equal dimensions *)
    let '(out, tape') :=
      if is_scalar a
      then rec SS (to_Scalar x) (Const_Array1_of_Tensor k) tape
      else rec VV (to_Range x) (Const_Vector_of_Tensor k) tape in
    return_Spy value out tape'
  else if is_scalar a then                         (* Unequal dimensions *)
    let '(out, tape') :=
      if k_is_left
      then rec SV (to_Range x) (Const_Array1_of_Tensor k) tape
      else rec SV (to_Scalar x) (Const_Vector_of_Tensor k) tape in
    return_Spy value out tape'
  else if is_scalar b then
    let '(out, tape') :=
      if k_is_left
      then rec VS (to_Scalar x) (Const_Vector_of_Tensor k) tape
      else rec VS (to_Range x) (Const_Array1_of_Tensor k) tape in
    return_Spy value out tape'
  else (Throw (logic_error "Uncompatible tensor dimensions"), tape).

(** A unary operator recorded on [x], in scalar or vector form. *)
Definition rec_unary (S V : OpType) (x : Spy) (tape : Tape) : Z * Tape :=
  if is_scalar (tensor x)
  then rec S (to_Scalar x) Const_None tape
  else rec V (to_Range x) Const_None tape.

(** [b.is_scalar() && b.scalar() == c] *)
Definition is_literal (c : double) (b : Tensor) : bool :=
  is_scalar b && PrimFloat.eqb (scalar b) c.

(** [Spy operator/(const Tensor& a, const Spy& b)] *)
Definition Tensor_divide_Spy (a : Tensor) (b : Spy) (tape : Tape)
  : Result Spy * Tape :=
  let value := tensor_binary PrimFloat.div a (tensor b) in
  if is_literal 0%float a then                     (* Optimize *)
    let '(out, tape') :=
      rec_unary (TrivialScalar Body.RESULT_0) (TrivialVector Body.RESULT_0)
        b tape in
    return_Spy value out tape'
  else if is_literal 1%float a then                (* Optimize *)
    let '(out, tape') := rec_unary InvertScalar InvertVector b tape in
    return_Spy value out tape'
  else
    record_spy_tensor (DivideScalarScalar FixedFree)
      (DivideVectorVector FixedFree) (DivideScalarVector FixedFree)
      (DivideVectorScalar FixedFree) true value b a tape.

(** [Spy operator/(const double& a, const Spy& b)] *)
Definition double_divide_Spy (a : double) (b : Spy) (tape : Tape)
  : Result Spy * Tape :=
  Tensor_divide_Spy (Tensor_scalar a) b tape.

Section power.
(** [std::pow] of <cmath>. *)
Variable std_pow : double → double → double.

(** [Spy pow(const Spy& a, const Tensor& b)] *)
Definition Spy_pow (a : Spy) (b : Tensor) (tape : Tape)
  : Result Spy * Tape :=
  let value := tensor_binary std_pow (tensor a) b in
  if is_literal (-1)%float b then                  (* Optimize *)
    let '(out, tape') := rec_unary InvertScalar InvertVector a tape in
    return_Spy value out tape'
  else if is_literal 0%float b then                (* Optimize *)
    let '(out, tape') :=
      rec_unary (TrivialScalar Body.RESULT_1) (TrivialVector Body.RESULT_1)
        a tape in
    return_Spy value out tape'
  else if is_literal 1%float b then                (* Optimize *)
    let '(out, tape') := rec_unary IdentityScalar IdentityVector a tape in
    return_Spy value out tape'
  else if is_literal 2%float b then                (* Optimize *)
    let '(out, tape') := rec_unary SquareScalar SquareVector a tape in
    return_Spy value out tape'
  else if is_literal 3%float b then                (* Optimize *)
    let '(out, tape') := rec_unary CubeScalar CubeVector a tape in
    return_Spy value out tape'
  else
    record_spy_tensor (PowerScalarScalar FreeFixed)
      (PowerVectorVector FreeFixed) (PowerScalarVector FreeFixed)
      (PowerVectorScalar FreeFixed) false value a b tape.

(** [Spy pow(const Spy& a, const double& b)] *)
Definition Spy_pow_double (a : Spy) (b : double) (tape : Tape)
  : Result Spy * Tape :=
  Spy_pow a (Tensor_scalar b) tape.

End power.

(** ** Element access on spies (spy.h) *)

(** [Spy operator()(const index_t i, const index_t j) const] *)
Definition Spy_at_2 (s : Spy) (i j : Z) : option Spy :=
  vi ← vec_index_2 (dim (tensor s)) i j;
  Some (Spy_at s vi).

(** [Spy operator()(const index_t i, const index_t j, const index_t k) const] *)
Definition Spy_at_3 (s : Spy) (i j k : Z) : option Spy :=
  vi ← vec_index_3 (dim (tensor s)) i j k;
  Some (Spy_at s vi).

(** [Spy operator()(const std::vector<index_t>& ivec) const] *)
Definition Spy_at_tuple (s : Spy) (ivec : list Z) : option Spy :=
  vi ← vec_index ivec (dim (tensor s));
  Some (Spy_at s vi).

(** ** Recording arithmetic on a spy and a tensor (spy_minus.cpp,
    spy_plus.cpp, spy_divide.cpp, spy_power.cpp, spy_unary.cpp) *)

(** [Spy operator-(const Spy& a, const Tensor& b)] *)
Definition Spy_minus_Tensor (a : Spy) (b : Tensor) (tape : Tape)
  : Result Spy * Tape :=
  let value := tensor_binary PrimFloat.sub (tensor a) b in
  if is_literal 0%float b then                     (* Optimize *)
    let '(out, tape') := rec_unary IdentityScalar IdentityVector a tape in
    return_Spy value out tape'
  else
    record_spy_tensor (MinusScalarScalar FreeFixed)
      (MinusVectorVector FreeFixed) (MinusScalarVector FreeFixed)
      (MinusVectorScalar FreeFixed) false value a b tape.

(** [Spy operator-(const Spy& a, const double& b)] *)
Definition Spy_minus_double (a : Spy) (b : double) (tape : Tape)
  : Result Spy * Tape :=
  Spy_minus_Tensor a (Tensor_scalar b) tape.

(** [Spy operator-(const Tensor& a, const Spy& b)] *)
Definition Tensor_minus_Spy (a : Tensor) (b : Spy) (tape : Tape)
  : Result Spy * Tape :=
  let value := tensor_binary PrimFloat.sub a (tensor b) in
  if is_literal 0%float a then                     (* Optimize *)
    let '(out, tape') := rec_unary NegateScalar NegateVector b tape in
    return_Spy value out tape'
  else
    record_spy_tensor (MinusScalarScalar FixedFree)
      (MinusVectorVector FixedFree) (MinusScalarVector FixedFree)
      (MinusVectorScalar FixedFree) true value b a tape.

(** [Spy operator-(const double& a, const Spy& b)] *)
Definition double_minus_Spy (a : double) (b : Spy) (tape : Tape)
  : Result Spy * Tape :=
  Tensor_minus_Spy (Tensor_scalar a) b tape.

(** [Spy operator+(const Spy& a, const Tensor& b)]; a scalar spy plus a
    vector tensor records the commutative [PlusVectorScalar<false, true>]. *)
Definition Spy_plus_Tensor (a : Spy) (b : Tensor) (tape : Tape)
  : Result Spy * Tape :=
  let value := tensor_binary PrimFloat.add (tensor a) b in
  if is_literal 0%float b then                     (* Optimize *)
    let '(out, tape') := rec_unary IdentityScalar IdentityVector a tape in
    return_Spy value out tape'
  else
    record_spy_tensor (PlusScalarScalar FreeFixed)
      (PlusVectorVector FreeFixed) (PlusVectorScalar FixedFree)
      (PlusVectorScalar FreeFixed) false value a b tape.

(** [Spy operator+(const Spy& a, const double& b)] *)
Definition Spy_plus_double (a : Spy) (b : double) (tape : Tape)
  : Result Spy * Tape :=
  Spy_plus_Tensor a (Tensor_scalar b) tape.

(** [Spy operator+(const Tensor& a, const Spy& b)]:
    [return operator+(b, a);] *)
Definition Tensor_plus_Spy (a : Tensor) (b : Spy) (tape : Tape)
  : Result Spy * Tape :=
  Spy_plus_Tensor b a tape.

(** [Spy operator+(const double& a, const Spy& b)]:
    [return operator+(b, Tensor(a));] *)
Definition double_plus_Spy (a : double) (b : Spy) (tape : Tape)
  : Result Spy * Tape :=
  Spy_plus_Tensor b (Tensor_scalar a) tape.

(** [Spy operator/(const Spy& a, const Tensor& b)] *)
Definition Spy_divide_Tensor (a : Spy) (b : Tensor) (tape : Tape)
  : Result Spy * Tape :=
  let value := tensor_binary PrimFloat.div (tensor a) b in
  if is_literal 1%float b then                     (* Optimize *)
    let '(out, tape') := rec_unary IdentityScalar IdentityVector a tape in
    return_Spy value out tape'
  else
    record_spy_tensor (DivideScalarScalar FreeFixed)
      (DivideVectorVector FreeFixed) (DivideScalarVector FreeFixed)
      (DivideVectorScalar FreeFixed) false value a b tape.

(** [Spy operator/(const Spy& a, const double& b)] *)
Definition Spy_divide_double (a : Spy) (b : double) (tape : Tape)
  : Result Spy * Tape :=
  Spy_divide_Tensor a (Tensor_scalar b) tape.

(** [Tensor operator-(const Tensor& a)]: [Tensor y(a.dim); y.val = -a.val;] *)
Definition Tensor_negate (a : Tensor) : Tensor :=
  mkTensor (dim a) (map PrimFloat.opp (val a)).

(** [Spy operator-(const Spy& a)] *)
Definition Spy_negate (a : Spy) (tape : Tape) : Spy * Tape :=
  let '(out, tape') := rec_unary NegateScalar NegateVector a tape in
  (Spy_register (Tensor_negate (tensor a)) out, tape').

Section power_of_tensor.
Variable std_pow : double → double → double.

(** [Spy pow(const Tensor& a, const Spy& b)] *)
Definition Tensor_pow_Spy (a : Tensor) (b : Spy) (tape : Tape)
  : Result Spy * Tape :=
  let value := tensor_binary std_pow a (tensor b) in
  if is_literal 0%float a then                     (* Optimize *)
    let '(out, tape') :=
      rec_unary (TrivialScalar Body.RESULT_0) (TrivialVector Body.RESULT_0)
        b tape in
    return_Spy value out tape'
  else if is_literal 1%float a then                (* Optimize *)
    let '(out, tape') :=
      rec_unary (TrivialScalar Body.RESULT_1) (TrivialVector Body.RESULT_1)
        b tape in
    return_Spy value out tape'
  else
    record_spy_tensor (PowerScalarScalar FixedFree)
      (PowerVectorVector FixedFree) (PowerScalarVector FixedFree)
      (PowerVectorScalar FixedFree) true value b a tape.

(** [Spy pow(const double& a, const Spy& b)] *)
Definition double_pow_Spy (a : double) (b : Spy) (tape : Tape)
  : Result Spy * Tape :=
  Tensor_pow_Spy (Tensor_scalar a) b tape.

End power_of_tensor.

(** ** Reading a trace (trace.cpp) *)

(** [double Trace::read_scalar(const Spy& spy) const] *)
Definition read_scalar (tr : Trace) (spy : Spy) : double :=
  vget (values tr) (tape_begin spy).

(** [std::vector<double> Trace::read(const Spy& spy) const]: the values
    from [tape_begin()] to [tape_end()], in a vector of [spy.size()]
    elements. *)
Definition Trace_read (tr : Trace) (spy : Spy) : list double :=
  let res := replicate (Z.to_nat (tensor_size (tensor spy))) 0%float in
  let src := take (Z.to_nat (tape_end spy - tape_begin spy))
               (drop (Z.to_nat (tape_begin spy)) (values tr)) in
  src ++ drop (length src) res.

(** [Tensor Trace::read_tensor(const Spy& spy) const] *)
Definition read_tensor (tr : Trace) (spy : Spy) : Tensor :=
  mkTensor (dim (tensor spy)) (Trace_read tr spy).

(** ** Operator types with an embedded body

    The operator built from a recorded instance, for the types whose
    [evaluate] and [LocalDiff] are embedded in [Body]. *)
Definition operator_of (o : OpVariant) : option Operator :=
  match ov_type o, ov_in o, ov_constant o, ov_out o with
  | IdentityScalar, In_Array1 i, Const_None, Out_Scalar y =>
      Some (Body.IdentityScalar i y)
  | IdentityVector, In_Range i, Const_None, Out_Range y =>
      Some (Body.IdentityVector i y)
  | TrivialScalar R, In_Array1 i, Const_None, Out_Scalar y =>
      Some (Body.TrivialScalar R i y)
  | TrivialVector R, In_Range i, Const_None, Out_Range y =>
      Some (Body.TrivialVector R i y)
  | InvertScalar, In_Array1 i, Const_None, Out_Scalar y =>
      Some (Body.InvertScalar i y)
  | InvertVector, In_Range i, Const_None, Out_Range y =>
      Some (Body.InvertVector i y)
  | SquareScalar, In_Array1 i, Const_None, Out_Scalar y =>
      Some (Body.SquareScalar i y)
  | SquareVector, In_Range i, Const_None, Out_Range y =>
      Some (Body.SquareVector i y)
  | CubeScalar, In_Array1 i, Const_None, Out_Scalar y =>
      Some (Body.CubeScalar i y)
  | CubeVector, In_Range i, Const_None, Out_Range y =>
      Some (Body.CubeVector i y)
  | MultiplyScalarScalar FreeFree, In_ScalarScalar l r, Const_None,
    Out_Scalar y =>
      Some (Body.MultiplyScalarScalar_free_free l r y)
  | MultiplyScalarScalar (FreeFixed | FixedFree), In_Array1 i,
    Const_Array1 c, Out_Scalar y =>
      Some (Body.MultiplyScalarScalar_free_fixed i c y)
  | MultiplyVectorScalar FreeFixed, In_Range i, Const_Array1 c,
    Out_Range y =>
      Some (Body.MultiplyVectorScalar_free_fixed i c y)
  | MinusScalarScalar FreeFree, In_ScalarScalar l r, Const_None,
    Out_Scalar y =>
      Some (Body.MinusScalarScalar_free_free l r y)
  | DivideScalarScalar FreeFree, In_ScalarScalar l r, Const_None,
    Out_Scalar y =>
      Some (Body.DivideScalarScalar_free_free l r y)
  | GreaterThanZeroScalar, In_Array1 i, Const_None, Out_Scalar y =>
      Some (Body.GreaterThanZeroScalar i y)
  | GreaterThanZeroVector, In_Range i, Const_None, Out_Range y =>
      Some (Body.GreaterThanZeroVector i y)
  | GreaterThanOrEqualZeroScalar, In_Array1 i, Const_None, Out_Scalar y =>
      Some (Body.GreaterThanOrEqualZeroScalar i y)
  | GreaterThanOrEqualZeroVector, In_Range i, Const_None, Out_Range y =>
      Some (Body.GreaterThanOrEqualZeroVector i y)
  | LogGreaterThanZeroScalar, In_Array1 i, Const_None, Out_Scalar y =>
      Some (Body.LogGreaterThanZeroScalar i y)
  | LogGreaterThanZeroVector, In_Range i, Const_None, Out_Range y =>
      Some (Body.LogGreaterThanZeroVector i y)
  | LogGreaterThanOrEqualZeroScalar, In_Array1 i, Const_None,
    Out_Scalar y =>
      Some (Body.LogGreaterThanOrEqualZeroScalar i y)
  | LogGreaterThanOrEqualZeroVector, In_Range i, Const_None, Out_Range y =>
      Some (Body.LogGreaterThanOrEqualZeroVector i y)
  | _, _, _, _ => None
  end.

(** [Trace(Tape& tape)] *)
Definition Trace_make (tape : Tape) : Trace :=
  let n := Z.to_nat (trace_size tape) in
  mkTrace (take n (initial_values tape ++ replicate n 0%float))
          (replicate n 0%float)
          (SparseSymMat.make (input_size tape)).

(** [Trace::play], that is [Tape::play] on the operators of the tape:
    [assert(trace.values.size() == trace_size());] and the two sweeps. *)
Definition Trace_play (tape : Tape) (tr : Trace) : option Trace :=
  ops ← mapM operator_of (operations tape);
  if Z.of_nat (length (values tr)) =? trace_size tape
  then Sweep.play ops tr
  else None.

(** ** EigenSparseMat (eigen_sparse_matrix.cpp) *)

Module EigenSparseMat.
Import SparseSymMat.

(** [Eigen::Triplet<double, Eigen::Index>] *)
Record Triplet := mkTriplet { row : Z; col : Z; value : double }.

(** One iteration of [for (const auto& row : hessian_map.matrix)]: the
    triplets pushed for this row. *)
Definition row_triplets (fixed_indices : list Z) (r : Z * row_t)
  : list Triplet :=
  (* Fixed values, push diagonal entry and skip rest of the row *)
  let hits := filter (λ fixed_i, r.1 = fixed_i) fixed_indices in
  match hits with
  | _ :: _ => map (λ _, mkTriplet r.1 r.1 (-1)%float) hits
  | [] => map (λ entry, mkTriplet r.1 entry.1 entry.2) (in_order r.2)
  end.

Definition triplet_list (hessian_map : SparseSymMat.t)
    (fixed_indices : list Z) : list Triplet :=
  concat (map (row_triplets fixed_indices)
            (in_order (matrix hessian_map))).

(** The coefficients of an [Eigen::SparseMatrix], by (row, column). *)
Abbreviation coefficients := (gmap (Z * Z) float).

(** [setFromTriplets]: duplicated entries are summed up. *)
Definition setFromTriplets (l : list Triplet) : coefficients :=
  foldl (λ m t,
           match m !! (row t, col t) with
           | None => <[(row t, col t) := value t]> m
           | Some x => <[(row t, col t) := (x + value t)%float]> m
           end) ∅ l.

(** [EigenSparseMat(hessian_map, fixed_indices)] *)
Definition make (hessian_map : SparseSymMat.t) (fixed_indices : list Z)
  : coefficients :=
  setFromTriplets (triplet_list hessian_map fixed_indices).

(** [coeff(i, j)]: zero where nothing is stored. *)
Definition coeff (m : coefficients) (i j : Z) : double :=
  default 0%float (m !! (i, j)).

End EigenSparseMat.

(** ** Solver (solver.h, solver_newton.cpp) *)

Module Solver.

Record SolverConfig := mkConfig {
  max_iterations : Z;
  objective_tolerance : double;
  diagnostic_mode : bool;
  max_regularization_attempts : Z;
  regularization_damping_factor : double;
  brent_tolerance_factor : double;
  brent_boundary_left : double;
  brent_boundary_right : double;
  brent_feasible_search_restriction_factor : double;
}.

(** The default member initializers. *)
Definition default_config : SolverConfig :=
  mkConfig 1000 0x1.0624dd2f1a9fcp-10%float (* 1e-3 *) false 10 2%float 1%float (-1)%float 2%float
           0.75%float.

(** Conversion of a [size_t] to [double]. *)
Definition double_of_size (n : Z) : double := of_uint63 (Uint63.of_Z n).

(** [fmin] of <cmath>: the smaller argument, a NaN being ignored. *)
Definition fmin (x y : double) : double :=
  if is_nan x then y
  else if is_nan y then x
  else if PrimFloat.ltb x y then x else y.

Section maximize.
(** [std::pow] of <cmath>. *)
Variable std_pow : double → double → double.
(** The sparse solver collaborator: [LU_solver.factorize(m)] followed, when
    it reports success, by [LU_solver.solve(g)].  [None]: the factorization
    failed; [Some (x, ok)]: [solve] returned [x] and [ok] tells whether
    [info()] is [Success] after it. *)
Variable LU_solver :
  EigenSparseMat.coefficients → list double → option (list double * bool).

Variable config : SolverConfig.
(** [Eigen_gradient], mapped on [trace.adjoints]. *)
Variable gradient : list double.

(** The variables the search of a Newton direction works on. *)
Record direction_state := mkDir {
  n_regul : Z;                                (* No. of regularization attempts *)
  lambda : double;                            (* Regularization strength *)
  Eigen_hessian : EigenSparseMat.coefficients;
  Eigen_newton_direction : list double;
}.

(** [LU_solver.factorize(Eigen_hessian);
     if (LU_solver.info() != Eigen::Success) n_regul++;
     else {
       Eigen_newton_direction = -LU_solver.solve(Eigen_gradient);
       if (LU_solver.info() != Eigen::Success) n_regul++;
     }] *)
Definition attempt (st : direction_state) : direction_state :=
  match LU_solver (Eigen_hessian st) gradient with
  | None =>
      mkDir (n_regul st + 1) (lambda st) (Eigen_hessian st)
            (Eigen_newton_direction st)
  | Some (x, ok) =>
      mkDir (if ok then n_regul st else n_regul st + 1) (lambda st)
            (Eigen_hessian st) (map PrimFloat.opp x)
  end.

(** Weighted combination of (1-lambda) H + lambda I, from the buffered
    values of the Hessian. *)
Definition weighted (hessian_buffer : EigenSparseMat.coefficients)
    (lam : double) : EigenSparseMat.coefficients :=
  let I_weight := lam in
  let H_weight := (1 - I_weight)%float in
  map_imap (λ (rc : Z * Z) x,
              let y := (x * H_weight)%float in
              Some (if rc.1 =? rc.2 then (y + I_weight)%float else y))
           hessian_buffer.

(** [lambda = std::pow(n_regul * reg_step_size, regularization_damping_factor)]
    with [reg_step_size = 1. / max_regularization_attempts]. *)
Definition lambda_of (n : Z) : double :=
  let reg_step_size :=
    (1 / double_of_size (max_regularization_attempts config))%float in
  std_pow (double_of_size n * reg_step_size)%float
          (regularization_damping_factor config).

(** Body of [while (n_regul <= config.max_regularization_attempts)]. *)
Definition regularization_attempt
    (hessian_buffer : EigenSparseMat.coefficients) (st : direction_state)
  : direction_state :=
  let lam := lambda_of (n_regul st) in
  attempt (mkDir (n_regul st) lam (weighted hessian_buffer lam)
                 (Eigen_newton_direction st)).

(** The regularization loop; [None] when [fuel] iterations did not bring
    the loop to its exit. *)
Fixpoint regularization_loop (fuel : nat)
    (hessian_buffer : EigenSparseMat.coefficients) (st : direction_state)
  : option direction_state :=
  if n_regul st <=? max_regularization_attempts config then
    match fuel with
    | O => None
    | S fuel' =>
        regularization_loop fuel' hessian_buffer
          (regularization_attempt hessian_buffer st)
    end
  else Some st.

(** REGULARIZED NEWTON DIRECTION: the unregularized attempt, then the
    regularization when it failed. *)
Definition newton_direction (fuel : nat)
    (H : EigenSparseMat.coefficients) (direction_buffer : list double)
  : option direction_state :=
  let st := attempt (mkDir 0 0%float H direction_buffer) in
  if 0 <? n_regul st then regularization_loop fuel H st else Some st.

(** The effective tolerance of the line search. *)
Definition brent_tol (brent_left brent_right : double) : double :=
  let brent_width := (brent_right - brent_left)%float in
  fmin (objective_tolerance config * brent_tolerance_factor config)%float
       (brent_width * brent_width)%float.

(** End of an iteration, after the line search returned [brent_out]:
    [if (brent_out.objective < objective_new - brent_tol) throw ...;
     objective_old = objective_new; objective_new = brent_out.objective;]
    The result is the pair of [objective_old] and [objective_new]. *)
Definition commit_line_search (objective_new : double)
    (brent_left brent_right : double) (brent_out_objective : double)
  : Result (double * double) :=
  if PrimFloat.ltb brent_out_objective
       (objective_new - brent_tol brent_left brent_right)%float
  then Throw (logic_error "Failure of backtracking line search.")
  else Ok (objective_new, brent_out_objective).

End maximize.

End Solver.

(** * Properties *)

(** ** Facts about [std::map] *)

Section std_map_facts.
Context {V : Type}.

Lemma in_order_perm (m : gmap Z V) : in_order m ≡ₚ map_to_list m.
Proof. apply merge_sort_Permutation. Qed.

Lemma elem_of_in_order (m : gmap Z V) k v :
  (k, v) ∈ in_order m ↔ m !! k = Some v.
Proof. rewrite in_order_perm. apply elem_of_map_to_list. Qed.

Lemma elem_of_in_order_keys (m : gmap Z V) k :
  k ∈ (in_order m).*1 ↔ is_Some (m !! k).
Proof.
  rewrite list_elem_of_fmap. split.
  - intros [[k' v] [-> Hin]]. apply elem_of_in_order in Hin. eauto.
  - intros [v Hv]. exists (k, v). split; [done|]. by apply elem_of_in_order.
Qed.

Lemma NoDup_in_order_keys (m : gmap Z V) : NoDup (in_order m).*1.
Proof. rewrite in_order_perm. apply NoDup_fst_map_to_list. Qed.

Lemma lookup_map_insert_new k v (m : gmap Z V) k' :
  map_insert_new k v m !! k' =
    if decide (k = k') then Some (default v (m !! k)) else m !! k'.
Proof.
  unfold map_insert_new. destruct (m !! k) as [w|] eqn:E.
  - case_decide; subst; simpl; auto.
  - rewrite lookup_insert. case_decide; auto.
Qed.

Lemma size_zero_lookup (m : gmap Z V) k :
  (size m =? 0)%nat = true → m !! k = None.
Proof.
  intros H%Nat.eqb_eq. apply map_size_empty_iff in H. subst.
  apply lookup_empty.
Qed.

Lemma size_nonzero_nonempty (m : gmap Z V) :
  (size m =? 0)%nat = false → m ≠ ∅.
Proof.
  intros H%Nat.eqb_neq Hm. apply H. by apply map_size_empty_iff.
Qed.
End std_map_facts.

(** ** Facts about the sparse symmetric matrix *)

(** Case analysis on every [decide] of the goal. *)
Ltac dec_cases :=
  repeat case_decide; destruct_and?; destruct_or?; destruct_and?;
  simplify_eq; try done; try (exfalso; intuition congruence).

Section sparse_facts.
Import SparseSymMat SparseSymMatOps.

Lemma read_entry m i j : read m i j = default 0%float (entry m i j).
Proof.
  unfold read, entry. destruct (m !! i) as [r|]; simpl; [|done].
  by destruct (r !! j).
Qed.

Lemma entry_insert_entry m i j a b :
  entry (insert_entry i j m) a b =
    if decide (a = i ∧ b = j) then Some (default 0%float (entry m i j))
    else entry m a b.
Proof.
  unfold entry, insert_entry.
  rewrite lookup_alter, !lookup_map_insert_new.
  destruct (decide (i = a)) as [->|Hia]; simpl.
  - rewrite decide_True by done. simpl.
    rewrite lookup_map_insert_new.
    destruct (m !! a) as [r|]; simpl.
    + destruct (decide (j = b)) as [->|Hjb].
      * by rewrite decide_True.
      * rewrite decide_False by (intros [? ?]; congruence). done.
    + rewrite lookup_empty.
      destruct (decide (j = b)) as [->|Hjb].
      * by rewrite decide_True.
      * rewrite decide_False by (intros [? ?]; congruence). by rewrite lookup_empty.
  - rewrite decide_False by (intros [? ?]; congruence). done.
Qed.

Lemma entry_update_entry f m i j a b :
  entry (update_entry f i j m) a b =
    if decide (a = i ∧ b = j) then f <$> entry m i j else entry m a b.
Proof.
  unfold entry, update_entry. rewrite lookup_alter.
  destruct (decide (i = a)) as [->|Hia]; simpl.
  - destruct (m !! a) as [r|]; simpl.
    + rewrite lookup_alter.
      destruct (decide (j = b)) as [->|Hjb].
      * by rewrite decide_True.
      * rewrite decide_False by (intros [? ?]; congruence). done.
    + by case_decide.
  - rewrite decide_False by (intros [? ?]; congruence). done.
Qed.

Lemma entry_erase_entry m i j a b :
  entry (erase_entry i j m) a b =
    if decide (a = i ∧ b = j) then None else entry m a b.
Proof.
  unfold entry, erase_entry.
  destruct (m !! i) as [r|] eqn:Hr.
  - destruct (size (delete j r) =? 0)%nat eqn:Hsz.
    + rewrite lookup_delete.
      destruct (decide (i = a)) as [->|Hia]; simpl.
      * rewrite Hr. simpl.
        pose proof (size_zero_lookup (delete j r) b Hsz) as Hb.
        rewrite lookup_delete in Hb.
        destruct (decide (j = b)) as [->|Hjb].
        -- by rewrite decide_True.
        -- rewrite decide_False by (intros [? ?]; congruence). done.
      * rewrite decide_False by (intros [? ?]; congruence). done.
    + rewrite lookup_insert.
      destruct (decide (i = a)) as [->|Hia]; simpl.
      * rewrite Hr. simpl. rewrite lookup_delete.
        destruct (decide (j = b)) as [->|Hjb].
        -- by rewrite decide_True.
        -- rewrite decide_False by (intros [? ?]; congruence). done.
      * rewrite decide_False by (intros [? ?]; congruence). done.
  - case_decide as H; [|done]. destruct H as [-> ->]. by rewrite Hr.
Qed.

Lemma lookup_erase_entry_ne m i j a :
  a ≠ i → erase_entry i j m !! a = m !! a.
Proof.
  intros Hne. unfold erase_entry. destruct (m !! i) as [r|]; [|done].
  destruct (size (delete j r) =? 0)%nat.
  - by rewrite lookup_delete_ne.
  - by rewrite lookup_insert_ne.
Qed.

Lemma erase_step_erase_entry i m j :
  erase_step i (Some m) j =
    if j =? i then Some m
    else match m !! j with
         | None => None
         | Some _ => Some (erase_entry j i m)
         end.
Proof.
  unfold erase_step, erase_entry. destruct (j =? i); [done|].
  destruct (m !! j) as [r|]; [|done].
  by destruct (size (delete i r) =? 0)%nat.
Qed.

(** The loop of [erase] over the keys [ks] of row [i]. *)
Lemma erase_loop i ks : ∀ mc,
  NoDup ks →
  (∀ j, j ∈ ks → j ≠ i → is_Some (mc !! j)) →
  ∃ m', foldl (erase_step i) (Some mc) ks = Some m' ∧
        (∀ a b, entry m' a b =
                  if decide (a ∈ ks ∧ a ≠ i ∧ b = i) then None
                  else entry mc a b) ∧
        (∀ a, a ∉ ks → m' !! a = mc !! a).
Proof.
  induction ks as [|j ks IH]; intros mc Hnd Hrows.
  - exists mc. split; [done|]. split; [|done].
    intros a b. rewrite decide_False; [done|]. intros [H _]. by inversion H.
  - apply NoDup_cons in Hnd as [Hj Hnd].
    cbn [foldl]. rewrite erase_step_erase_entry.
    destruct (j =? i) eqn:Hji.
    + apply Z.eqb_eq in Hji. subst j.
      destruct (IH mc Hnd) as (m' & Hf & He & Hr).
      { intros j ? ?. apply Hrows; [by right|done]. }
      exists m'. split; [done|]. split.
      * intros a b. rewrite He.
        destruct (decide (a ∈ ks ∧ a ≠ i ∧ b = i)) as [(?&?&?)|Hn].
        -- rewrite decide_True; [done|]. split; [by right|done].
        -- rewrite decide_False; [done|].
           intros (Hin & ? & ?). apply Hn. split; [|done].
           apply elem_of_cons in Hin as [->|]; done.
      * intros a Ha. apply Hr. intros ?. apply Ha. by right.
    + apply Z.eqb_neq in Hji.
      destruct (Hrows j) as [r Hr]; [by left|done|]. rewrite Hr.
      destruct (IH (erase_entry j i mc) Hnd) as (m' & Hf & He & Hrw).
      { intros j' Hin ?. rewrite lookup_erase_entry_ne.
        - apply Hrows; [by right|done].
        - intros ->. done. }
      exists m'. split; [done|]. split.
      * intros a b. rewrite He, entry_erase_entry.
        destruct (decide (a ∈ ks ∧ a ≠ i ∧ b = i)) as [(?&?&?)|Hn].
        -- rewrite decide_True; [done|]. split; [by right|done].
        -- destruct (decide (a = j ∧ b = i)) as [[-> ->]|Hn2].
           ++ rewrite decide_True; [done|]. split; [by left|done].
           ++ rewrite decide_False; [done|].
              intros (Hin & ? & ?). apply elem_of_cons in Hin as [->|?].
              ** by apply Hn2.
              ** by apply Hn.
      * intros a Ha. rewrite Hrw.
        -- apply lookup_erase_entry_ne. intros ->. apply Ha. by left.
        -- intros ?. apply Ha. by right.
Qed.

Lemma entry_Some_row m i j v : entry m i j = Some v → is_Some (m !! i).
Proof. unfold entry. destruct (m !! i); [eauto|done]. Qed.

Lemma entry_delete m i a b :
  entry (delete i m) a b = if decide (a = i) then None else entry m a b.
Proof.
  unfold entry. rewrite lookup_delete.
  destruct (decide (i = a)) as [->|?]; simpl.
  - by rewrite decide_True.
  - rewrite decide_False by congruence. done.
Qed.

(** On a symmetric matrix [erase(i)] meets none of its assertions and
    removes exactly the entries of row [i] and of column [i]. *)
Lemma erase_symmetric_spec i m :
  symmetric m →
  ∃ m', erase i m = Some m' ∧
        ∀ a b, entry m' a b =
                 if decide (a = i ∨ b = i) then None else entry m a b.
Proof.
  intros Hsym. unfold erase. destruct (m !! i) as [row_i|] eqn:Hrow.
  - destruct (erase_loop i (in_order row_i).*1 m) as (m' & Hf & He & _).
    { apply NoDup_in_order_keys. }
    { intros j Hin _. apply elem_of_in_order_keys in Hin as [v Hv].
      apply (entry_Some_row m j i v). apply Hsym.
      unfold entry. rewrite Hrow. done. }
    rewrite Hf. eexists. split; [done|].
    intros a b. rewrite entry_delete, He.
    destruct (decide (a = i)) as [->|Hai].
    { by rewrite decide_True by auto. }
    destruct (decide (b = i)) as [->|Hbi].
    + rewrite (decide_True (P := a = i ∨ i = i)) by auto.
      destruct (decide (a ∈ (in_order row_i).*1 ∧ a ≠ i ∧ i = i)) as [|Hn];
        [done|].
      destruct (entry m a i) as [v|] eqn:Hv; [|done].
      exfalso. apply Hn. split; [|done].
      apply elem_of_in_order_keys. apply Hsym in Hv.
      unfold entry in Hv. rewrite Hrow in Hv. simpl in Hv. eauto.
    + rewrite decide_False by (intros (?&?&?); done).
      rewrite decide_False by (intros [?|?]; done). done.
  - eexists. split; [done|]. intros a b.
    case_decide as H; [|done]. destruct H as [->| ->].
    + unfold entry. by rewrite Hrow.
    + destruct (entry m a i) as [v|] eqn:Hv; [|done].
      apply Hsym in Hv. unfold entry in Hv. by rewrite Hrow in Hv.
Qed.

Lemma erase_preserves_symmetric i m :
  symmetric m → ∃ m', erase i m = Some m' ∧ symmetric m'.
Proof.
  intros Hsym. destruct (erase_symmetric_spec i m Hsym) as (m' & He & Hspec).
  exists m'. split; [done|]. intros a b v. rewrite !Hspec.
  destruct (decide (a = i ∨ b = i)) as [|Hn]; [done|].
  rewrite decide_False by (intros [?|?]; apply Hn; auto).
  apply Hsym.
Qed.

Lemma entry_prepare_write e m a b :
  entry (prepare_write e m).1 a b =
    if decide ((a = er_i e ∧ b = er_j e) ∨ (a = er_j e ∧ b = er_i e))
    then Some (default 0%float (entry m a b))
    else entry m a b.
Proof.
  unfold prepare_write. simpl. destruct (er_j e =? er_i e) eqn:Hji;
    [apply Z.eqb_eq in Hji|apply Z.eqb_neq in Hji];
    rewrite !entry_insert_entry; dec_cases.
Qed.

Lemma prepare_write_symmetric e m :
  symmetric m → symmetric (prepare_write e m).1.
Proof.
  intros Hsym a b v. rewrite !entry_prepare_write.
  destruct (decide ((a = er_i e ∧ b = er_j e) ∨ (a = er_j e ∧ b = er_i e)))
    as [Hd|Hn].
  - rewrite decide_True by (destruct Hd as [[??]|[??]]; auto).
    destruct (entry m a b) as [w|] eqn:Hab.
    + apply Hsym in Hab. by rewrite Hab.
    + destruct (entry m b a) as [w|] eqn:Hba; [|done].
      apply Hsym in Hba. congruence.
  - rewrite decide_False by (intros [[??]|[??]]; apply Hn; auto).
    apply Hsym.
Qed.

Lemma prepare_write_ref e m :
  (prepare_write e m).2 = mk_ref (er_i e) (er_j e) true.
Proof. done. Qed.

(** Writing [f] applied to the old value at [(i,j)] and, off the diagonal,
    at [(j,i)]. *)
Definition update_pair (f : double → double) (i j : Z) (m : matrix_t)
  : matrix_t :=
  let m2 := update_entry f i j m in
  if j =? i then m2 else update_entry f j i m2.

Lemma entry_update_pair f i j m a b :
  entry (update_pair f i j m) a b =
    if decide ((a = i ∧ b = j) ∨ (a = j ∧ b = i)) then f <$> entry m a b
    else entry m a b.
Proof.
  unfold update_pair. destruct (j =? i) eqn:Hji;
    [apply Z.eqb_eq in Hji|apply Z.eqb_neq in Hji];
    rewrite !entry_update_entry; dec_cases.
Qed.

Lemma update_pair_symmetric f i j m :
  symmetric m → symmetric (update_pair f i j m).
Proof.
  intros Hsym a b v. rewrite !entry_update_pair.
  destruct (decide ((a = i ∧ b = j) ∨ (a = j ∧ b = i))) as [Hd|Hn].
  - rewrite decide_True by (destruct Hd as [[??]|[??]]; auto).
    destruct (entry m a b) as [w|] eqn:Hab; [|done].
    apply Hsym in Hab. by rewrite Hab.
  - rewrite decide_False by (intros [[??]|[??]]; apply Hn; auto).
    apply Hsym.
Qed.

Lemma add_assign_unfold x e m :
  add_assign x e m =
    if is_zero x then (m, e)
    else
      let st := if is_valid_ij e then (m, e) else prepare_write e m in
      (update_pair (λ y, y + x)%float (er_i e) (er_j e) st.1,
       mk_ref (er_i e) (er_j e) true).
Proof.
  unfold add_assign, update_pair. destruct (is_zero x); [done|].
  destruct e as [i j [|]]; simpl; by destruct (j =? i).
Qed.

Lemma assign_unfold x e m :
  assign x e m =
    if is_zero x then set_zero e m
    else
      let st := if is_valid_ij e then (m, e) else prepare_write e m in
      (update_pair (λ _, x) (er_i e) (er_j e) st.1,
       mk_ref (er_i e) (er_j e) true).
Proof.
  unfold assign, update_pair. destruct (is_zero x); [done|].
  destruct e as [i j [|]]; simpl; by destruct (j =? i).
Qed.

Lemma entry_set_zero_valid e m a b :
  is_valid_ij e = true →
  entry (set_zero e m).1 a b =
    if decide ((a = er_i e ∧ b = er_j e) ∨ (a = er_j e ∧ b = er_i e))
    then None else entry m a b.
Proof.
  intros Hv. unfold set_zero. rewrite Hv. simpl.
  destruct (er_j e =? er_i e) eqn:Hji;
    [apply Z.eqb_eq in Hji|apply Z.eqb_neq in Hji]; simpl;
    rewrite !entry_erase_entry; dec_cases.
Qed.

Lemma set_zero_symmetric e m : symmetric m → symmetric (set_zero e m).1.
Proof.
  intros Hsym. destruct (is_valid_ij e) eqn:Hv.
  - intros a b v. rewrite !entry_set_zero_valid by done.
    destruct (decide ((a = er_i e ∧ b = er_j e) ∨ (a = er_j e ∧ b = er_i e)))
      as [Hd|Hn]; [done|].
    rewrite decide_False by (intros [[??]|[??]]; apply Hn; auto).
    apply Hsym.
  - unfold set_zero. by rewrite Hv.
Qed.

Lemma add_assign_symmetric x e m :
  symmetric m → symmetric (add_assign x e m).1.
Proof.
  intros Hsym. rewrite add_assign_unfold. destruct (is_zero x); [done|].
  simpl. apply update_pair_symmetric.
  destruct (is_valid_ij e); [done|]. by apply prepare_write_symmetric.
Qed.

Lemma assign_symmetric x e m :
  symmetric m → symmetric (assign x e m).1.
Proof.
  intros Hsym. rewrite assign_unfold. destruct (is_zero x).
  - by apply set_zero_symmetric.
  - simpl. apply update_pair_symmetric.
    destruct (is_valid_ij e); [done|]. by apply prepare_write_symmetric.
Qed.

Lemma get_add_symmetric i j x m : symmetric m → symmetric (get_add i j x m).
Proof. apply add_assign_symmetric. Qed.

Lemma writes_symmetric ws : ∀ st,
  symmetric st.1 → symmetric (foldl apply_write st ws).1.
Proof.
  induction ws as [|w ws IH]; intros st Hsym; [done|].
  cbn [foldl]. apply IH. destruct w; simpl.
  - by apply add_assign_symmetric.
  - by apply assign_symmetric.
Qed.

Lemma run_symmetric ops : ∀ m,
  symmetric m → ∃ m', run ops m = Some m' ∧ symmetric m'.
Proof.
  unfold run. induction ops as [|o ops IH]; intros m Hsym.
  - by exists m.
  - cbn [foldl]. destruct o as [i j ws|i]; simpl.
    + apply IH. by apply (writes_symmetric ws (m, get i j)).
    + destruct (erase_preserves_symmetric i m Hsym) as (m1 & -> & Hs1).
      by apply IH.
Qed.

Lemma empty_symmetric : symmetric ∅.
Proof. intros i j v. unfold entry. by rewrite lookup_empty. Qed.

End sparse_facts.

(** ** The reverse sweep keeps the Hessian symmetric *)

Section sweep_symmetric.
Import SparseSymMat SparseSymMatOps Sweep.

Lemma foldl_invariant {A B} (P : A → Prop) (f : A → B → A) (l : list B) :
  (∀ a b, P a → P (f a b)) → ∀ a, P a → P (foldl f a l).
Proof.
  intros Hf. induction l as [|b l IH]; intros a Ha; [done|].
  cbn [foldl]. apply IH. by apply Hf.
Qed.

Lemma for_range_invariant {S} (P : S → Prop) n (body : S → Z → S) s :
  (∀ s k, P s → P (body s k)) → P s → P (for_range n body s).
Proof. intros Hb Hs. unfold for_range. by apply foldl_invariant. Qed.

Lemma for_from_invariant {S} (P : S → Prop) a n (body : S → Z → S) s :
  (∀ s k, P s → P (body s k)) → P s → P (for_from a n body s).
Proof. intros Hb Hs. unfold for_from. by apply foldl_invariant. Qed.

Lemma push_symmetric (d : double) j k x h :
  symmetric h → symmetric (push d j k x h).
Proof.
  intros Hs. unfold push. destruct (nonzero d); [|done].
  by apply get_add_symmetric.
Qed.

Ltac sym_step :=
  first
    [ assumption
    | apply get_add_symmetric
    | apply push_symmetric
    | apply for_range_invariant; [intros ? ? ?|]
    | apply for_from_invariant; [intros ? ? ?|]
    | match goal with |- symmetric (if ?b then _ else _) => destruct b end
    | match goal with |- symmetric (match ?s with _ => _ end) =>
        destruct s end ].

Lemma pushing_part_1_symmetric op v i_local i h it_j :
  symmetric h → symmetric (pushing_part_1 op v i_local i h it_j).
Proof.
  intros Hs. unfold pushing_part_1. destruct it_j as [j hij].
  repeat sym_step.
Qed.

Lemma pushing_part_2_symmetric op v i_local r_i h :
  symmetric h → symmetric (pushing_part_2 op v i_local r_i h).
Proof.
  intros Hs. unfold pushing_part_2. cbv zeta. repeat sym_step.
Qed.

Lemma creating_part_symmetric op v i_local w h :
  symmetric h → symmetric (creating_part op v i_local w h).
Proof.
  intros Hs. unfold creating_part, creating_part_binary, creating_part_unary.
  cbv zeta. repeat sym_step.
Qed.

Lemma length_vset v i x : length (vset v i x) = length v.
Proof. unfold vset. destruct (i <? 0); [done|]. apply length_insert. Qed.

Lemma length_vadd v i x : length (vadd v i x) = length v.
Proof. apply length_vset. Qed.

Lemma adjoint_update_length op v i_local w a :
  length (adjoint_update op v i_local w a) = length a.
Proof.
  unfold adjoint_update, adjoint_add.
  repeat first
    [ rewrite length_vadd
    | reflexivity
    | match goal with
      | |- length (for_range _ _ _) = _ =>
          apply (for_range_invariant (λ a', length a' = length a));
          [intros ? ? ?|]
      | |- length (if ?b then _ else _) = _ => destruct b
      | |- length (match ?s with _ => _ end) = _ => destruct s
      end
    | assumption ].
Qed.

(** The Hessian of a trace is symmetric. *)
Definition trace_symmetric (tr : Trace) : Prop :=
  symmetric (matrix (hessian tr)).

(** What one step of the reverse sweep keeps: the Hessian stays symmetric,
    the values, the size of the adjoints and the width are left alone. *)
Definition sweep_kept (tr tr' : Trace) : Prop :=
  trace_symmetric tr' ∧
  values tr' = values tr ∧
  length (adjoints tr') = length (adjoints tr) ∧
  width_ (hessian tr') = width_ (hessian tr).

Lemma sweep_kept_trans tr tr1 tr2 :
  sweep_kept tr tr1 → sweep_kept tr1 tr2 → sweep_kept tr tr2.
Proof.
  intros (_ & Hv1 & Ha1 & Hw1) (Hs2 & Hv2 & Ha2 & Hw2).
  repeat split; [done|congruence..].
Qed.

(** A left fold on an [option] that stays [None] threads an invariant
    along the steps that return. *)
Lemma foldl_Some_invariant {A B} (P : A → Prop)
    (f : option A → B → option A) (l : list B) :
  (∀ b, f None b = None) →
  (∀ a b a', P a → f (Some a) b = Some a' → P a') →
  ∀ a a', P a → foldl f (Some a) l = Some a' → P a'.
Proof.
  intros Hnone Hstep. induction l as [|b l IH]; intros a a' Ha Hf.
  - by injection Hf as <-.
  - cbn [foldl] in Hf. destruct (f (Some a) b) as [a1|] eqn:E.
    + apply (IH a1); [by eapply Hstep|done].
    + exfalso. clear -Hf Hnone. induction l as [|c l IH]; [done|].
      cbn [foldl] in Hf. rewrite Hnone in Hf. by apply IH.
Qed.

Lemma foldl_None {A B} (f : option A → B → option A) (l : list B) :
  (∀ b, f None b = None) → foldl f None l = None.
Proof.
  intros Hnone. induction l as [|c l IH]; [done|].
  cbn [foldl]. by rewrite Hnone.
Qed.

Lemma OpVariantReverse_None op : OpVariantReverse None op = None.
Proof. unfold OpVariantReverse. by apply foldl_None. Qed.

(** One output of one operator, when no assertion fails: the values are
    left alone and the Hessian stays symmetric. *)
Lemma reverse_output_symmetric op tr i_local tr' :
  trace_symmetric tr →
  reverse_output op (Some tr) i_local = Some tr' →
  sweep_kept tr tr'.
Proof.
  intros Hs. unfold reverse_output. cbv zeta.
  set (i := out_at (op_out op) i_local).
  set (h := matrix (hessian tr)).
  assert (length (if nonzero (vget (adjoints tr) i)
                  then adjoint_update op (values tr) i_local
                         (vget (adjoints tr) i) (adjoints tr)
                  else adjoints tr) = length (adjoints tr)) as Hlen.
  { destruct (nonzero _); [|done]. apply adjoint_update_length. }
  destruct (get_row_ptr h i) as [row|] eqn:Hrow.
  - set (h1 := foldl (pushing_part_1 op (values tr) i_local i) h
                 (in_order row)).
    assert (symmetric h1) as Hs1.
    { apply foldl_invariant; [|done].
      intros. by apply pushing_part_1_symmetric. }
    destruct (match row !! i with
              | Some r_i =>
                  if is_zero r_i then None
                  else Some (pushing_part_2 op (values tr) i_local r_i h1)
              | None => Some h1
              end) as [h2|] eqn:Hh2; [|done].
    assert (symmetric h2) as Hs2.
    { destruct (row !! i) as [r_i|]; [|by injection Hh2 as <-].
      destruct (is_zero r_i); [done|]. injection Hh2 as <-.
      by apply pushing_part_2_symmetric. }
    set (h3 := if nonzero (vget (adjoints tr) i)
               then creating_part op (values tr) i_local
                      (vget (adjoints tr) i) h2
               else h2).
    assert (symmetric h3) as Hs3.
    { unfold h3. destruct (nonzero _); [|done].
      by apply creating_part_symmetric. }
    destruct (erase_preserves_symmetric i h3 Hs3) as (h4 & -> & Hs4).
    intros [= <-]. by repeat split.
  - set (h3 := if nonzero (vget (adjoints tr) i)
               then creating_part op (values tr) i_local
                      (vget (adjoints tr) i) h
               else h).
    assert (symmetric h3) as Hs3.
    { unfold h3. destruct (nonzero _); [|done].
      by apply creating_part_symmetric. }
    intros [= <-]. by repeat split.
Qed.

Lemma OpVariantReverse_symmetric op tr tr' :
  trace_symmetric tr →
  OpVariantReverse (Some tr) op = Some tr' →
  sweep_kept tr tr'.
Proof.
  intros Hs. unfold OpVariantReverse.
  apply (foldl_Some_invariant (sweep_kept tr)); [done| |by repeat split].
  intros tr1 k tr2 H1 H2. apply (sweep_kept_trans tr tr1); [done|].
  apply (reverse_output_symmetric op tr1 k); [apply H1|done].
Qed.

Lemma sweep_symmetric ops tr tr' :
  trace_symmetric tr →
  foldl OpVariantReverse (Some tr) ops = Some tr' →
  sweep_kept tr tr'.
Proof.
  intros Hs.
  apply (foldl_Some_invariant (sweep_kept tr));
    [apply OpVariantReverse_None| |by repeat split].
  intros tr1 op tr2 H1 H2. apply (sweep_kept_trans tr tr1); [done|].
  apply (OpVariantReverse_symmetric op tr1); [apply H1|done].
Qed.

(** [play_reverse], when it runs to its end, leaves a symmetric Hessian
    and does not touch the values. *)
Lemma play_reverse_symmetric ops tr tr' :
  play_reverse ops tr = Some tr' → sweep_kept tr tr'.
Proof.
  unfold play_reverse. destruct (adjoints tr) as [|x a] eqn:Ea; [done|].
  cbv zeta. intros Hp.
  apply sweep_symmetric in Hp; [|apply empty_symmetric].
  destruct Hp as (Hs & Hv & Ha & Hw).
  split; [done|]. split; [done|]. split; [|done].
  rewrite Ha. cbn [adjoints]. unfold set_back.
  destruct (replicate (length (x :: a)) 0%float) eqn:E; [done|].
  rewrite length_insert, <- E. by rewrite length_replicate, Ea.
Qed.

(** C2 — Hessian symmetry.  After every sequence of operations on a sparse
    symmetric matrix (writes with [+=] or [=] through a reference obtained
    from [get(i,j)], and [erase(i)]), started from the empty matrix and
    stopped at any point, every stored off-diagonal entry [(i,j)] has a stored
    mirror [(j,i)] holding the same value, and [(j,i)] is stored exactly when
    [(i,j)] is; no assertion of [erase] fails on the way.  The same holds for
    the Hessian of a trace after any [play_reverse], whatever the tape and
    the trace: whenever [play_reverse] runs to its end, without failing the
    assertion of its pushing part or one of [erase], the Hessian it leaves
    has these properties. *)
Theorem sparse_matrix_mirror_invariant :
  (∀ (ops : list op_t) (n : nat),
     ∃ m, run (take n ops) ∅ = Some m ∧
          (∀ i j v, i ≠ j → entry m i j = Some v → entry m j i = Some v) ∧
          (∀ i j, is_Some (entry m i j) ↔ is_Some (entry m j i))) ∧
  (∀ (operations : list Operator) (tr tr' : Trace),
     play_reverse operations tr = Some tr' →
     (∀ i j v, i ≠ j →
        entry (matrix (hessian tr')) i j = Some v →
        entry (matrix (hessian tr')) j i = Some v) ∧
     (∀ i j, is_Some (entry (matrix (hessian tr')) i j) ↔
             is_Some (entry (matrix (hessian tr')) j i))).
Proof.
  assert (∀ m, symmetric m →
            (∀ i j v, i ≠ j → entry m i j = Some v → entry m j i = Some v) ∧
            (∀ i j, is_Some (entry m i j) ↔ is_Some (entry m j i))) as Hsym.
  { intros m Hs. split.
    - intros i j v _. apply Hs.
    - intros i j. split; intros [v Hv]; exists v; by apply Hs. }
  split.
  - intros ops n.
    destruct (run_symmetric (take n ops) ∅ empty_symmetric) as (m & Hr & Hs).
    exists m. split; [done|]. by apply Hsym.
  - intros operations tr tr' Hp.
    apply play_reverse_symmetric in Hp as (Hs & _). by apply Hsym.
Qed.

(** The product of two inputs at 2 and 3: [play_reverse] runs to its end and
    leaves the entry 1 at (0,1) and at (1,0). *)
Lemma sparse_matrix_mirror_invariant_witness :
  let ops := [ Body.MultiplyScalarScalar_free_free 0 1 2 ] in
  let tr := mkTrace [2%float; 3%float; 6%float]
                    [0%float; 0%float; 0%float] (SparseSymMat.make 2) in
  ∃ tr', play_reverse ops tr = Some tr' ∧
         entry (matrix (hessian tr')) 0 1 = Some 1%float ∧
         entry (matrix (hessian tr')) 1 0 = Some 1%float.
Proof.
  cbv zeta. eexists. split; [by vm_compute|].
  match goal with |- entry (matrix (hessian ?t)) _ _ = _ ∧ _ =>
    assert (entry (matrix (hessian t)) 0 1 = Some 1%float) as H01
      by (by vm_compute) end.
  split; [exact H01|].
  eapply (proj2 sparse_matrix_mirror_invariant
            [ Body.MultiplyScalarScalar_free_free 0 1 2 ]
            (mkTrace [2%float; 3%float; 6%float]
                     [0%float; 0%float; 0%float] (SparseSymMat.make 2)));
    [by vm_compute|done|exact H01].
Defined.

End sweep_symmetric.

(** ** Reading and writing single entries *)

Section sparse_entries.
Import SparseSymMat SparseSymMatOps.

(** [read(i,j)] is 0.0 when no entry is stored at [(i,j)]. *)
Lemma read_absent m i j : entry m i j = None → read m i j = 0%float.
Proof. intros H. by rewrite read_entry, H. Qed.

(** A nonzero value assigned through [get(i,j)] is stored at [(i,j)] and at
    [(j,i)], and nowhere else. *)
Lemma get_assign_nonzero m i j x a b :
  is_zero x = false →
  entry (get_assign i j x m) a b =
    if decide ((a = i ∧ b = j) ∨ (a = j ∧ b = i)) then Some x
    else entry m a b.
Proof.
  intros Hx. unfold get_assign. rewrite assign_unfold, Hx.
  cbn [get is_valid_ij er_i er_j fst snd].
  rewrite entry_update_pair, entry_prepare_write. simpl. dec_cases.
Qed.

(** A nonzero value accumulated through [get(i,j)] is added to the entries
    [(i,j)] and [(j,i)], which count as 0.0 when they were not stored. *)
Lemma get_add_nonzero m i j x a b :
  is_zero x = false →
  entry (get_add i j x m) a b =
    if decide ((a = i ∧ b = j) ∨ (a = j ∧ b = i))
    then Some (default 0%float (entry m a b) + x)%float
    else entry m a b.
Proof.
  intros Hx. unfold get_add. rewrite add_assign_unfold, Hx.
  cbn [get is_valid_ij er_i er_j fst snd].
  rewrite entry_update_pair, entry_prepare_write. simpl. dec_cases.
Qed.

(** Accumulating zero changes nothing. *)
Lemma get_add_zero m i j x : is_zero x = true → get_add i j x m = m.
Proof.
  intros Hx. unfold get_add. by rewrite add_assign_unfold, Hx.
Qed.

Lemma erase_entry_no_empty_row i j m :
  no_empty_row m → no_empty_row (erase_entry i j m).
Proof.
  intros Hne a. unfold erase_entry. destruct (m !! i) as [r|] eqn:Hr; [|done].
  destruct (size (delete j r) =? 0)%nat eqn:Hsz.
  - rewrite lookup_delete. case_decide; [done|]. apply Hne.
  - rewrite lookup_insert. case_decide; [|apply Hne].
    intros [= He]. by apply size_nonzero_nonempty in Hsz.
Qed.

(** Writing zero through a reference that has been written through removes
    the entries [(i,j)] and [(j,i)] and leaves no empty row behind. *)
Lemma assign_zero_after_write m i j x :
  is_zero x = false → no_empty_row m →
  let st := assign x (get i j) m in
  let m' := (assign 0%float st.2 st.1).1 in
  (∀ a b, entry m' a b =
          if decide ((a = i ∧ b = j) ∨ (a = j ∧ b = i)) then None
          else entry m a b) ∧
  m' !! i ≠ Some ∅ ∧ m' !! j ≠ Some ∅.
Proof.
  intros Hx Hne. cbv zeta. rewrite (assign_unfold x), Hx.
  cbn [get is_valid_ij er_i er_j fst snd].
  set (m1 := update_pair (λ _, x) i j (prepare_write (mk_ref i j false) m).1).
  rewrite assign_unfold.
  assert (is_zero 0%float = true) as -> by reflexivity.
  assert (∀ a b, entry m1 a b =
            if decide ((a = i ∧ b = j) ∨ (a = j ∧ b = i)) then Some x
            else entry m a b) as Hm1.
  { intros a b. unfold m1.
    rewrite entry_update_pair, entry_prepare_write.
    cbn [er_i er_j]. dec_cases. }
  split.
  - intros a b. rewrite entry_set_zero_valid by done.
    cbn [er_i er_j]. rewrite Hm1. dec_cases.
  - assert (no_empty_row m1) as Hne1.
    { intros a Ha.
      destruct (decide (a = i ∨ a = j)) as [Hij|Hn].
      - assert (is_Some (entry m1 a (if decide (a = i) then j else i)))
          as [y Hy].
        { rewrite Hm1. dec_cases; eauto. }
        unfold entry in Hy. rewrite Ha in Hy. simpl in Hy.
        by rewrite lookup_empty in Hy.
      - apply (Hne a). rewrite <- Ha. symmetry.
        unfold m1, update_pair, update_entry, prepare_write, insert_entry.
        cbn [er_i er_j fst].
        destruct (j =? i);
          repeat (rewrite ?lookup_alter, ?lookup_map_insert_new;
                  repeat case_decide; subst; try done);
          exfalso; apply Hn; auto. }
    unfold set_zero. cbn [is_valid_ij negb er_i er_j].
    destruct (j =? i); cbn [fst].
    + split; by apply erase_entry_no_empty_row.
    + split; by do 2 apply erase_entry_no_empty_row.
Qed.

(** C9 — reading and writing the sparse symmetric matrix.  Assigning zero
    through the reference that [get(i,j)] returns leaves every matrix as it
    was ([set_zero] returns at once, the reference holding no valid iterator
    yet): on the matrix with 5.0 stored at [(0,1)] and [(1,0)], after
    [get(0,1) = 0.0] both entries are still stored and [read(0,1)] is still
    5.0. *)
Theorem assign_zero_through_get_keeps_entry :
  (∀ m i j, get_assign i j 0%float m = m) ∧
  let m := get_assign 0 1 5%float ∅ in
  let m' := get_assign 0 1 0%float m in
  entry m 0 1 = Some 5%float ∧ entry m 1 0 = Some 5%float ∧
  entry m' 0 1 = Some 5%float ∧ entry m' 1 0 = Some 5%float ∧
  read m' 0 1 = 5%float.
Proof.
  split; [done|]. cbv zeta. by vm_compute.
Qed.

End sparse_entries.

(** ** Vectors and element-wise evaluation *)

Section vectors.

Lemma vget_vset_eq v i x :
  0 ≤ i < Z.of_nat (length v) → vget (vset v i x) i = x.
Proof.
  intros [H0 Hlt]. unfold vget, vset.
  destruct (i <? 0) eqn:E; [lia|].
  rewrite list_lookup_insert_eq; [done|lia].
Qed.

Lemma vget_vset_ne v i j x :
  0 ≤ i → i ≠ j → vget (vset v i x) j = vget v j.
Proof.
  intros H0 Hne. unfold vget, vset.
  destruct (i <? 0) eqn:E; [lia|]. destruct (j <? 0) eqn:E'; [done|].
  rewrite list_lookup_insert_ne; [done|lia].
Qed.

(** The loop of an element-wise [evaluate], its output range lying inside the
    vector and away from its input range. *)
Lemma map_range_spec f i o v :
  0 ≤ range_size i → 0 ≤ range_begin o →
  range_begin o + range_size i ≤ Z.of_nat (length v) →
  (range_begin i + range_size i ≤ range_begin o ∨
   range_begin o + range_size i ≤ range_begin i) →
  let v' := Body.map_range f i o v in
  length v' = length v ∧
  (∀ k, 0 ≤ k < range_size i →
        vget v' (range_at o k) = f (vget v (range_at i k))) ∧
  (∀ s, ¬ (range_begin o ≤ s < range_begin o + range_size i) →
        vget v' s = vget v s).
Proof.
  intros Hn Ho Hlen Hdis. cbv zeta. unfold Body.map_range, for_range.
  set (body := λ (w : list double) (k : Z),
         vset w (range_at o k) (f (vget w (range_at i k)))).
  assert (∀ m : nat, Z.of_nat m ≤ range_size i →
            let w := foldl body v (seqZ 0 (Z.of_nat m)) in
            length w = length v ∧
            (∀ k, 0 ≤ k < Z.of_nat m →
                  vget w (range_at o k) = f (vget v (range_at i k))) ∧
            (∀ s, ¬ (range_begin o ≤ s < range_begin o + Z.of_nat m) →
                  vget w s = vget v s)) as Hinv.
  { induction m as [|m IH]; intros Hm; cbv zeta.
    - simpl. split; [done|]. split; [intros; lia|done].
    - rewrite seqZ_S, foldl_app.
      destruct IH as (IHl & IHk & IHs); [lia|].
      set (w := foldl body v (seqZ 0 (Z.of_nat m))) in *.
      cbn [foldl]. rewrite Z.add_0_l.
      assert (body w (Z.of_nat m) =
              vset w (range_begin o + Z.of_nat m)
                (f (vget w (range_begin i + Z.of_nat m)))) as -> by done.
      unfold range_at in *. split; [|split].
      + by rewrite length_vset.
      + intros k Hk. destruct (decide (k = Z.of_nat m)) as [->|Hne].
        * rewrite vget_vset_eq by lia. f_equal. apply IHs. lia.
        * rewrite vget_vset_ne by lia. apply IHk. lia.
      + intros s Hs. rewrite vget_vset_ne by lia. apply IHs. lia. }
  specialize (Hinv (Z.to_nat (range_size i))).
  rewrite Z2Nat.id in Hinv by done. apply Hinv. lia.
Qed.

End vectors.

(** ** Iverson brackets *)

Section iverson.

(** The value of a bracket, and of its logarithm, by whether the predicate
    holds. *)
Definition bracket (holds : bool) : double :=
  if holds then 1%float else 0%float.

Definition log_bracket (holds : bool) : double :=
  if holds then 0%float else neg_infinity.

(** The eight operator types of op_iverson.h, at given inputs and outputs. *)
Definition iverson_operators (i o : Z) (ri ro : IndexRange)
  : list Operator :=
  [ Body.GreaterThanZeroScalar i o; Body.GreaterThanZeroVector ri ro;
    Body.GreaterThanOrEqualZeroScalar i o;
    Body.GreaterThanOrEqualZeroVector ri ro;
    Body.LogGreaterThanZeroScalar i o; Body.LogGreaterThanZeroVector ri ro;
    Body.LogGreaterThanOrEqualZeroScalar i o;
    Body.LogGreaterThanOrEqualZeroVector ri ro ].

Lemma iverson_scalar_value f v i o :
  0 ≤ o < Z.of_nat (length v) →
  vget (evaluate (Body.iverson_scalar f i o) v) o = f (vget v i).
Proof. intros Ho. simpl. by apply vget_vset_eq. Qed.

Lemma iverson_vector_value f v ri ro k :
  0 ≤ range_size ri → 0 ≤ range_begin ro →
  range_begin ro + range_size ri ≤ Z.of_nat (length v) →
  (range_begin ri + range_size ri ≤ range_begin ro ∨
   range_begin ro + range_size ri ≤ range_begin ri) →
  0 ≤ k < range_size ri →
  vget (evaluate (Body.iverson_vector f ri ro) v) (range_at ro k) =
    f (vget v (range_at ri k)).
Proof.
  intros H1 H2 H3 H4 Hk. simpl.
  destruct (map_range_spec f ri ro v H1 H2 H3 H4) as (_ & Hv & _).
  by apply Hv.
Qed.

(** C8 — Iverson operators.  On a trace [v], with the scalar output slot [o]
    inside the trace and the output range [ro] inside the trace and away
    from the input range [ri]: [GreaterThanZero] writes 1.0 when
    [v[in] > 0.0] holds and 0.0 otherwise, [GreaterThanOrEqualZero] does so
    for [v[in] >= 0.0], the two [Log] operators write 0.0 when their
    predicate holds and minus infinity otherwise, in scalar form and, slot by
    slot, in vector form; the logarithmic values are never NaN; and every
    first and second local partial of the eight operators is 0.0. *)
Theorem iverson_brackets (v : list double) (i o : Z) (ri ro : IndexRange) :
  0 ≤ o < Z.of_nat (length v) →
  0 ≤ range_size ri → 0 ≤ range_begin ro →
  range_begin ro + range_size ri ≤ Z.of_nat (length v) →
  (range_begin ri + range_size ri ≤ range_begin ro ∨
   range_begin ro + range_size ri ≤ range_begin ri) →
  (vget (evaluate (Body.GreaterThanZeroScalar i o) v) o =
     bracket (PrimFloat.ltb 0%float (vget v i)) ∧
   vget (evaluate (Body.GreaterThanOrEqualZeroScalar i o) v) o =
     bracket (PrimFloat.leb 0%float (vget v i)) ∧
   vget (evaluate (Body.LogGreaterThanZeroScalar i o) v) o =
     log_bracket (PrimFloat.ltb 0%float (vget v i)) ∧
   vget (evaluate (Body.LogGreaterThanOrEqualZeroScalar i o) v) o =
     log_bracket (PrimFloat.leb 0%float (vget v i))) ∧
  (∀ k, 0 ≤ k < range_size ri →
     vget (evaluate (Body.GreaterThanZeroVector ri ro) v) (range_at ro k) =
       bracket (PrimFloat.ltb 0%float (vget v (range_at ri k))) ∧
     vget (evaluate (Body.GreaterThanOrEqualZeroVector ri ro) v)
          (range_at ro k) =
       bracket (PrimFloat.leb 0%float (vget v (range_at ri k))) ∧
     vget (evaluate (Body.LogGreaterThanZeroVector ri ro) v) (range_at ro k) =
       log_bracket (PrimFloat.ltb 0%float (vget v (range_at ri k))) ∧
     vget (evaluate (Body.LogGreaterThanOrEqualZeroVector ri ro) v)
          (range_at ro k) =
       log_bracket (PrimFloat.leb 0%float (vget v (range_at ri k)))) ∧
  (∀ holds, is_nan (log_bracket holds) = false) ∧
  (∀ op, op ∈ iverson_operators i o ri ro →
     ∀ w a b c, partial1 op w a b = 0%float ∧ partial2 op w a b c = 0%float).
Proof.
  intros Ho Hn Hro Hlen Hdis. split; [|split; [|split]].
  - unfold Body.GreaterThanZeroScalar, Body.GreaterThanOrEqualZeroScalar,
      Body.LogGreaterThanZeroScalar, Body.LogGreaterThanOrEqualZeroScalar.
    rewrite !iverson_scalar_value by done. done.
  - intros k Hk.
    unfold Body.GreaterThanZeroVector, Body.GreaterThanOrEqualZeroVector,
      Body.LogGreaterThanZeroVector, Body.LogGreaterThanOrEqualZeroVector.
    rewrite !iverson_vector_value by done. done.
  - by intros [|].
  - intros op Hop w a b c. unfold iverson_operators in Hop.
    repeat (apply elem_of_cons in Hop as [->|Hop]; [done|]).
    by apply elem_of_nil in Hop.
Qed.

(** The hypotheses of [iverson_brackets] hold on the trace
    [-1.5, 0, 2, _, _, _] with inputs in slots 0..2 and outputs in 3..5. *)
Lemma iverson_brackets_witness :
  vget (evaluate (Body.GreaterThanZeroScalar 2 3)
          [(-1.5)%float; 0%float; 2%float; 0%float; 0%float; 0%float]) 3 =
    bracket (PrimFloat.ltb 0%float
               (vget [(-1.5)%float; 0%float; 2%float; 0%float; 0%float;
                      0%float] 2)).
Proof.
  apply (iverson_brackets
           [(-1.5)%float; 0%float; 2%float; 0%float; 0%float; 0%float]
           2 3 (mkRange 0 3) (mkRange 3 6)); unfold range_size; cbn; lia.
Defined.

End iverson.

(** ** Declaring and copying spies *)

Section spies.

(** C7 — declaration of an input.  [Spy(initial_value, tape)] throws if and
    only if the tape holds at least one recorded operator, the exception
    being the logic error "Attempt to declare an input Spy after recording
    started." and the tape being left as it was; otherwise the new spy
    carries the initial value, its [tape_begin] is the [n_input_size] of the
    tape before the call, [n_input_size] and [n_trace_size] have grown by the
    number of elements of the value, [initial_values] has been extended by
    these elements in order, and no operator has been recorded. *)
Theorem Spy_input_contract (x : Tensor) (tape : Tape) :
  ((∃ e, fst (Spy_input x tape) = Throw e) ↔ operations tape ≠ []) ∧
  (operations tape ≠ [] →
     Spy_input x tape =
       (Throw (logic_error
                 "Attempt to declare an input Spy after recording started."),
        tape)) ∧
  (operations tape = [] →
     ∃ s tape', Spy_input x tape = (Ok s, tape') ∧
       tensor s = x ∧
       tape_begin s = n_input_size tape ∧
       n_input_size tape' = n_input_size tape + val_size x ∧
       n_trace_size tape' = n_trace_size tape + val_size x ∧
       initial_values tape' = initial_values tape ++ val x ∧
       operations tape' = operations tape).
Proof.
  unfold Spy_input. cbv zeta. destruct (operations tape) as [|op ops] eqn:Hops.
  - simpl. split; [|split].
    + split; [intros [e He]; discriminate|done].
    + done.
    + intros _. eexists _, _. split; [done|]. by repeat split.
  - assert ((0 <? Z.of_nat (length (op :: ops))) = true) as ->.
    { apply Z.ltb_lt. simpl. lia. }
    split; [|split].
    + split; [done|]. intros _. eexists. done.
    + done.
    + done.
Qed.

(** The output that [rec] gives an Identity operator recorded on [s]. *)
Definition copy_of (s : Spy) (tape : Tape) : OpVariant :=
  if is_scalar (tensor s)
  then mkOp IdentityScalar (In_Array1 (tape_begin s)) Const_None
         (Out_Scalar (n_trace_size tape))
  else mkOp IdentityVector
         (In_Range (mkRange (tape_begin s) (tape_end s))) Const_None
         (Out_Range (mkRange (n_trace_size tape)
                       (n_trace_size tape + tensor_size (tensor s)))).

(** C10 — copying a spy records an operator.  For a spy [s] whose tensor
    holds as many values as its dimensions say, the copy constructor appends
    exactly one operator to the tape, [IdentityScalar] when [s] is a scalar
    and [IdentityVector] otherwise, reading the slots of [s] and writing the
    fresh slots at the end of the trace; [n_trace_size] grows by the size of
    [s]; the operators recorded before, [n_input_size] and [initial_values]
    are unchanged; and the copy has the tensor of [s] and the range of the
    recorded output, from the former [n_trace_size] to the new one. *)
Theorem Spy_copy_records_identity (s : Spy) (tape : Tape) :
  val_size (tensor s) = tensor_size (tensor s) →
  operations (Spy_copy s tape).2 = operations tape ++ [copy_of s tape] ∧
  n_trace_size (Spy_copy s tape).2 =
    n_trace_size tape + tensor_size (tensor s) ∧
  n_input_size (Spy_copy s tape).2 = n_input_size tape ∧
  initial_values (Spy_copy s tape).2 = initial_values tape ∧
  tensor (Spy_copy s tape).1 = tensor s ∧
  tape_begin (Spy_copy s tape).1 = n_trace_size tape ∧
  tape_end (Spy_copy s tape).1 = n_trace_size (Spy_copy s tape).2.
Proof.
  intros Hsize. unfold Spy_copy, copy_of, rec, op_register, tape_end,
    tape_begin, to_Scalar, to_Range, to_IndexRange, trace_size, tape_end,
    tape_begin. cbn [Spy_register tensor tape_id_].
  destruct (is_scalar (tensor s)) eqn:Hsc; cbn.
  - apply Z.eqb_eq in Hsc. unfold is_scalar in *. rewrite Hsize, Hsc.
    by repeat split.
  - unfold range_size. cbn. rewrite Hsize.
    replace (tape_id_ s + tensor_size (tensor s) - tape_id_ s)
      with (tensor_size (tensor s)) by lia.
    repeat split; lia.
Qed.

(** A vector of three values declared as the only input of a tape, then
    copied. *)
Lemma Spy_copy_records_identity_witness :
  let s := Spy_register (Tensor_vector [1%float; 2%float; 3%float]) 0 in
  let tape := mkTape 3 3 [] [1%float; 2%float; 3%float] in
  operations (Spy_copy s tape).2 = operations tape ++ [copy_of s tape].
Proof.
  cbv zeta.
  apply (Spy_copy_records_identity
           (Spy_register (Tensor_vector [1%float; 2%float; 3%float]) 0)
           (mkTape 3 3 [] [1%float; 2%float; 3%float])).
  reflexivity.
Defined.

End spies.

(** ** The working matrix of the solver *)

Section working_matrix.
Import SparseSymMat.

(** The Hessian [[-2, 1], [1, -3]], written entry by entry. *)
Definition hessian_2x2 : SparseSymMat.t :=
  mk 2 (get_add 1 1 (-3)%float
          (get_add 0 1 1%float (get_add 0 0 (-2)%float ∅))).

(** A Hessian of width 2 whose only entry is [-2] at [(0,0)]. *)
Definition hessian_1_of_2 : SparseSymMat.t :=
  mk 2 (get_add 0 0 (-2)%float ∅).

(** C4 — the working matrix with fixed indices.  With index 1 fixed, the
    matrix built from the Hessian [[-2, 1], [1, -3]] has -1 at [(1,1)] and
    nothing at [(1,0)], but keeps the entry 1 at [(0,1)], in the column of
    the fixed index; and the matrix built from a Hessian that stores no row
    for index 1 has nothing at [(1,1)], so that this diagonal entry reads 0
    and not -1. *)
Theorem working_matrix_keeps_fixed_column :
  let W := EigenSparseMat.make hessian_2x2 [1] in
  let W' := EigenSparseMat.make hessian_1_of_2 [1] in
  (W !! (0, 0) = Some (-2)%float ∧
   W !! (0, 1) = Some 1%float ∧
   W !! (1, 0) = None ∧
   W !! (1, 1) = Some (-1)%float ∧
   EigenSparseMat.coeff W 0 1 = read (matrix hessian_2x2) 0 1) ∧
  (W' !! (1, 1) = None ∧ EigenSparseMat.coeff W' 1 1 = 0%float).
Proof. by vm_compute. Qed.

End working_matrix.

(** ** The regularization loop and the line search of the solver *)

Section solver.
Import Solver.
Variable std_pow : double → double → double.
Variable LU_solver :
  EigenSparseMat.coefficients → list double → option (list double * bool).
Variable config : SolverConfig.
Variable gradient : list double.

Local Abbreviation regularization_attempt :=
  (regularization_attempt std_pow LU_solver config gradient).
Local Abbreviation regularization_loop :=
  (regularization_loop std_pow LU_solver config gradient).
Local Abbreviation lambda_of := (lambda_of std_pow config).

(** The matrix of the attempt made with [n_regul = n]. *)
Definition attempted (hessian_buffer : EigenSparseMat.coefficients) (n : Z)
  : EigenSparseMat.coefficients :=
  weighted hessian_buffer (lambda_of n).

(** The attempt at [n] succeeds: factorization and solve report success. *)
Definition succeeds (hessian_buffer : EigenSparseMat.coefficients) (n : Z)
  : Prop :=
  ∃ x, LU_solver (attempted hessian_buffer n) gradient = Some (x, true).

Lemma regularization_attempt_success hessian_buffer st x :
  LU_solver (attempted hessian_buffer (n_regul st)) gradient
    = Some (x, true) →
  regularization_attempt hessian_buffer st =
    mkDir (n_regul st) (lambda_of (n_regul st))
          (attempted hessian_buffer (n_regul st)) (map PrimFloat.opp x).
Proof.
  intros H. unfold Solver.regularization_attempt, Solver.attempt.
  cbn [Eigen_hessian n_regul lambda]. unfold attempted in H. by rewrite H.
Qed.

Lemma regularization_attempt_failure hessian_buffer st :
  ¬ succeeds hessian_buffer (n_regul st) →
  n_regul (regularization_attempt hessian_buffer st) = n_regul st + 1.
Proof.
  intros H. unfold Solver.regularization_attempt, Solver.attempt.
  cbn [Eigen_hessian n_regul lambda].
  destruct (LU_solver _ gradient) as [[x [|]]|] eqn:E; [|done..].
  exfalso. apply H. by exists x.
Qed.

(** C3 — the regularization loop after a successful attempt.  When the
    attempt made at the current [n_regul], within the allowed number of
    attempts, succeeds, the direction is assigned and [n_regul] is left as
    it is, so that the loop condition still holds and the same attempt is
    made again: no number of iterations brings the loop to its exit. *)
Theorem regularization_loop_repeats_success
    (fuel : nat) (hessian_buffer : EigenSparseMat.coefficients)
    (st : direction_state) :
  n_regul st ≤ max_regularization_attempts config →
  succeeds hessian_buffer (n_regul st) →
  regularization_loop fuel hessian_buffer st = None.
Proof.
  revert st. induction fuel as [|fuel IH]; intros st Hn [x Hx].
  - simpl. by rewrite (proj2 (Z.leb_le _ _) Hn).
  - simpl. rewrite (proj2 (Z.leb_le _ _) Hn).
    rewrite (regularization_attempt_success _ _ x Hx).
    apply IH; [done|]. by exists x.
Qed.

(** The loop leaves only when every remaining attempt has failed: from
    [n_regul = n] it makes the attempts [n], [n+1], ... in this order, and
    when all of them up to [max_regularization_attempts] fail it exits after
    the last one. *)
Lemma regularization_loop_exhausts (k : nat) :
  ∀ hessian_buffer st,
    max_regularization_attempts config + 1 - n_regul st = Z.of_nat k →
    (∀ n, n_regul st ≤ n ≤ max_regularization_attempts config →
          ¬ succeeds hessian_buffer n) →
    ∃ st', regularization_loop k hessian_buffer st = Some st' ∧
           n_regul st' = max_regularization_attempts config + 1.
Proof.
  induction k as [|k IH]; intros hessian_buffer st Hk Hfail.
  - simpl. destruct (n_regul st <=? _) eqn:E; [apply Z.leb_le in E; lia|].
    exists st. split; [done|lia].
  - simpl. destruct (n_regul st <=? _) eqn:E;
      [apply Z.leb_le in E|apply Z.leb_gt in E; lia].
    assert (n_regul (regularization_attempt hessian_buffer st)
            = n_regul st + 1) as Hn.
    { apply regularization_attempt_failure. apply Hfail. lia. }
    apply IH; [lia|]. intros n Hle. apply Hfail. lia.
Qed.

End solver.

Section solver_witness.
Import Solver.

(** Sparse LU of a one by one system: the pivot must not be zero. *)
Definition LU_1x1 (m : EigenSparseMat.coefficients) (g : list double)
  : option (list double * bool) :=
  match m !! (0, 0) with
  | Some h => if is_zero h then None else Some ([vget g 0 / h]%float, true)
  | None => None
  end.

(** The power function at the default damping factor 2. *)
Definition square (x y : double) : double := (x * x)%float.

(** The Hessian [[0]] cannot be factorized, while the first regularized
    matrix can: the loop entered with [n_regul = 1] never leaves. *)
Lemma regularization_loop_repeats_success_witness :
  regularization_loop square LU_1x1 default_config [1%float] 7
    {[ (0, 0) := 0%float ]} (mkDir 1 0%float {[ (0, 0) := 0%float ]} [])
  = None.
Proof.
  apply (regularization_loop_repeats_success square LU_1x1 default_config
           [1%float] 7 {[ (0, 0) := 0%float ]}
           (mkDir 1 0%float {[ (0, 0) := 0%float ]} [])).
  - vm_compute. discriminate.
  - eexists. vm_compute. reflexivity.
Defined.

(** C6 — the guard after the line search throws on a threshold that is not
    the configured tolerance.  With [objective_tolerance = 1], a search
    interval [-0.25, 0.25] and a starting objective 10, the selected
    objective 9.5 makes [maximize] throw although 9.5 is not less than
    10 - 1; with [objective_tolerance = 0.25], [brent_tolerance_factor = 4],
    the interval [-1, 2] and the starting objective 10, the selected
    objective 9.5 is committed although it is less than 10 - 0.25. *)
Lemma backtracking_guard_uses_brent_tolerance :
  let narrow :=
    mkConfig 1000 1%float false 10 2%float 1%float (-0.25)%float 0.25%float
             0.75%float in
  let loose :=
    mkConfig 1000 0.25%float false 10 2%float 4%float (-1)%float 2%float
             0.75%float in
  (commit_line_search narrow 10%float (-0.25)%float 0.25%float 9.5%float =
     Throw (logic_error "Failure of backtracking line search.") ∧
   PrimFloat.ltb 9.5%float (10 - objective_tolerance narrow)%float = false) ∧
  (commit_line_search loose 10%float (-1)%float 2%float 9.5%float =
     Ok (10%float, 9.5%float) ∧
   PrimFloat.ltb 9.5%float (10 - objective_tolerance loose)%float = true).
Proof. by vm_compute. Qed.

(** C6, as the code has it.  The tolerance of the guard is the effective
    tolerance of the line search,
    [fmin(objective_tolerance * brent_tolerance_factor, width * width)] for
    the search interval of the iteration.  [maximize] throws the logic error
    "Failure of backtracking line search." exactly when the objective
    selected by the line search is strictly less than the starting objective
    of the iteration minus this tolerance; otherwise the iteration commits
    the selected objective as the new objective and the starting objective
    as the old one, and the committed objective is not strictly less than
    the old one minus this tolerance. *)
Theorem backtracking_guard (config : SolverConfig)
    (objective_new brent_left brent_right brent_out_objective : double) :
  let tol := brent_tol config brent_left brent_right in
  let outcome := commit_line_search config objective_new brent_left
                   brent_right brent_out_objective in
  tol = fmin (objective_tolerance config * brent_tolerance_factor config)
             ((brent_right - brent_left) * (brent_right - brent_left))%float ∧
  (outcome = Throw (logic_error "Failure of backtracking line search.") ↔
   PrimFloat.ltb brent_out_objective (objective_new - tol)%float = true) ∧
  (outcome = Ok (objective_new, brent_out_objective) ↔
   PrimFloat.ltb brent_out_objective (objective_new - tol)%float = false) ∧
  (∀ e, outcome = Throw e →
        e = logic_error "Failure of backtracking line search.") ∧
  (∀ objective_old' objective_new',
     outcome = Ok (objective_old', objective_new') →
     objective_old' = objective_new ∧
     objective_new' = brent_out_objective ∧
     PrimFloat.ltb objective_new' (objective_old' - tol)%float = false).
Proof.
  cbv zeta. unfold commit_line_search.
  destruct (PrimFloat.ltb _ _) eqn:E.
  - split; [done|]. split; [done|]. split; [split; done|].
    split; [by intros e [= <-]|]. by intros.
  - split; [done|]. split; [split; done|]. split; [done|].
    split; [by intros|]. by intros ? ? [= <- <-].
Qed.

End solver_witness.

(** ** Playing recorded tapes *)

Section playing.

(** What is read off a trace after [play()]: the result, the adjoints and
    the rows of the Hessian in the order of their indices. *)
Definition observe (tr : Trace)
  : double * list double * list (Z * list (Z * double)) :=
  (result tr, adjoints tr,
   map (λ r, (r.1, in_order r.2))
       (in_order (SparseSymMat.matrix (hessian tr)))).

(** [Trace trace(tape); trace.play();] *)
Definition played (tape : Tape) :=
  observe <$> Trace_play tape (Trace_make tape).

(** The objective x * (1/x), with [x] the only input. *)
Definition tape_x_times_inverse (x : double) : Tape :=
  mkTape 1 3
    [ mkOp InvertScalar (In_Array1 0) Const_None (Out_Scalar 1);
      mkOp (MultiplyScalarScalar FreeFree) (In_ScalarScalar 0 1) Const_None
           (Out_Scalar 2) ]
    [x].

(** The objective x * x^2. *)
Definition tape_x_times_square (x : double) : Tape :=
  mkTape 1 3
    [ mkOp SquareScalar (In_Array1 0) Const_None (Out_Scalar 1);
      mkOp (MultiplyScalarScalar FreeFree) (In_ScalarScalar 0 1) Const_None
           (Out_Scalar 2) ]
    [x].

(** The objective x^3. *)
Definition tape_cube (x : double) : Tape :=
  mkTape 1 2 [ mkOp CubeScalar (In_Array1 0) Const_None (Out_Scalar 1) ] [x].

(** C1 — values, adjoints and Hessian after [play()].  On the tape of
    x * (1/x) at x = 2 the result is 1 and the adjoints are 0, 2 and 1, the
    partial derivatives of the objective, but the Hessian stores 0.25 at
    [(0,0)] while the second derivative of this constant objective is 0.  On
    the tape of x * x^2 at x = 1.5 the result is 3.375 and the gradient 6.75,
    but the Hessian stores 6 at [(0,0)], while the tape of x^3 gives the
    same result and gradient and stores 9, the second derivative 6 x. *)
Theorem play_hessian_of_dependent_operands :
  played (tape_x_times_inverse 2%float) =
    Some (1%float, [0%float; 2%float; 1%float], [(0, [(0, 0.25%float)])]) ∧
  played (tape_x_times_square 1.5%float) =
    Some (3.375%float, [6.75%float; 1.5%float; 1%float],
          [(0, [(0, 6%float)])]) ∧
  played (tape_cube 1.5%float) =
    Some (3.375%float, [6.75%float; 1%float], [(0, [(0, 9%float)])]).
Proof. by vm_compute. Qed.

(** A difference of two squares of the same input, in distinct slots: the
    contributions -2 and 2 to [(0,0)] cancel and the entry stays stored,
    holding 0. *)
Lemma play_stores_cancelled_entry :
  played (mkTape 1 4
            [ mkOp SquareScalar (In_Array1 0) Const_None (Out_Scalar 1);
              mkOp SquareScalar (In_Array1 0) Const_None (Out_Scalar 2);
              mkOp (MinusScalarScalar FreeFree) (In_ScalarScalar 1 2)
                   Const_None (Out_Scalar 3) ]
            [1.5%float]) =
    Some (0%float, [0%float; 1%float; (-1)%float; 1%float],
          [(0, [(0, 0%float)])]).
Proof. by vm_compute. Qed.

End playing.

(** ** Peephole rewrites *)

Section peephole.

(** The instance that [rec] builds for a unary operator recorded on [a], in
    scalar form [S] or vector form [V], with the constant [c]. *)
Definition unary_instance (S V : OpType) (c : OpConst) (a : Spy)
    (tape : Tape) : OpVariant :=
  if is_scalar (tensor a)
  then mkOp S (In_Array1 (tape_begin a)) c (Out_Scalar (n_trace_size tape))
  else mkOp V (In_Range (mkRange (tape_begin a) (tape_end a))) c
         (Out_Range (mkRange (n_trace_size tape)
                       (n_trace_size tape + (tape_end a - tape_begin a)))).

(** The call recorded exactly the instance [o] and returned a spy on its
    output. *)
Definition records (call : Result Spy * Tape) (o : OpVariant) (tape : Tape)
  : Prop :=
  call.2 = op_register o tape ∧
  ∀ s, call.1 = Ok s → tape_begin s = n_trace_size tape.

Lemma rec_unary_instance S V a tape :
  out_is_scalar S = true → out_is_scalar V = false →
  rec_unary S V a tape =
    (n_trace_size tape,
     op_register (unary_instance S V Const_None a tape) tape).
Proof.
  intros HS HV. unfold rec_unary, unary_instance, rec, to_Scalar, to_Range,
    to_IndexRange, trace_size.
  destruct (is_scalar (tensor a)); rewrite ?HS, ?HV; [done|].
  unfold output_range_size, range_size. by cbn.
Qed.

Lemma return_Spy_records value out o tape tape' :
  out = n_trace_size tape → tape' = op_register o tape →
  records (return_Spy value out tape') o tape.
Proof.
  intros -> ->. unfold records, return_Spy. destruct value; [|done].
  split; [done|]. by intros s [= <-].
Qed.

Lemma Spy_minus_self a tape :
  records (Spy_minus a a tape)
    (unary_instance (TrivialScalar Body.RESULT_0)
       (TrivialVector Body.RESULT_0) Const_None a tape) tape.
Proof.
  unfold Spy_minus. rewrite Z.eqb_refl.
  change (if is_scalar (tensor a)
          then rec (TrivialScalar Body.RESULT_0) (to_Scalar a) Const_None tape
          else rec (TrivialVector Body.RESULT_0) (to_Range a) Const_None tape)
    with (rec_unary (TrivialScalar Body.RESULT_0)
            (TrivialVector Body.RESULT_0) a tape).
  rewrite rec_unary_instance by done.
  split; [done|]. by intros s [= <-].
Qed.

Lemma Spy_divide_self a tape :
  records (Spy_divide a a tape)
    (unary_instance (TrivialScalar Body.RESULT_1)
       (TrivialVector Body.RESULT_1) Const_None a tape) tape.
Proof.
  unfold Spy_divide. rewrite Z.eqb_refl.
  change (if is_scalar (tensor a)
          then rec (TrivialScalar Body.RESULT_1) (to_Scalar a) Const_None tape
          else rec (TrivialVector Body.RESULT_1) (to_Range a) Const_None tape)
    with (rec_unary (TrivialScalar Body.RESULT_1)
            (TrivialVector Body.RESULT_1) a tape).
  rewrite rec_unary_instance by done.
  split; [done|]. by intros s [= <-].
Qed.

Lemma Spy_pow_0 std_pow a tape :
  records (Spy_pow_double std_pow a 0%float tape)
    (unary_instance (TrivialScalar Body.RESULT_1)
       (TrivialVector Body.RESULT_1) Const_None a tape) tape.
Proof.
  unfold Spy_pow_double, Spy_pow.
  change (is_literal (-1)%float (Tensor_scalar 0%float)) with false.
  change (is_literal 0%float (Tensor_scalar 0%float)) with true.
  cbv iota. rewrite rec_unary_instance by done.
  by apply return_Spy_records.
Qed.

Lemma Spy_pow_1 std_pow a tape :
  records (Spy_pow_double std_pow a 1%float tape)
    (unary_instance IdentityScalar IdentityVector Const_None a tape) tape.
Proof.
  unfold Spy_pow_double, Spy_pow.
  change (is_literal (-1)%float (Tensor_scalar 1%float)) with false.
  change (is_literal 0%float (Tensor_scalar 1%float)) with false.
  change (is_literal 1%float (Tensor_scalar 1%float)) with true.
  cbv iota. rewrite rec_unary_instance by done.
  by apply return_Spy_records.
Qed.

Lemma Spy_pow_2 std_pow a tape :
  records (Spy_pow_double std_pow a 2%float tape)
    (unary_instance SquareScalar SquareVector Const_None a tape) tape.
Proof.
  unfold Spy_pow_double, Spy_pow.
  change (is_literal (-1)%float (Tensor_scalar 2%float)) with false.
  change (is_literal 0%float (Tensor_scalar 2%float)) with false.
  change (is_literal 1%float (Tensor_scalar 2%float)) with false.
  change (is_literal 2%float (Tensor_scalar 2%float)) with true.
  cbv iota. rewrite rec_unary_instance by done.
  by apply return_Spy_records.
Qed.

Lemma Spy_pow_3 std_pow a tape :
  records (Spy_pow_double std_pow a 3%float tape)
    (unary_instance CubeScalar CubeVector Const_None a tape) tape.
Proof.
  unfold Spy_pow_double, Spy_pow.
  change (is_literal (-1)%float (Tensor_scalar 3%float)) with false.
  change (is_literal 0%float (Tensor_scalar 3%float)) with false.
  change (is_literal 1%float (Tensor_scalar 3%float)) with false.
  change (is_literal 2%float (Tensor_scalar 3%float)) with false.
  change (is_literal 3%float (Tensor_scalar 3%float)) with true.
  cbv iota. rewrite rec_unary_instance by done.
  by apply return_Spy_records.
Qed.

Lemma one_divide_Spy a tape :
  records (double_divide_Spy 1%float a tape)
    (unary_instance InvertScalar InvertVector Const_None a tape) tape.
Proof.
  unfold double_divide_Spy, Tensor_divide_Spy.
  change (is_literal 0%float (Tensor_scalar 1%float)) with false.
  change (is_literal 1%float (Tensor_scalar 1%float)) with true.
  cbv iota. rewrite rec_unary_instance by done.
  by apply return_Spy_records.
Qed.

Lemma Spy_plus_self a tape :
  records (Spy_plus a a tape)
    (unary_instance (MultiplyScalarScalar FreeFixed)
       (MultiplyVectorScalar FreeFixed) (Const_Array1 2%float) a tape) tape.
Proof.
  unfold Spy_plus. rewrite Z.eqb_refl.
  assert ((if is_scalar (tensor a)
           then rec (MultiplyScalarScalar FreeFixed) (to_Scalar a)
                  (Const_Array1 2%float) tape
           else rec (MultiplyVectorScalar FreeFixed) (to_Range a)
                  (Const_Array1 2%float) tape) =
          (n_trace_size tape,
           op_register
             (unary_instance (MultiplyScalarScalar FreeFixed)
                (MultiplyVectorScalar FreeFixed) (Const_Array1 2%float)
                a tape) tape)) as ->.
  { unfold unary_instance, rec, to_Scalar, to_Range, to_IndexRange,
      trace_size. destruct (is_scalar (tensor a)); [done|].
    unfold output_range_size, range_size. by cbn. }
  by apply return_Spy_records.
Qed.

(** The rewrites of a-a, a/a, a^0, a^1, a^2, a^3, 1/a and a+a: each call
    records one unary operator on the slots of [a], in scalar or vector form
    by the shape of [a], and nothing else. *)
Lemma peephole_rewrites_recorded (std_pow : double → double → double)
    (a : Spy) (tape : Tape) :
  records (Spy_minus a a tape)
    (unary_instance (TrivialScalar Body.RESULT_0)
       (TrivialVector Body.RESULT_0) Const_None a tape) tape ∧
  records (Spy_divide a a tape)
    (unary_instance (TrivialScalar Body.RESULT_1)
       (TrivialVector Body.RESULT_1) Const_None a tape) tape ∧
  records (Spy_pow_double std_pow a 0%float tape)
    (unary_instance (TrivialScalar Body.RESULT_1)
       (TrivialVector Body.RESULT_1) Const_None a tape) tape ∧
  records (Spy_pow_double std_pow a 1%float tape)
    (unary_instance IdentityScalar IdentityVector Const_None a tape) tape ∧
  records (Spy_pow_double std_pow a 2%float tape)
    (unary_instance SquareScalar SquareVector Const_None a tape) tape ∧
  records (Spy_pow_double std_pow a 3%float tape)
    (unary_instance CubeScalar CubeVector Const_None a tape) tape ∧
  records (double_divide_Spy 1%float a tape)
    (unary_instance InvertScalar InvertVector Const_None a tape) tape ∧
  records (Spy_plus a a tape)
    (unary_instance (MultiplyScalarScalar FreeFixed)
       (MultiplyVectorScalar FreeFixed) (Const_Array1 2%float) a tape) tape.
Proof.
  split; [apply Spy_minus_self|]. split; [apply Spy_divide_self|].
  split; [apply Spy_pow_0|]. split; [apply Spy_pow_1|].
  split; [apply Spy_pow_2|]. split; [apply Spy_pow_3|].
  split; [apply one_divide_Spy|apply Spy_plus_self].
Qed.

(** The recordings compared below, on a tape whose only input is the
    scalar [x]: [a / a], and [Spy b(a); a / b], the same quotient with the
    divisor in a slot of its own. *)
Definition input_tape (x : double) : Spy * Tape :=
  (Spy_register (Tensor_scalar x) 0, mkTape 1 1 [] [x]).

Definition tape_a_over_a (x : double) : Tape :=
  let '(a, tape) := input_tape x in
  (Spy_divide a a tape).2.

Definition tape_a_over_copy (x : double) : Tape :=
  let '(a, tape) := input_tape x in
  let '(b, tape) := Spy_copy a tape in
  (Spy_divide a b tape).2.

(** C5 — peephole equivalence.  On the input 1.0, [a / a] records
    [TrivialScalar<1>] alone and plays to the value 1, the gradient 0 and an
    empty Hessian, while the quotient of [a] by a copy of [a], which records
    [IdentityScalar] and [DivideScalarScalar<true,true>], plays to the value
    1 and the gradient 0 but to a Hessian that stores 1 at [(0,0)]. *)
Theorem peephole_quotient_differs_from_plain_quotient :
  Spy_input (Tensor_scalar 1%float) (Tape_make 0) =
    (Ok (input_tape 1%float).1, (input_tape 1%float).2) ∧
  operations (tape_a_over_a 1%float) =
    [ mkOp (TrivialScalar Body.RESULT_1) (In_Array1 0) Const_None
           (Out_Scalar 1) ] ∧
  operations (tape_a_over_copy 1%float) =
    [ mkOp IdentityScalar (In_Array1 0) Const_None (Out_Scalar 1);
      mkOp (DivideScalarScalar FreeFree) (In_ScalarScalar 0 1) Const_None
           (Out_Scalar 2) ] ∧
  played (tape_a_over_a 1%float) =
    Some (1%float, [0%float; 1%float], []) ∧
  played (tape_a_over_copy 1%float) =
    Some (1%float, [0%float; (-1)%float; 1%float], [(0, [(0, 1%float)])]).
Proof. by vm_compute. Qed.

End peephole.

(** ** More on the sparse symmetric matrix *)

Section sparse_rows.
Import SparseSymMat SparseSymMatOps.

Lemma insert_entry_no_empty_row i j m :
  no_empty_row m → no_empty_row (insert_entry i j m).
Proof.
  intros Hne a. unfold insert_entry.
  rewrite lookup_alter. case_decide as Ha.
  2: { rewrite lookup_map_insert_new. by rewrite decide_False. }
  subst a. rewrite lookup_map_insert_new, decide_True by done. simpl.
  intros [= He].
  assert (map_insert_new j 0%float (default ∅ (m !! i)) !! j ≠ None) as Hj.
  { rewrite lookup_map_insert_new. by rewrite decide_True. }
  rewrite He in Hj. by rewrite lookup_empty in Hj.
Qed.

Lemma update_entry_no_empty_row f i j m :
  no_empty_row m → no_empty_row (update_entry f i j m).
Proof.
  intros Hne a. unfold update_entry. rewrite lookup_alter.
  case_decide as Ha; [subst a|apply Hne].
  destruct (m !! i) as [r|] eqn:Hr; [|done]. simpl. intros [= He].
  apply (Hne i). rewrite Hr. f_equal.
  apply map_eq. intros b. rewrite lookup_empty.
  assert (alter f j r !! b = None) as Hb by (by rewrite He, lookup_empty).
  rewrite lookup_alter in Hb. case_decide; [subst|done].
  by destruct (r !! b).
Qed.

Lemma prepare_write_no_empty_row e m :
  no_empty_row m → no_empty_row (prepare_write e m).1.
Proof.
  intros Hne. unfold prepare_write. cbn [fst].
  destruct (er_j e =? er_i e); by repeat apply insert_entry_no_empty_row.
Qed.

Lemma set_zero_no_empty_row e m :
  no_empty_row m → no_empty_row (set_zero e m).1.
Proof.
  intros Hne. unfold set_zero. destruct (negb (is_valid_ij e)); [done|].
  destruct (er_j e =? er_i e); cbn [fst];
    by repeat apply erase_entry_no_empty_row.
Qed.

Lemma add_assign_no_empty_row x e m :
  no_empty_row m → no_empty_row (add_assign x e m).1.
Proof.
  intros Hne. unfold add_assign. destruct (is_zero x); [done|].
  destruct (is_valid_ij e).
  - destruct (er_j e =? er_i e); cbn [fst];
      by repeat apply update_entry_no_empty_row.
  - pose proof (prepare_write_no_empty_row e m Hne) as Hp.
    destruct (prepare_write e m) as [m1 e1]. cbn [fst] in Hp.
    destruct (er_j e1 =? er_i e1); cbn [fst];
      by repeat apply update_entry_no_empty_row.
Qed.

Lemma assign_no_empty_row x e m :
  no_empty_row m → no_empty_row (assign x e m).1.
Proof.
  intros Hne. unfold assign.
  destruct (is_zero x); [by apply set_zero_no_empty_row|].
  destruct (is_valid_ij e).
  - destruct (er_j e =? er_i e); cbn [fst];
      by repeat apply update_entry_no_empty_row.
  - pose proof (prepare_write_no_empty_row e m Hne) as Hp.
    destruct (prepare_write e m) as [m1 e1]. cbn [fst] in Hp.
    destruct (er_j e1 =? er_i e1); cbn [fst];
      by repeat apply update_entry_no_empty_row.
Qed.

Lemma writes_no_empty_row ws : ∀ st,
  no_empty_row st.1 → no_empty_row (foldl apply_write st ws).1.
Proof.
  induction ws as [|w ws IH]; intros st Hne; [done|].
  cbn [foldl]. apply IH. destruct w; cbn [apply_write].
  - by apply add_assign_no_empty_row.
  - by apply assign_no_empty_row.
Qed.

Lemma erase_steps_no_empty_row i ks : ∀ m m',
  no_empty_row m →
  foldl (erase_step i) (Some m) ks = Some m' → no_empty_row m'.
Proof.
  induction ks as [|j ks IH]; intros m m' Hne Hf.
  - by injection Hf as <-.
  - cbn [foldl] in Hf. rewrite erase_step_erase_entry in Hf.
    destruct (j =? i); [by apply (IH m)|].
    destruct (m !! j).
    + apply (IH (erase_entry j i m)); [|done].
      by apply erase_entry_no_empty_row.
    + clear IH Hne. exfalso. induction ks; [done|by cbn in Hf].
Qed.

Lemma erase_no_empty_row i m m' :
  no_empty_row m → erase i m = Some m' → no_empty_row m'.
Proof.
  intros Hne. unfold erase. destruct (m !! i) as [row_i|]; [|by intros [= <-]].
  destruct (foldl _ _ _) as [m1|] eqn:Hf; [|done]. intros [= <-].
  pose proof (erase_steps_no_empty_row _ _ _ _ Hne Hf) as H1.
  intros a. rewrite lookup_delete. case_decide; [done|apply H1].
Qed.

Lemma run_no_empty_row ops : ∀ m m',
  no_empty_row m → run ops m = Some m' → no_empty_row m'.
Proof.
  unfold run. induction ops as [|o ops IH]; intros m m' Hne Hr.
  - by injection Hr as <-.
  - cbn [foldl] in Hr. destruct o as [i j ws|i]; cbn [run_op] in Hr.
    + apply (IH _ _ (writes_no_empty_row ws (m, get i j) Hne) Hr).
    + destruct (erase i m) as [m1|] eqn:He.
      * apply (IH m1 m'); [|done]. by apply (erase_no_empty_row i m).
      * exfalso. clear -Hr. induction ops; [done|by cbn in Hr].
Qed.

(** The row pointer is null exactly for the rows without entry. *)
Lemma get_row_ptr_null m i :
  no_empty_row m →
  get_row_ptr m i = None ↔ ∀ j, entry m i j = None.
Proof.
  intros Hne. unfold get_row_ptr, entry. split.
  - by intros ->.
  - intros Hj. destruct (m !! i) as [r|] eqn:Hr; [|done].
    exfalso. apply (Hne i). rewrite Hr. f_equal.
    apply map_eq. intros j. rewrite lookup_empty. apply (Hj j).
Qed.

(** X1 — rows of the sparse matrix are never left empty.  After every
    sequence of writes through [get(i,j)] and of [erase(i)], started from
    the empty matrix and stopped at any point, no row of the outer map is
    empty, so that [get_row_ptr(i)] is [nullptr] exactly when the matrix
    stores no entry in row [i]. *)
Theorem stored_rows_are_never_empty (ops : list op_t) (n : nat) :
  ∃ m, run (take n ops) ∅ = Some m ∧
       no_empty_row m ∧
       ∀ i, get_row_ptr m i = None ↔ ∀ j, entry m i j = None.
Proof.
  destruct (run_symmetric (take n ops) ∅ empty_symmetric) as (m & Hr & _).
  exists m. split; [done|].
  assert (no_empty_row m) as Hne.
  { apply (run_no_empty_row (take n ops) ∅ m); [|done].
    intros i. by rewrite lookup_empty. }
  split; [done|]. intros i. by apply get_row_ptr_null.
Qed.

End sparse_rows.

Section sparse_usage.
Import SparseSymMat SparseSymMatOps.

(** X2 — [erase(i)].  On a matrix that meets the mirror invariant,
    [erase(i)] fails none of its assertions, removes exactly the entries of
    row [i] and of column [i] (they read 0.0 afterwards), leaves every other
    entry as it was, leaves no row for [i] behind, and keeps the mirror
    invariant. *)
Theorem erase_clears_row_and_column (i : Z) (m : matrix_t) :
  symmetric m →
  ∃ m', erase i m = Some m' ∧
        (∀ a b, entry m' a b =
                  if decide (a = i ∨ b = i) then None else entry m a b) ∧
        (∀ a b, read m' a b =
                  if decide (a = i ∨ b = i) then 0%float else read m a b) ∧
        get_row_ptr m' i = None ∧
        symmetric m'.
Proof.
  intros Hsym. destruct (erase_symmetric_spec i m Hsym) as (m' & He & Hspec).
  exists m'. split; [done|]. split; [done|]. split; [|split].
  - intros a b. rewrite !read_entry, Hspec. by case_decide.
  - unfold get_row_ptr. destruct (m' !! i) as [r|] eqn:Hr; [|done].
    exfalso. revert He. unfold erase.
    destruct (m !! i) eqn:Hmi; [|intros [= <-]; congruence].
    destruct (foldl _ _ _); [|done]. intros [= <-].
    by rewrite lookup_delete, decide_True in Hr.
  - intros a b v. rewrite !Hspec.
    destruct (decide (a = i ∨ b = i)) as [|Hn]; [done|].
    rewrite decide_False by (intros [?|?]; apply Hn; auto).
    apply Hsym.
Qed.

(** The matrix holding 5.0 at [(0,1)] and [(1,0)] and 2.0 at [(1,1)] meets
    the invariant; [erase(0)] leaves the entry [(1,1)] alone. *)
Lemma erase_clears_row_and_column_witness :
  ∃ m', erase 0 (get_add 1 1 2%float (get_add 0 1 5%float ∅)) = Some m' ∧
        read m' 0 1 = 0%float ∧ read m' 1 0 = 0%float ∧
        read m' 1 1 = 2%float.
Proof.
  destruct (erase_clears_row_and_column 0
              (get_add 1 1 2%float (get_add 0 1 5%float ∅)))
    as (m' & He & _ & Hr & _).
  { do 2 apply get_add_symmetric. apply empty_symmetric. }
  exists m'. split; [exact He|]. rewrite !Hr. by vm_compute.
Defined.

(** X3 — assignment through [get(i,j)].  A value other than 0.0 assigned
    through the reference that [get(i,j)] returns is read back at [(i,j)]
    and at [(j,i)], whether or not an entry was stored there, and every other
    entry is stored and read as before. *)
Theorem assign_nonzero_reads_back (x : double) (i j : Z) (m : matrix_t) :
  is_zero x = false →
  read (get_assign i j x m) i j = x ∧
  read (get_assign i j x m) j i = x ∧
  ∀ a b, ¬ (a = i ∧ b = j) → ¬ (a = j ∧ b = i) →
         entry (get_assign i j x m) a b = entry m a b ∧
         read (get_assign i j x m) a b = read m a b.
Proof.
  intros Hx. split; [|split].
  - rewrite read_entry, get_assign_nonzero by done.
    by rewrite decide_True by auto.
  - rewrite read_entry, get_assign_nonzero by done.
    by rewrite decide_True by auto.
  - intros a b H1 H2. rewrite !read_entry, get_assign_nonzero by done.
    by rewrite decide_False by (intros [?|?]; done).
Qed.

Lemma assign_nonzero_reads_back_witness :
  read (get_assign 2 0 1.5%float ∅) 0 2 = 1.5%float.
Proof.
  apply (assign_nonzero_reads_back 1.5%float 2 0 ∅). reflexivity.
Defined.

(** X4 — accumulation through [get(i,j)].  Adding 0.0 changes nothing, not
    even by creating an entry; adding another value [x] adds [x] to what is
    read at [(i,j)] and at [(j,i)] (once when [i = j]), an absent entry
    counting as 0.0, and leaves what is read elsewhere as it was.  The sum is
    stored even when it is 0.0. *)
Theorem add_assign_accumulates (x : double) (i j : Z) (m : matrix_t) :
  (is_zero x = true → get_add i j x m = m) ∧
  (is_zero x = false →
     (∀ a b, read (get_add i j x m) a b =
               if decide ((a = i ∧ b = j) ∨ (a = j ∧ b = i))
               then (read m a b + x)%float else read m a b) ∧
     is_Some (entry (get_add i j x m) i j) ∧
     is_Some (entry (get_add i j x m) j i)).
Proof.
  split; [apply get_add_zero|]. intros Hx. split; [|split].
  - intros a b. rewrite !read_entry, get_add_nonzero by done.
    by case_decide.
  - rewrite get_add_nonzero by done. rewrite decide_True by auto. eauto.
  - rewrite get_add_nonzero by done. rewrite decide_True by auto. eauto.
Qed.

(** X5 — writing zero through a reference already written through.  With
    [auto e = H.get(i,j)], after [e = x] or [e += x] for a value [x] other
    than 0.0, the assignment [e = 0.0] removes the entries [(i,j)] and
    [(j,i)], which read 0.0 again, leaves the other entries as they were,
    and leaves no empty row in a matrix that had none. *)
Theorem zero_through_written_reference (w : write_t) (i j : Z)
    (m : matrix_t) :
  match w with PlusAssign x | Assign x => is_zero x = false end →
  no_empty_row m →
  let m' := (foldl apply_write (m, get i j) [w; Assign 0%float]).1 in
  entry m' i j = None ∧ entry m' j i = None ∧
  read m' i j = 0%float ∧ read m' j i = 0%float ∧
  (∀ a b, ¬ (a = i ∧ b = j) → ¬ (a = j ∧ b = i) →
          entry m' a b = entry m a b) ∧
  no_empty_row m'.
Proof.
  intros Hx Hne. cbv zeta. cbn [foldl].
  set (st := apply_write (m, get i j) w).
  assert (is_valid_ij st.2 = true ∧ er_i st.2 = i ∧ er_j st.2 = j ∧
          no_empty_row st.1 ∧
          ∀ a b, ¬ (a = i ∧ b = j) → ¬ (a = j ∧ b = i) →
                 entry st.1 a b = entry m a b) as (Hv & Hi & Hj & Hne1 & Hfr).
  { unfold st. destruct w as [x|x]; cbn [apply_write fst snd].
    - split; [|split; [|split; [|split]]].
      + by rewrite add_assign_unfold, Hx.
      + by rewrite add_assign_unfold, Hx.
      + by rewrite add_assign_unfold, Hx.
      + by apply add_assign_no_empty_row.
      + intros a b H1 H2.
        change ((add_assign x (get i j) m).1) with (get_add i j x m).
        rewrite get_add_nonzero by done.
        by rewrite decide_False by (intros [?|?]; done).
    - split; [|split; [|split; [|split]]].
      + by rewrite assign_unfold, Hx.
      + by rewrite assign_unfold, Hx.
      + by rewrite assign_unfold, Hx.
      + by apply assign_no_empty_row.
      + intros a b H1 H2.
        change ((assign x (get i j) m).1) with (get_assign i j x m).
        rewrite get_assign_nonzero by done.
        by rewrite decide_False by (intros [?|?]; done). }
  cbn [apply_write]. rewrite assign_unfold.
  assert (is_zero 0%float = true) as -> by reflexivity.
  assert (∀ a b, entry (set_zero st.2 st.1).1 a b =
            if decide ((a = i ∧ b = j) ∨ (a = j ∧ b = i)) then None
            else entry st.1 a b) as Hz.
  { intros a b. rewrite entry_set_zero_valid by done. by rewrite Hi, Hj. }
  split; [|split; [|split; [|split; [|split]]]].
  - rewrite Hz. by rewrite decide_True by auto.
  - rewrite Hz. by rewrite decide_True by auto.
  - rewrite read_entry, Hz. by rewrite decide_True by auto.
  - rewrite read_entry, Hz. by rewrite decide_True by auto.
  - intros a b H1 H2. rewrite Hz.
    rewrite decide_False by (intros [?|?]; done). by apply Hfr.
  - by apply set_zero_no_empty_row.
Qed.

Lemma zero_through_written_reference_witness :
  read (foldl apply_write (∅, get 0 1)
          [PlusAssign 5%float; Assign 0%float]).1 0 1 = 0%float.
Proof.
  apply (zero_through_written_reference (PlusAssign 5%float) 0 1 ∅).
  - reflexivity.
  - intros a. by rewrite lookup_empty.
Defined.

End sparse_usage.

(** ** The reverse sweep on a tape laid out as it is recorded *)

Section sweep_layout.
Import SparseSymMat SparseSymMatOps Sweep.

(** The first output slot of an operator, and the slot past its last. *)
Definition out_begin (op : Operator) : Z := out_at (op_out op) 0.
Definition out_end (op : Operator) : Z := out_begin op + out_size (op_out op).

(** Every operand slot lies in [0, b). *)
Definition operands_below (op : Operator) (b : Z) : Prop :=
  ∀ k, 0 ≤ k < in_size (op_in op) → 0 ≤ in_at (op_in op) k < b.

(** An element-wise operator has no more outputs than its ranges have
    slots. *)
Definition elementwise_fits (op : Operator) : Prop :=
  OpIsElementWise op = true →
  match op_in op with
  | In_Array1 _ | In_ScalarScalar _ _ => True
  | In_Range r => out_size (op_out op) ≤ range_size r
  | In_RangePair l r =>
      out_size (op_out op) ≤ range_size l ∧
      out_size (op_out op) ≤ range_size r
  | In_RangeArrayPair l _ => out_size (op_out op) ≤ range_size l
  | In_ArrayRangePair _ r => out_size (op_out op) ≤ range_size r
  end.

(** The layout that [Tape::rec] gives a tape with [n] input slots: the
    outputs of each operator start where the trace ended when it was
    recorded, and its operands are slots that existed then. *)
Fixpoint laid_out (n : Z) (ops : list Operator) : Prop :=
  match ops with
  | [] => True
  | op :: ops' =>
      out_begin op = n ∧ 0 ≤ out_size (op_out op) ∧
      operands_below op n ∧ elementwise_fits op ∧
      laid_out (out_end op) ops'
  end.

(** [total_out ops]: the number of slots past the inputs. *)
Definition total_out (ops : list Operator) : Z :=
  foldr (λ op s, out_size (op_out op) + s) 0 ops.

(** Every stored entry has both its indices in [S]. *)
Definition confined (S : Z → Prop) (h : matrix_t) : Prop :=
  ∀ a b, is_Some (entry h a b) → S a ∧ S b.

Lemma foldl_invariant_elem {A B} (P : A → Prop) (f : A → B → A)
    (l : list B) :
  (∀ a b, b ∈ l → P a → P (f a b)) → ∀ a, P a → P (foldl f a l).
Proof.
  induction l as [|b l IH]; intros Hf a Ha; [done|].
  cbn [foldl]. apply IH.
  - intros a' b' Hb'. apply Hf. by right.
  - apply Hf; [by left|done].
Qed.

Lemma for_range_invariant_bound {S} (P : S → Prop) n (body : S → Z → S) s :
  (∀ s k, 0 ≤ k < n → P s → P (body s k)) → P s → P (for_range n body s).
Proof.
  intros Hb Hs. unfold for_range. apply foldl_invariant_elem; [|done].
  intros a k Hk. apply Hb. apply elem_of_seqZ in Hk. lia.
Qed.

Lemma for_from_invariant_bound {S} (P : S → Prop) a n (body : S → Z → S) s :
  (∀ s k, a ≤ k < n → P s → P (body s k)) → P s → P (for_from a n body s).
Proof.
  intros Hb Hs. unfold for_from. apply foldl_invariant_elem; [|done].
  intros s' k Hk. apply Hb. apply elem_of_seqZ in Hk. lia.
Qed.

Lemma entry_get_add_Some j k x h a b :
  is_Some (entry (get_add j k x h) a b) →
  is_Some (entry h a b) ∨ (a = j ∧ b = k) ∨ (a = k ∧ b = j).
Proof.
  destruct (is_zero x) eqn:Hx.
  - rewrite get_add_zero by done. auto.
  - rewrite get_add_nonzero by done. case_decide; [|auto].
    intros _. right. tauto.
Qed.

Lemma get_add_confined S j k x h :
  S j → S k → confined S h → confined S (get_add j k x h).
Proof.
  intros Hj Hk Hc a b Hab.
  apply entry_get_add_Some in Hab as [Hab|[[-> ->]|[-> ->]]]; auto.
Qed.

Lemma push_confined S d j k x h :
  S j → S k → confined S h → confined S (push d j k x h).
Proof.
  intros Hj Hk Hc. unfold push. destruct (nonzero d); [|done].
  by apply get_add_confined.
Qed.

(** The operand slots of [op] are in [S]. *)
Definition operands_in (S : Z → Prop) (op : Operator) : Prop :=
  ∀ k, 0 ≤ k < in_size (op_in op) → S (input op k).

Lemma pushing_part_1_confined S op v i_local i h it_j :
  operands_in S op →
  S it_j.1 → confined S h → confined S (pushing_part_1 op v i_local i h it_j).
Proof.
  intros Hin Hj Hc. unfold operands_in in Hin. unfold pushing_part_1. destruct it_j as [j hij].
  cbn [fst] in Hj. destruct (j =? i); [done|].
  destruct (op_in op) eqn:Hshape; cbn [in_size] in Hin.
  1: apply push_confined; [done|apply Hin; lia|done].
  1: do 2 (apply push_confined; [done|apply Hin; lia|]); done.
  all: apply for_range_invariant_bound; [|done];
    intros h' k Hk Hh'; cbn [in_size] in Hk;
    apply push_confined; [done|apply Hin; lia|done].
Qed.

Lemma pushing_part_2_confined S op v i_local r_i h :
  operands_in S op →
  confined S h → confined S (pushing_part_2 op v i_local r_i h).
Proof.
  intros Hin Hc. unfold operands_in in Hin. unfold pushing_part_2. cbv zeta.
  destruct (op_in op) eqn:Hshape; cbn [in_size] in Hin.
  1: destruct (nonzero _); [|done];
     apply get_add_confined; [apply Hin; lia..|done].
  1: repeat match goal with
            | |- confined S (if ?b then _ else _) => destruct b
            | |- confined S (get_add _ _ _ _) =>
                apply get_add_confined; [apply Hin; lia..|]
            end; done.
  all: apply for_range_invariant_bound; [|done];
    intros h' j Hj Hh'; cbn [in_size] in Hj;
    destruct (is_zero _); [done|];
    apply for_from_invariant_bound; [|done];
    intros h'' k Hk Hh''; cbn [in_size] in Hk;
    destruct (is_zero _); [done|];
    apply get_add_confined; [apply Hin; lia..|done].
Qed.

Lemma creating_part_unary_confined S op v i_local w j_local h :
  operands_in S op →
  0 ≤ j_local < in_size (op_in op) →
  confined S h → confined S (creating_part_unary op v i_local w j_local h).
Proof.
  intros Hin Hj Hc. unfold creating_part_unary.
  destruct (HessianDiagAlwaysZero op); [done|].
  apply push_confined; [by apply Hin..|done].
Qed.

Lemma creating_part_binary_confined S op v i_local w j_local k_local h :
  operands_in S op →
  0 ≤ j_local < in_size (op_in op) →
  0 ≤ k_local < in_size (op_in op) →
  confined S h →
  confined S (creating_part_binary op v i_local w j_local k_local h).
Proof.
  intros Hin Hj Hk Hc. unfold creating_part_binary. cbv zeta.
  repeat match goal with
         | |- confined S (if ?b then _ else _) => destruct b
         | |- confined S (push _ _ _ _ _) =>
             apply push_confined; [by apply Hin..|]
         end; done.
Qed.

Lemma creating_part_confined S op v i_local w h :
  operands_in S op → elementwise_fits op →
  0 ≤ i_local < out_size (op_out op) →
  confined S h → confined S (creating_part op v i_local w h).
Proof.
  intros Hin Hf Hl Hc. unfold creating_part.
  unfold elementwise_fits in Hf.
  case_eq (op_in op); intros; 
    match goal with H : op_in op = _ |- _ => rename H into Hshape end;
    rewrite Hshape in Hf; cbn [in_size in_left_size] in Hf |- *.
  1: apply creating_part_unary_confined; [done|rewrite Hshape; cbn; lia|done].
  1: apply creating_part_binary_confined;
       [done|rewrite Hshape; cbn; lia..|done].
  all: destruct (OpIsElementWise op);
    [ specialize (Hf eq_refl);
      first [ apply creating_part_unary_confined;
                [done|rewrite Hshape; cbn [in_size]; lia|done]
            | apply creating_part_binary_confined;
                [done|rewrite Hshape; cbn [in_size]; lia..|done] ]
    | apply for_range_invariant_bound; [|done];
      intros h' j Hj Hh';
      assert (confined S (creating_part_unary op v i_local w j h')) as H1
        by (apply creating_part_unary_confined;
              [done|rewrite Hshape; cbn [in_size]; lia|done]);
      destruct (HessianOffDiagAlwaysZero op); [done|];
      apply for_from_invariant_bound; [|done];
      intros h'' k Hk Hh'';
      apply push_confined;
        [apply Hin; rewrite ?Hshape; cbn [in_size]; lia..|done] ].
Qed.


Lemma confined_mono (S S' : Z → Prop) h :
  (∀ s, S s → S' s) → confined S h → confined S' h.
Proof. intros HS Hc a b Hab. destruct (Hc a b Hab). auto. Qed.

Lemma operands_in_mono (S S' : Z → Prop) op :
  (∀ s, S s → S' s) → operands_in S op → operands_in S' op.
Proof. intros HS Hin k Hk. auto. Qed.

(** One output slot [i] of one operator: the entries that remain are among
    the former ones and the operands, and none of them involves [i]. *)
Lemma reverse_output_confined (S S' : Z → Prop) op tr i_local :
  trace_symmetric tr →
  confined S (matrix (hessian tr)) →
  operands_in S' op → elementwise_fits op →
  0 ≤ i_local < out_size (op_out op) →
  (∀ s, S s → s ≠ out_at (op_out op) i_local → S' s) →
  ∀ tr', reverse_output op (Some tr) i_local = Some tr' →
         confined S' (matrix (hessian tr')).
Proof.
  intros Hs Hc Hin Hfit Hloc Hstep tr'. unfold reverse_output. cbv zeta.
  set (i := out_at (op_out op) i_local) in *.
  set (h := matrix (hessian tr)) in *.
  set (w := vget (adjoints tr) i).
  set (T := λ s, S s ∨ S' s).
  assert (operands_in T op) as HinT by (apply (operands_in_mono S'); [|done]; by right).
  destruct (get_row_ptr h i) as [row|] eqn:Hrow.
  - set (h1 := foldl (pushing_part_1 op (values tr) i_local i) h
                 (in_order row)).
    assert (symmetric h1 ∧ confined T h1) as [Hs1 Hc1].
    { split.
      - apply foldl_invariant; [|done].
        intros. by apply pushing_part_1_symmetric.
      - apply foldl_invariant_elem.
        + intros h' [j hij] Hj Hh'. apply pushing_part_1_confined; [done| |done].
          cbn [fst]. left. apply elem_of_in_order in Hj.
          apply (Hc i j). unfold entry. unfold get_row_ptr in Hrow.
          rewrite Hrow. simpl. rewrite Hj. eauto.
        + apply (confined_mono S); [|done]. by left. }
    destruct (match row !! i with
              | Some r_i =>
                  if is_zero r_i then None
                  else Some (pushing_part_2 op (values tr) i_local r_i h1)
              | None => Some h1
              end) as [h2|] eqn:Hh2; [|done].
    assert (symmetric h2 ∧ confined T h2) as [Hs2 Hc2].
    { destruct (row !! i) as [r_i|]; [|by injection Hh2 as <-].
      destruct (is_zero r_i); [done|]. injection Hh2 as <-. split.
      - by apply pushing_part_2_symmetric.
      - by apply pushing_part_2_confined. }
    set (h3 := if nonzero w
               then creating_part op (values tr) i_local w h2 else h2).
    assert (symmetric h3 ∧ confined T h3) as [Hs3 Hc3].
    { unfold h3. destruct (nonzero w); [|done]. split.
      - by apply creating_part_symmetric.
      - by apply creating_part_confined. }
    destruct (erase_symmetric_spec i h3 Hs3) as (h4 & -> & Hspec).
    intros [= <-]. cbn [hessian matrix].
    intros a b Hab. rewrite Hspec in Hab.
    destruct (decide (a = i ∨ b = i)) as [|Hn]; [by destruct Hab|].
    destruct (Hc3 a b Hab) as [Ha Hb].
    split.
    + destruct Ha as [Ha|Ha]; [|done]. apply Hstep; [done|]. intros ->. auto.
    + destruct Hb as [Hb|Hb]; [|done]. apply Hstep; [done|]. intros ->. auto.
  - assert (confined S' h) as Hc'.
    { intros a b Hab. destruct (Hc a b Hab) as [Ha Hb].
      unfold get_row_ptr in Hrow. split.
      - apply Hstep; [done|]. intros ->.
        unfold entry in Hab. rewrite Hrow in Hab. by destruct Hab.
      - apply Hstep; [done|]. intros ->. destruct Hab as [x Hx].
        apply Hs in Hx. unfold entry in Hx. fold h in Hx.
        by rewrite Hrow in Hx. }
    intros [= <-]. cbn [hessian matrix].
    destruct (nonzero w); [|done]. by apply creating_part_confined.
Qed.

Lemma seqZ_fold_invariant {A} (P : Z → A → Prop) (f : A → Z → A) n a :
  0 ≤ n → P 0 a →
  (∀ k a, 0 ≤ k < n → P k a → P (k + 1) (f a k)) →
  P n (foldl f a (seqZ 0 n)).
Proof.
  intros Hn H0 Hstep.
  assert (∀ m : nat, Z.of_nat m ≤ n →
            P (Z.of_nat m) (foldl f a (seqZ 0 (Z.of_nat m)))) as Hm.
  { induction m as [|m IH]; intros Hle; [done|].
    rewrite seqZ_S, foldl_app. cbn [foldl].
    rewrite Z.add_0_l. replace (Z.of_nat (S m)) with (Z.of_nat m + 1) by lia.
    apply Hstep; [lia|]. apply IH. lia. }
  specialize (Hm (Z.to_nat n)). rewrite Z2Nat.id in Hm by done.
  apply Hm. lia.
Qed.

(** The same along the steps of a loop that may stop on a failed
    assertion. *)
Lemma seqZ_fold_Some_invariant {A} (Q : Z → A → Prop)
    (f : option A → Z → option A) n a a' :
  (∀ k, f None k = None) → 0 ≤ n → Q 0 a →
  (∀ k a1 a2, 0 ≤ k < n → Q k a1 → f (Some a1) k = Some a2 → Q (k + 1) a2) →
  foldl f (Some a) (seqZ 0 n) = Some a' → Q n a'.
Proof.
  intros Hnone Hn H0 Hstep He.
  apply (seqZ_fold_invariant (λ k acc, ∀ a', acc = Some a' → Q k a')
           f n (Some a)); [done| | |done].
  - by intros ? [= <-].
  - intros k [a1|] Hk Hacc a2 Ha2.
    + by apply (Hstep k a1 a2 Hk (Hacc a1 eq_refl)).
    + by rewrite Hnone in Ha2.
Qed.

Lemma out_at_shift o k :
  0 ≤ k < out_size o → out_at o k = out_at o 0 + k.
Proof.
  destruct o as [i|r]; cbn [out_at out_size]; unfold range_at; lia.
Qed.

(** All the outputs of one operator. *)
Lemma OpVariantReverse_confined op tr tr' :
  trace_symmetric tr →
  0 ≤ out_size (op_out op) →
  operands_below op (out_begin op) → elementwise_fits op →
  confined (λ s, 0 ≤ s < out_end op) (matrix (hessian tr)) →
  OpVariantReverse (Some tr) op = Some tr' →
  trace_symmetric tr' ∧
  confined (λ s, 0 ≤ s < out_begin op) (matrix (hessian tr')).
Proof.
  intros Hs Hn Hbelow Hfit Hc He. unfold OpVariantReverse in He.
  set (b := out_begin op) in *.
  assert (trace_symmetric tr' ∧
          confined (λ s, 0 ≤ s < b ∨
                         b + out_size (op_out op) ≤ s < out_end op)
            (matrix (hessian tr'))) as [Hs' Hc'].
  { revert He.
    apply (seqZ_fold_Some_invariant
             (λ k tr1, trace_symmetric tr1 ∧
                confined (λ s, 0 ≤ s < b ∨ b + k ≤ s < out_end op)
                  (matrix (hessian tr1)))); [done|done| |].
    - split; [done|].
      apply (confined_mono (λ s, 0 ≤ s < out_end op)); [|done].
      intros s Hs'. lia.
    - intros k tr1 tr2 Hk [Hs1 Hc1] He2. split.
      + by apply (reverse_output_symmetric op tr1 k tr2).
      + apply (reverse_output_confined
                 (λ s, 0 ≤ s < b ∨ b + k ≤ s < out_end op)
                 (λ s, 0 ≤ s < b ∨ b + (k + 1) ≤ s < out_end op)
                 op tr1 k); try done.
        * intros j Hj. left. by apply Hbelow.
        * intros s Hs' Hne. rewrite out_at_shift in Hne by done.
          fold (out_begin op) in Hne. fold b in Hne. lia. }
  split; [done|].
  apply (confined_mono
           (λ s, 0 ≤ s < b ∨ b + out_size (op_out op) ≤ s < out_end op));
    [|done].
  intros s Hs''. unfold out_end in Hs''. fold b in Hs''. lia.
Qed.

Lemma sweep_confined ops : ∀ n tr tr',
  laid_out n ops → trace_symmetric tr →
  confined (λ s, 0 ≤ s < n + total_out ops) (matrix (hessian tr)) →
  foldl OpVariantReverse (Some tr) (reverse ops) = Some tr' →
  trace_symmetric tr' ∧ confined (λ s, 0 ≤ s < n) (matrix (hessian tr')).
Proof.
  induction ops as [|op ops IH]; intros n tr tr' Hl Hs Hc He.
  - injection He as <-. split; [done|].
    apply (confined_mono (λ s, 0 ≤ s < n + total_out [])); [|done].
    intros s. cbn. lia.
  - destruct Hl as (Hb & Hn & Hbelow & Hfit & Hl).
    rewrite reverse_cons, foldl_app in He. cbn [foldl] in He.
    destruct (foldl OpVariantReverse (Some tr) (reverse ops))
      as [tr1|] eqn:E1; [|by rewrite OpVariantReverse_None in He].
    destruct (IH (out_end op) tr tr1 Hl Hs) as [Hs1 Hc1]; [|done|].
    { apply (confined_mono (λ s, 0 ≤ s < n + total_out (op :: ops)));
        [|done].
      intros s. unfold out_end. cbn [total_out foldr].
      fold (total_out ops). lia. }
    destruct (OpVariantReverse_confined op tr1 tr' Hs1 Hn) as [Hs2 Hc2];
      [by rewrite Hb|done|done|done|].
    split; [done|]. by rewrite <- Hb.
Qed.

End sweep_layout.

(** ** The layout of a recorded tape *)

Section tape_layout.

(** The range [r] is well formed and lies in [0, n). *)
Definition range_within (r : IndexRange) (n : Z) : Prop :=
  0 ≤ range_begin r ∧ range_begin r ≤ range_end r ∧ range_end r ≤ n.

(** The operand slots of an [in] field lie in [0, n). *)
Definition operands_within (i : OpIn) (n : Z) : Prop :=
  match i with
  | In_Array1 j => 0 ≤ j < n
  | In_ScalarScalar l r => 0 ≤ l < n ∧ 0 ≤ r < n
  | In_Range r => range_within r n
  | In_RangePair l r => range_within l n ∧ range_within r n
  | In_RangeArrayPair l r => range_within l n ∧ 0 ≤ r < n
  | In_ArrayRangePair l r => 0 ≤ l < n ∧ range_within r n
  end.

(** The [out] field that [rec] builds for an operator recorded when the
    trace has [out_begin] slots. *)
Definition rec_out (OP : OpType) (i : OpIn) (c : OpConst) (out_begin : Z)
  : OpOut :=
  if out_is_scalar OP then Out_Scalar out_begin
  else Out_Range (mkRange out_begin (out_begin + output_range_size i c)).

(** The operators [ovs] follow one another as [rec] appends them to a trace
    of [n] slots: each reads slots that exist when it is recorded and writes
    the slots that come next. *)
Fixpoint recorded (n : Z) (ovs : list OpVariant) : Prop :=
  match ovs with
  | [] => True
  | o :: rest =>
      operands_within (ov_in o) n ∧
      ov_out o = rec_out (ov_type o) (ov_in o) (ov_constant o) n ∧
      recorded (n + out_size (ov_out o)) rest
  end.

(** The slots written by the operators [ovs]. *)
Definition outputs_size (ovs : list OpVariant) : Z :=
  foldr (λ o s, out_size (ov_out o) + s) 0 ovs.

(** The invariant of a tape under recording. *)
Definition Tape_wf (t : Tape) : Prop :=
  0 ≤ n_input_size t ∧
  recorded (n_input_size t) (operations t) ∧
  n_trace_size t = n_input_size t + outputs_size (operations t).

Lemma output_range_size_nonneg i c n :
  operands_within i n → 0 ≤ output_range_size i c.
Proof.
  unfold operands_within, range_within, output_range_size, range_size.
  destruct i, c; try lia.
Qed.

Lemma rec_out_size OP i c n b :
  operands_within i n → 0 ≤ out_size (rec_out OP i c b).
Proof.
  intros H. unfold rec_out. destruct (out_is_scalar OP); cbn; [lia|].
  unfold range_size. cbn. pose proof (output_range_size_nonneg i c n H). lia.
Qed.

Lemma operands_within_mono i n n' :
  n ≤ n' → operands_within i n → operands_within i n'.
Proof.
  unfold operands_within, range_within. destruct i; lia.
Qed.

Lemma recorded_app ovs : ∀ n o,
  recorded n ovs →
  operands_within (ov_in o) (n + outputs_size ovs) →
  ov_out o = rec_out (ov_type o) (ov_in o) (ov_constant o)
               (n + outputs_size ovs) →
  recorded n (ovs ++ [o]).
Proof.
  induction ovs as [|o' ovs IH]; intros n o Hr Hin Hout.
  - cbn in *. rewrite Z.add_0_r in *. done.
  - destruct Hr as (Hin' & Hout' & Hr). cbn [app recorded].
    split; [done|]. split; [done|]. apply IH; [done|..].
    + cbn [outputs_size foldr] in Hin. fold (outputs_size ovs) in Hin.
      by rewrite <- Z.add_assoc.
    + cbn [outputs_size foldr] in Hout. fold (outputs_size ovs) in Hout.
      by rewrite <- Z.add_assoc.
Qed.

Lemma outputs_size_app ovs o :
  outputs_size (ovs ++ [o]) = outputs_size ovs + out_size (ov_out o).
Proof.
  unfold outputs_size. induction ovs as [|o' ovs IH]; cbn; [lia|].
  rewrite IH. lia.
Qed.

Lemma outputs_size_nonneg ovs : ∀ n, recorded n ovs → 0 ≤ outputs_size ovs.
Proof.
  induction ovs as [|o ovs IH]; intros n Hr; [done|].
  destruct Hr as (Hin & Hout & Hr). cbn [outputs_size foldr].
  fold (outputs_size ovs). pose proof (IH _ Hr).
  rewrite Hout. pose proof (rec_out_size (ov_type o) _ (ov_constant o) n n Hin).
  lia.
Qed.

Lemma rec_layout (OP : OpType) (i : OpIn) (c : OpConst) (t : Tape) :
  Tape_wf t → operands_within i (n_trace_size t) →
  rec OP i c t =
    (n_trace_size t,
     mkTape (n_input_size t)
       (n_trace_size t + out_size (rec_out OP i c (n_trace_size t)))
       (operations t ++ [mkOp OP i c (rec_out OP i c (n_trace_size t))])
       (initial_values t)) ∧
  0 ≤ out_size (rec_out OP i c (n_trace_size t)) ∧
  Tape_wf (rec OP i c t).2.
Proof.
  intros (Hn & Hr & Hsz) Hin.
  assert (rec OP i c t =
    (n_trace_size t,
     mkTape (n_input_size t)
       (n_trace_size t + out_size (rec_out OP i c (n_trace_size t)))
       (operations t ++ [mkOp OP i c (rec_out OP i c (n_trace_size t))])
       (initial_values t))) as ->.
  { unfold rec, op_register, rec_out, trace_size. cbn [ov_out].
    by destruct (out_is_scalar OP). }
  pose proof (rec_out_size OP i c _ (n_trace_size t) Hin) as Hout.
  split; [done|]. split; [done|].
  cbn [snd]. split; [done|]. split.
  - apply recorded_app; [done|..];
      cbn [ov_in ov_out ov_type ov_constant n_input_size];
      by rewrite <- Hsz.
  - cbn [n_trace_size n_input_size operations].
    rewrite outputs_size_app. cbn [ov_out]. lia.
Qed.

Lemma Tape_wf_trace_size t : Tape_wf t → 0 ≤ n_trace_size t.
Proof.
  intros (Hn & Hr & ->). pose proof (outputs_size_nonneg _ _ Hr). lia.
Qed.

(** Every operator of the tape passed the assertions of its constructor. *)
Definition built (t : Tape) : Prop :=
  Forall (λ o, constructor_asserts o = true) (operations t).

Lemma rec_built (OP : OpType) (i : OpIn) (c : OpConst) (t : Tape) :
  built t →
  constructor_asserts (mkOp OP i c (rec_out OP i c (n_trace_size t))) = true →
  built (rec OP i c t).2.
Proof.
  intros Hb Hc. unfold built, rec, op_register, trace_size. cbn.
  apply Forall_app. split; [done|]. constructor; [|done].
  unfold rec_out in Hc. by destruct (out_is_scalar OP).
Qed.

(** X8 — [Tape::rec].  On a tape that meets the recording invariant, [rec]
    called with operands that are slots of the trace, for an operator whose
    constructor passes its assertions on these operands and on the output
    that [rec] lays out, returns the former [n_trace_size], appends exactly
    this operator, whose output starts at this slot and is one slot for a
    scalar operator and [output_range_size(in, constant)] slots otherwise,
    grows [n_trace_size] by the size of this output, leaves the inputs
    alone, and the tape meets the invariant again; when all the operators
    of the tape had passed the assertions of their constructors, all of them
    still have. *)
Theorem rec_keeps_layout (OP : OpType) (i : OpIn) (c : OpConst) (t : Tape) :
  Tape_wf t → operands_within i (n_trace_size t) →
  constructor_asserts (mkOp OP i c (rec_out OP i c (n_trace_size t))) = true →
  let out := rec_out OP i c (n_trace_size t) in
  rec OP i c t =
    (n_trace_size t,
     mkTape (n_input_size t) (n_trace_size t + out_size out)
            (operations t ++ [mkOp OP i c out]) (initial_values t)) ∧
  n_trace_size t ≤ n_trace_size (rec OP i c t).2 ∧
  Tape_wf (rec OP i c t).2 ∧
  (built t → built (rec OP i c t).2).
Proof.
  intros Hwf Hin Hc. cbv zeta.
  destruct (rec_layout OP i c t Hwf Hin) as (He & Hout & Hwf').
  split; [done|]. split; [rewrite He; cbn; lia|]. split; [done|].
  intros Hb. by apply rec_built.
Qed.

(** The difference of two vectors of two inputs each. *)
Lemma rec_keeps_layout_witness :
  let t := mkTape 4 4 [] [1%float; 2%float; 3%float; 4%float] in
  let i := In_RangePair (mkRange 0 2) (mkRange 2 4) in
  rec (MinusVectorVector FreeFree) i Const_None t =
    (4, mkTape 4 6
          [mkOp (MinusVectorVector FreeFree) i Const_None
             (Out_Range (mkRange 4 6))]
          [1%float; 2%float; 3%float; 4%float]) ∧
  Tape_wf (rec (MinusVectorVector FreeFree) i Const_None t).2 ∧
  built (rec (MinusVectorVector FreeFree) i Const_None t).2.
Proof.
  cbv zeta.
  destruct (rec_keeps_layout (MinusVectorVector FreeFree)
              (In_RangePair (mkRange 0 2) (mkRange 2 4)) Const_None
              (mkTape 4 4 [] [1%float; 2%float; 3%float; 4%float]))
    as (He & _ & Hwf & Hb).
  - split; [by cbn|]. split; [done|]. reflexivity.
  - cbn. unfold range_within. cbn. lia.
  - reflexivity.
  - split; [exact He|]. split; [exact Hwf|]. apply Hb. constructor.
Defined.

End tape_layout.

(** ** The recording functions keep the layout *)

Section recorders_layout.

(** The spy [s] stands for slots of the tape [t], as many as its tensor has
    values, and its tensor holds as many values as its dimensions say. *)
Definition Spy_on (s : Spy) (t : Tape) : Prop :=
  val_size (tensor s) = tensor_size (tensor s) ∧
  0 ≤ tape_begin s ∧ tape_end s ≤ n_trace_size t.

(** The call that led from [t] to [t'] recorded one operator and returned
    the spy [s] that stands for the slots of its output. *)
Definition recording (t : Tape) (s : Spy) (t' : Tape) : Prop :=
  Tape_wf t' ∧ Spy_on s t' ∧
  tape_begin s = n_trace_size t ∧ tape_end s = n_trace_size t' ∧
  n_input_size t' = n_input_size t ∧
  initial_values t' = initial_values t ∧
  ∃ o, operations t' = operations t ++ [o].

(** What a throwing call leaves behind. *)
Definition uncompatible (a b : Tensor) (e : exception) (t t' : Tape)
  : Prop :=
  t' = t ∧ e = logic_error "Uncompatible tensor dimensions" ∧
  dim a ≠ dim b ∧ is_scalar a = false ∧ is_scalar b = false.

Lemma length_vector_binary f a b :
  length (vector_binary f a b) =
    if Z.of_nat (length a) =? 1 then length b else length a.
Proof.
  unfold vector_binary. destruct (Z.of_nat (length a) =? 1).
  - by rewrite length_map.
  - destruct (Z.of_nat (length b) =? 1).
    + by rewrite length_map.
    + by rewrite length_imap.
Qed.

(** The value of a binary operation on consistent tensors is consistent,
    and has the size of the operand that is not broadcast. *)
Lemma tensor_binary_size f a b :
  val_size a = tensor_size a → val_size b = tensor_size b →
  match tensor_binary f a b with
  | Ok t =>
      val_size t = tensor_size t ∧
      tensor_size t = if dim_eq a b then tensor_size a
                      else if is_scalar a then tensor_size b
                      else tensor_size a
  | Throw e =>
      e = logic_error "Uncompatible tensor dimensions" ∧
      dim a ≠ dim b ∧ is_scalar a = false ∧ is_scalar b = false
  end.
Proof.
  intros Ha Hb. unfold tensor_binary, dim_eq.
  unfold is_scalar, val_size, tensor_size in *.
  case_bool_decide as Hd.
  - cbn [val dim]. rewrite length_vector_binary. split; [|done].
    destruct (Z.of_nat (length (val a)) =? 1) eqn:E; [|done].
    rewrite Hb, <- Hd. done.
  - destruct (product (dim a) =? 1) eqn:Ea.
    + cbn [val dim]. rewrite length_vector_binary, Ha, Ea. done.
    + destruct (product (dim b) =? 1) eqn:Eb.
      * cbn [val dim]. rewrite length_vector_binary, Ha, Ea. done.
      * done.
Qed.

Lemma Spy_on_scalar s t :
  Spy_on s t → is_scalar (tensor s) = true →
  operands_within (to_Scalar s) (n_trace_size t).
Proof.
  intros (Hv & H0 & Hn) Hs. unfold is_scalar in Hs. apply Z.eqb_eq in Hs.
  unfold to_Scalar, tape_end, tape_begin, tensor_size in *. cbn. lia.
Qed.

Lemma Spy_on_range s t :
  Spy_on s t → range_within (to_IndexRange s) (n_trace_size t).
Proof.
  intros (Hv & H0 & Hn).
  unfold range_within, to_IndexRange, tape_end, tape_begin in *.
  cbn. unfold val_size in *. lia.
Qed.

Lemma range_size_to_IndexRange s :
  range_size (to_IndexRange s) = val_size (tensor s).
Proof. unfold range_size, to_IndexRange, tape_end, tape_begin. cbn. lia. Qed.

(** [rec] followed by [return Spy(value, tape, out)]. *)
Lemma rec_return_recording OP i c value t :
  Tape_wf t → operands_within i (n_trace_size t) →
  val_size value = tensor_size value →
  out_size (rec_out OP i c (n_trace_size t)) = val_size value →
  recording t (Spy_register value (rec OP i c t).1) (rec OP i c t).2.
Proof.
  intros Hwf Hin Hv Hsz.
  destruct (rec_layout OP i c t Hwf Hin) as (He & Hout & Hwf').
  pose proof (Tape_wf_trace_size t Hwf) as H0.
  split; [done|]. rewrite He in *. cbn [fst snd].
  unfold Spy_on, tape_end, tape_begin. cbn.
  repeat split; try done; try lia. by eexists.
Qed.

(** Finishes a branch that records [OP] and returns the value [v]. *)
Ltac rec_branch v :=
  match goal with
  | |- context [rec ?OP ?i ?c ?t] =>
      let H := fresh "Hrec" in
      pose proof (rec_return_recording OP i c v t) as H;
      destruct (rec OP i c t) as [? ?]; cbn [return_Spy fst snd] in H |- *;
      apply H; clear H
  end.

Lemma dim_eq_sizes a b :
  dim_eq a b = true → tensor_size a = tensor_size b.
Proof.
  unfold dim_eq, tensor_size. intros H%bool_decide_eq_true. by rewrite H.
Qed.

Lemma is_scalar_true x : is_scalar x = true → tensor_size x = 1.
Proof. unfold is_scalar. lia. Qed.

(** The size of the output that [rec] lays out. *)
Lemma out_size_rec_out OP i c n :
  out_size (rec_out OP i c n) =
    if out_is_scalar OP then 1 else output_range_size i c.
Proof.
  unfold rec_out. destruct (out_is_scalar OP); [done|].
  cbn. unfold range_size. cbn. lia.
Qed.

Ltac rec_size :=
  rewrite out_size_rec_out;
  repeat match goal with
         | H : out_is_scalar _ = _ |- _ => rewrite H
         end;
  unfold to_Range, to_Scalar, Const_Array1_of_Tensor, Const_Vector_of_Tensor;
  cbn [output_range_size];
  rewrite ?range_size_to_IndexRange;
  repeat match goal with
         | H : is_scalar _ = true |- _ => apply is_scalar_true in H
         | H : Spy_on _ _ |- _ => destruct H as (? & ? & ?)
         end;
  unfold val_size in *; lia.

Ltac rec_operands :=
  repeat match goal with
         | H : Spy_on ?s ?t, H' : is_scalar (tensor ?s) = true |- _ =>
             lazymatch goal with
             | _ : operands_within (to_Scalar s) (n_trace_size t) |- _ => fail
             | _ => pose proof (Spy_on_scalar s t H H')
             end
         | H : Spy_on ?s ?t |- _ =>
             lazymatch goal with
             | _ : range_within (to_IndexRange s) (n_trace_size t) |- _ => fail
             | _ => pose proof (Spy_on_range s t H)
             end
         end;
  cbn [operands_within to_Scalar to_Range] in *; tauto.

Lemma record_spy_spy_layout SS VV SV VS swap f a b t :
  out_is_scalar SS = true → out_is_scalar VV = false →
  out_is_scalar SV = false → out_is_scalar VS = false →
  Tape_wf t → Spy_on a t → Spy_on b t →
  match record_spy_spy SS VV SV VS swap
          (tensor_binary f (tensor a) (tensor b)) a b t with
  | (Ok s, t') => recording t s t'
  | (Throw e, t') => uncompatible (tensor a) (tensor b) e t t'
  end.
Proof.
  intros HSS HVV HSV HVS Hwf Ha Hb.
  pose proof (tensor_binary_size f (tensor a) (tensor b)
                (proj1 Ha) (proj1 Hb)) as Hval.
  unfold record_spy_spy.
  destruct (dim_eq (tensor a) (tensor b)) eqn:Hd.
  { pose proof (dim_eq_sizes _ _ Hd) as Hsz.
    destruct (tensor_binary f (tensor a) (tensor b)) as [v|e];
      [|by destruct Hval as (_ & Hn & _);
         apply bool_decide_eq_true in Hd].
    destruct Hval as [Hv Hvs].
    destruct (is_scalar (tensor a)) eqn:Hsc.
    - assert (is_scalar (tensor b) = true) as Hscb
        by (unfold is_scalar in *; by rewrite <- Hsz).
      rec_branch v; [done|rec_operands|done|rec_size].
    - rec_branch v; [done|rec_operands|done|rec_size]. }
  destruct (is_scalar (tensor a)) eqn:Hsca.
  { destruct (tensor_binary f (tensor a) (tensor b)) as [v|e];
      [|destruct Hval as (_ & _ & ? & _); congruence].
    destruct Hval as [Hv Hvs].
    destruct swap; (rec_branch v; [done|rec_operands|done|rec_size]). }
  destruct (is_scalar (tensor b)) eqn:Hscb.
  { destruct (tensor_binary f (tensor a) (tensor b)) as [v|e];
      [|destruct Hval as (_ & _ & _ & ?); congruence].
    destruct Hval as [Hv Hvs].
    rec_branch v; [done|rec_operands|done|rec_size]. }
  split; [done|]. split; [done|]. split; [|done].
  intros He. unfold dim_eq in Hd. by apply bool_decide_eq_false in Hd.
Qed.

Lemma record_spy_tensor_layout SS VV SV VS (k_is_left : bool) f (x : Spy)
    (k : Tensor) t :
  out_is_scalar SS = true → out_is_scalar VV = false →
  out_is_scalar SV = false → out_is_scalar VS = false →
  Tape_wf t → Spy_on x t → val_size k = tensor_size k →
  let a := if k_is_left then k else tensor x in
  let b := if k_is_left then tensor x else k in
  match record_spy_tensor SS VV SV VS k_is_left (tensor_binary f a b)
          x k t with
  | (Ok s, t') => recording t s t'
  | (Throw e, t') => uncompatible a b e t t'
  end.
Proof.
  intros HSS HVV HSV HVS Hwf Hx Hk. cbv zeta.
  unfold record_spy_tensor. cbv zeta.
  set (a := if k_is_left then k else tensor x).
  set (b := if k_is_left then tensor x else k).
  assert (val_size a = tensor_size a ∧ val_size b = tensor_size b)
    as [Hva Hvb] by (unfold a, b; destruct k_is_left, Hx; done).
  pose proof (tensor_binary_size f a b Hva Hvb) as Hval.
  destruct (dim_eq a b) eqn:Hd.
  { pose proof (dim_eq_sizes _ _ Hd) as Hsz.
    destruct (tensor_binary f a b) as [v|e];
      [|by destruct Hval as (_ & Hn & _);
         apply bool_decide_eq_true in Hd].
    destruct Hval as [Hv Hvs].
    destruct (is_scalar a) eqn:Hsc.
    - assert (is_scalar (tensor x) = true) as Hscx
        by (unfold a, b, is_scalar in *; destruct k_is_left; congruence).
      rec_branch v; [done|rec_operands|done|rec_size].
    - assert (tensor_size v = tensor_size (tensor x)) as Hvx
        by (unfold a, b in *; destruct k_is_left; congruence).
      rec_branch v; [done|rec_operands|done|rec_size]. }
  destruct (is_scalar a) eqn:Hsca.
  { destruct (tensor_binary f a b) as [v|e];
      [|destruct Hval as (_ & _ & ? & _); congruence].
    destruct Hval as [Hv Hvs]. unfold a, b in *.
    destruct k_is_left; (rec_branch v; [done|rec_operands|done|rec_size]). }
  destruct (is_scalar b) eqn:Hscb.
  { destruct (tensor_binary f a b) as [v|e];
      [|destruct Hval as (_ & _ & _ & ?); congruence].
    destruct Hval as [Hv Hvs]. unfold a, b in *.
    destruct k_is_left; (rec_branch v; [done|rec_operands|done|rec_size]). }
  split; [done|]. split; [done|]. split; [|done].
  intros He. unfold dim_eq in Hd. by apply bool_decide_eq_false in Hd.
Qed.

Lemma rec_unary_layout S V c x value t :
  out_is_scalar S = true → out_is_scalar V = false →
  Tape_wf t → Spy_on x t →
  val_size value = tensor_size value →
  tensor_size value = tensor_size (tensor x) →
  recording t
    (Spy_register value
       (if is_scalar (tensor x) then rec S (to_Scalar x) c t
        else rec V (to_Range x) c t).1)
    (if is_scalar (tensor x) then rec S (to_Scalar x) c t
     else rec V (to_Range x) c t).2.
Proof.
  intros HS HV Hwf Hx Hv Hvx.
  destruct (is_scalar (tensor x)) eqn:Hsc.
  - apply rec_return_recording; [done|rec_operands|done|rec_size].
  - apply rec_return_recording; [done|rec_operands|done|].
    rewrite out_size_rec_out, HV. destruct Hx as (? & ? & ?).
    unfold to_Range. destruct c; cbn [output_range_size];
      rewrite ?range_size_to_IndexRange; lia.
Qed.

Ltac unary_branch value :=
  match goal with
  | |- context [if is_scalar (tensor ?x) then rec ?S (to_Scalar ?x) ?c ?t
                else rec ?V (to_Range ?x) ?c ?t] =>
      let H := fresh "Hrec" in
      pose proof (rec_unary_layout S V c x value t) as H;
      destruct (if is_scalar (tensor x) then rec S (to_Scalar x) c t
                else rec V (to_Range x) c t) as [? ?];
      cbn [return_Spy fst snd] in H |- *; apply H; clear H
  end.

Lemma fill_Tensor_dim_size c d :
  0 ≤ product d →
  val_size (fill c (Tensor_dim d)) = product d ∧
  tensor_size (fill c (Tensor_dim d)) = product d.
Proof.
  intros Hd. unfold val_size, tensor_size, fill, Tensor_dim. cbn.
  rewrite length_map, length_replicate. lia.
Qed.

Lemma Spy_on_product s t : Spy_on s t → 0 ≤ product (dim (tensor s)).
Proof.
  intros (Hv & _). unfold val_size, tensor_size in Hv. lia.
Qed.

(** The outcome of a call on two spies. *)
Definition spy_spy_outcome (a b : Spy) (t : Tape) (r : Result Spy * Tape)
  : Prop :=
  match r with
  | (Ok s, t') => recording t s t'
  | (Throw e, t') =>
      uncompatible (tensor a) (tensor b) e t t' ∧
      tape_begin a ≠ tape_begin b
  end.

Lemma record_spy_spy_outcome SS VV SV VS swap f a b t :
  out_is_scalar SS = true → out_is_scalar VV = false →
  out_is_scalar SV = false → out_is_scalar VS = false →
  Tape_wf t → Spy_on a t → Spy_on b t →
  tape_begin a ≠ tape_begin b →
  spy_spy_outcome a b t
    (record_spy_spy SS VV SV VS swap
       (tensor_binary f (tensor a) (tensor b)) a b t).
Proof.
  intros HSS HVV HSV HVS Hwf Ha Hb Hne.
  pose proof (record_spy_spy_layout SS VV SV VS swap f a b t
                HSS HVV HSV HVS Hwf Ha Hb) as H.
  unfold spy_spy_outcome.
  destruct (record_spy_spy _ _ _ _ _ _ _ _ _) as [[s|e] t']; [done|].
  by split.
Qed.

Lemma Spy_minus_outcome a b t :
  Tape_wf t → Spy_on a t → Spy_on b t →
  spy_spy_outcome a b t (Spy_minus a b t).
Proof.
  intros Hwf Ha Hb. unfold Spy_minus.
  destruct (tape_begin a =? tape_begin b) eqn:E.
  - pose proof (fill_Tensor_dim_size 0%float (dim (tensor a))
                  (Spy_on_product a t Ha)) as [H1 H2].
    unfold spy_spy_outcome.
    unary_branch (fill 0%float (Tensor_dim (dim (tensor a)))); done.
  - apply record_spy_spy_outcome; try done. by apply Z.eqb_neq.
Qed.

Lemma Spy_divide_outcome a b t :
  Tape_wf t → Spy_on a t → Spy_on b t →
  spy_spy_outcome a b t (Spy_divide a b t).
Proof.
  intros Hwf Ha Hb. unfold Spy_divide.
  destruct (tape_begin a =? tape_begin b) eqn:E.
  - pose proof (fill_Tensor_dim_size 1%float (dim (tensor a))
                  (Spy_on_product a t Ha)) as [H1 H2].
    unfold spy_spy_outcome.
    unary_branch (fill 1%float (Tensor_dim (dim (tensor a)))); done.
  - apply record_spy_spy_outcome; try done. by apply Z.eqb_neq.
Qed.

Lemma Spy_plus_outcome a b t :
  Tape_wf t → Spy_on a t → Spy_on b t →
  (tape_begin a = tape_begin b → dim (tensor a) = dim (tensor b)) →
  spy_spy_outcome a b t (Spy_plus a b t).
Proof.
  intros Hwf Ha Hb Hdim. unfold Spy_plus.
  destruct (tape_begin a =? tape_begin b) eqn:E.
  - apply Z.eqb_eq in E. specialize (Hdim E).
    pose proof (tensor_binary_size PrimFloat.add (tensor a) (tensor b)
                  (proj1 Ha) (proj1 Hb)) as Hval.
    destruct (tensor_binary PrimFloat.add (tensor a) (tensor b)) as [v|e];
      [|by destruct Hval as (_ & ? & _)].
    destruct Hval as [Hv Hvs]. unfold dim_eq in Hvs.
    rewrite bool_decide_eq_true_2 in Hvs by done.
    unfold spy_spy_outcome. unary_branch v; done.
  - apply record_spy_spy_outcome; try done. by apply Z.eqb_neq.
Qed.

(** The slots of [a] and [b] do not overlap. *)
Definition spies_apart (a b : Spy) : Prop :=
  tape_end a ≤ tape_begin b ∨ tape_end b ≤ tape_begin a.

(** What keeps a call on two spies away from a failed assertion: neither
    tensor is null, as the operations on tensors assert; the two are one spy
    (the same first slot and, as the functions then assert, the same
    dimensions) or spies on slots that do not overlap, as the constructors
    of the operators assert; and the dimensions are equal or one of the two
    is a scalar, which keeps off [assert(false)]. *)
Definition spy_spy_asserts (a b : Spy) : Prop :=
  is_null (tensor a) = false ∧ is_null (tensor b) = false ∧
  ((tape_begin a = tape_begin b ∧ dim (tensor a) = dim (tensor b)) ∨
   spies_apart a b) ∧
  (dim (tensor a) = dim (tensor b) ∨
   is_scalar (tensor a) = true ∨ is_scalar (tensor b) = true).

Lemma return_Spy_snd value out tape : (return_Spy value out tape).2 = tape.
Proof. unfold return_Spy. by destruct value. Qed.

Lemma Spy_on_slots s t :
  Spy_on s t → is_null (tensor s) = false → tape_begin s < tape_end s.
Proof.
  intros (Hv & H0 & Hn) Hnull. unfold is_null in Hnull.
  apply Z.eqb_neq in Hnull. unfold tape_end, tape_begin, val_size in *. lia.
Qed.

(** Turns a boolean assertion into arithmetic. *)
Ltac asserts_to_Prop :=
  unfold scalar_outside, scalar_before_or_after, ranges_apart;
  rewrite ?andb_true_iff, ?orb_true_iff, ?negb_true_iff,
    ?Z.eqb_eq, ?Z.eqb_neq, ?Z.ltb_lt, ?Z.leb_le, ?Z.geb_le.

(** The facts on the slots of the spies at hand. *)
Ltac slots_facts :=
  repeat match goal with
         | H : Spy_on _ _ |- _ => destruct H as (? & ? & ?)
         | H : is_scalar _ = true |- _ => apply is_scalar_true in H
         | H : dim_eq _ _ = true |- _ => apply dim_eq_sizes in H
         end;
  unfold spies_apart, range_size, to_IndexRange in *;
  cbn [range_begin range_end] in *;
  unfold tape_end, tape_begin, val_size in *.

(** Finishes a branch that records one operator: the tape it leaves is
    built when the tape was. *)
Ltac built_branch :=
  match goal with
  | |- context [rec ?OP ?i ?c ?t] =>
      let H := fresh "Hrec" in
      pose proof (rec_built OP i c t) as H;
      destruct (rec OP i c t) as [? ?];
      rewrite ?return_Spy_snd; cbn [fst snd] in H |- *;
      apply H; clear H; [assumption|];
      unfold rec_out, to_Scalar, to_Range, Const_Array1_of_Tensor,
        Const_Vector_of_Tensor;
      cbn [out_is_scalar constructor_asserts ov_type ov_in ov_constant
             ov_out output_range_size];
      try reflexivity;
      asserts_to_Prop; slots_facts; try lia
  end.

Lemma record_spy_spy_apart a b t :
  Spy_on a t → Spy_on b t → spy_spy_asserts a b →
  tape_begin a ≠ tape_begin b → spies_apart a b.
Proof.
  intros Ha Hb (_ & _ & [[? _]|?] & _) Hne; [done|done].
Qed.

Lemma Spy_minus_built a b t :
  Spy_on a t → Spy_on b t → spy_spy_asserts a b →
  built t → built (Spy_minus a b t).2.
Proof.
  intros Ha Hb Hasserts Hbuilt. unfold Spy_minus, record_spy_spy.
  destruct (tape_begin a =? tape_begin b) eqn:E.
  - destruct (is_scalar (tensor a)); built_branch.
  - apply Z.eqb_neq in E.
    pose proof (record_spy_spy_apart a b t Ha Hb Hasserts E) as Hapart.
    destruct Hasserts as (_ & _ & _ & Hcompat).
    destruct (dim_eq (tensor a) (tensor b)) eqn:Hd.
    { destruct (is_scalar (tensor a)) eqn:Hsa; built_branch. }
    destruct (is_scalar (tensor a)) eqn:Hsa; [built_branch|].
    destruct (is_scalar (tensor b)) eqn:Hsb; [built_branch|].
    exfalso. unfold dim_eq in Hd. apply bool_decide_eq_false in Hd.
    by destruct Hcompat as [?|[?|?]].
Qed.

Lemma Spy_divide_built a b t :
  Spy_on a t → Spy_on b t → spy_spy_asserts a b →
  built t → built (Spy_divide a b t).2.
Proof.
  intros Ha Hb Hasserts Hbuilt. unfold Spy_divide, record_spy_spy.
  destruct (tape_begin a =? tape_begin b) eqn:E.
  - destruct (is_scalar (tensor a)); built_branch.
  - apply Z.eqb_neq in E.
    pose proof (record_spy_spy_apart a b t Ha Hb Hasserts E) as Hapart.
    destruct Hasserts as (_ & _ & _ & Hcompat).
    destruct (dim_eq (tensor a) (tensor b)) eqn:Hd.
    { destruct (is_scalar (tensor a)) eqn:Hsa; built_branch. }
    destruct (is_scalar (tensor a)) eqn:Hsa; [built_branch|].
    destruct (is_scalar (tensor b)) eqn:Hsb; [built_branch|].
    exfalso. unfold dim_eq in Hd. apply bool_decide_eq_false in Hd.
    by destruct Hcompat as [?|[?|?]].
Qed.

Lemma Spy_plus_built a b t :
  Spy_on a t → Spy_on b t → spy_spy_asserts a b →
  built t → built (Spy_plus a b t).2.
Proof.
  intros Ha Hb Hasserts Hbuilt. unfold Spy_plus, record_spy_spy.
  destruct (tape_begin a =? tape_begin b) eqn:E.
  - destruct (is_scalar (tensor a)); built_branch.
  - apply Z.eqb_neq in E.
    pose proof (record_spy_spy_apart a b t Ha Hb Hasserts E) as Hapart.
    destruct Hasserts as (_ & _ & _ & Hcompat).
    destruct (dim_eq (tensor a) (tensor b)) eqn:Hd.
    { destruct (is_scalar (tensor a)) eqn:Hsa; built_branch. }
    destruct (is_scalar (tensor a)) eqn:Hsa; [built_branch|].
    destruct (is_scalar (tensor b)) eqn:Hsb; [built_branch|].
    exfalso. unfold dim_eq in Hd. apply bool_decide_eq_false in Hd.
    by destruct Hcompat as [?|[?|?]].
Qed.

(** The functions of the library on two spies that are embedded here. *)
Definition spy_spy_functions : list (Spy → Spy → Tape → Result Spy * Tape) :=
  [Spy_minus; Spy_divide; Spy_plus].

(** X9 — recording an operation on two spies.  For [a - b], [a / b] and
    [a + b] on a tape that meets the recording invariant, with [a] and [b]
    standing for slots of this tape and meeting the assertions on the path
    of the call (neither tensor is null; [a] and [b] are one spy, or spies
    on slots that do not overlap; the dimensions are equal or one of the two
    is a scalar): the call returns a spy, it appends exactly one operator,
    leaves the inputs of the tape alone, the spy stands for exactly the
    slots added to the trace, and the tape meets the invariant again; the
    operator passes the assertions of its constructor, so that a tape whose
    operators all had passed them still has this property. *)
Theorem spy_spy_recording f (a b : Spy) (t : Tape) :
  f ∈ spy_spy_functions →
  Tape_wf t → Spy_on a t → Spy_on b t → spy_spy_asserts a b →
  ∃ s t', f a b t = (Ok s, t') ∧ recording t s t' ∧ (built t → built t').
Proof.
  intros Hf Hwf Ha Hb Hasserts.
  assert (tape_begin a = tape_begin b → dim (tensor a) = dim (tensor b))
    as Hdim.
  { intros E. destruct Hasserts as (Hna & Hnb & [[_ ?]|Hapart] & _); [done|].
    pose proof (Spy_on_slots a t Ha Hna).
    pose proof (Spy_on_slots b t Hb Hnb).
    unfold spies_apart in Hapart. lia. }
  assert (spy_spy_outcome a b t (f a b t) ∧
          (built t → built (f a b t).2)) as [Hout Hbuilt].
  { unfold spy_spy_functions in Hf.
    repeat (apply elem_of_cons in Hf as [->|Hf]).
    - split; [by apply Spy_minus_outcome|by apply Spy_minus_built].
    - split; [by apply Spy_divide_outcome|by apply Spy_divide_built].
    - split; [by apply Spy_plus_outcome|by apply Spy_plus_built].
    - by apply elem_of_nil in Hf. }
  unfold spy_spy_outcome in Hout.
  destruct (f a b t) as [[s|e] t'].
  - by exists s, t'.
  - exfalso. destruct Hout as [(_ & _ & Hd & Hsa & Hsb) _].
    destruct Hasserts as (_ & _ & _ & [?|[?|?]]); congruence.
Qed.

(** A vector of two inputs and a scalar input, and their difference. *)
Lemma spy_spy_recording_witness :
  let t := mkTape 3 3 [] [1.5%float; 2%float; 4%float] in
  let a := Spy_register (Tensor_vector [1.5%float; 2%float]) 0 in
  let b := Spy_register (Tensor_scalar 4%float) 2 in
  ∃ s t', Spy_minus a b t = (Ok s, t') ∧ recording t s t' ∧
          operations t' =
            [mkOp (MinusVectorScalar FreeFree)
               (In_RangeArrayPair (mkRange 0 2) 2) Const_None
               (Out_Range (mkRange 3 5))] ∧
          built t'.
Proof.
  cbv zeta.
  destruct (spy_spy_recording Spy_minus
              (Spy_register (Tensor_vector [1.5%float; 2%float]) 0)
              (Spy_register (Tensor_scalar 4%float) 2)
              (mkTape 3 3 [] [1.5%float; 2%float; 4%float]))
    as (s & t' & He & Hr & Hb).
  - by left.
  - split; [by cbn|]. split; [done|]. reflexivity.
  - split; [reflexivity|]. by cbn.
  - split; [reflexivity|]. by cbn.
  - split; [reflexivity|]. split; [reflexivity|]. split.
    + right. left. by cbn.
    + right. right. reflexivity.
  - exists s, t'. split; [exact He|]. split; [exact Hr|].
    injection He as <- <-. split; [reflexivity|]. apply Hb. constructor.
Defined.

(** The outcome of a call on a spy and a tensor; [a] and [b] are the
    tensors of the operation, in its order. *)
Definition call_outcome (a b : Tensor) (t : Tape) (r : Result Spy * Tape)
  : Prop :=
  match r with
  | (Ok s, t') => recording t s t'
  | (Throw e, t') => uncompatible a b e t t'
  end.

Lemma is_literal_scalar c b : is_literal c b = true → is_scalar b = true.
Proof. unfold is_literal. by intros [? _]%andb_true_iff. Qed.

(** The branch of a literal operand: a unary operator on the spy [x]. *)
Lemma literal_unary_outcome S V f (a b : Tensor) (x : Spy) t :
  out_is_scalar S = true → out_is_scalar V = false →
  Tape_wf t → Spy_on x t →
  val_size a = tensor_size a → val_size b = tensor_size b →
  (a = tensor x ∧ is_scalar b = true) ∨ (b = tensor x ∧ is_scalar a = true) →
  call_outcome a b t
    (let '(out, tape') := rec_unary S V x t in
     return_Spy (tensor_binary f a b) out tape').
Proof.
  intros HS HV Hwf Hx Ha Hb Hlit.
  pose proof (tensor_binary_size f a b Ha Hb) as Hval.
  destruct (tensor_binary f a b) as [v|e].
  - destruct Hval as [Hv Hvs]. unfold call_outcome, rec_unary.
    unary_branch v; try done.
    rewrite Hvs. destruct (dim_eq a b) eqn:Hd.
    + pose proof (dim_eq_sizes _ _ Hd).
      destruct Hlit as [[-> _]|[-> _]]; congruence.
    + destruct Hlit as [[-> Hs]|[-> Hs]].
      * destruct (is_scalar (tensor x)) eqn:E; [|done].
        apply is_scalar_true in E, Hs. congruence.
      * by rewrite Hs.
  - exfalso. destruct Hval as (_ & _ & H1 & H2).
    destruct Hlit as [[_ ?]|[_ ?]]; congruence.
Qed.

Section spy_tensor.
Variable std_pow : double → double → double.
Variables (x : Spy) (k : Tensor) (t : Tape).
Hypothesis Hwf : Tape_wf t.
Hypothesis Hx : Spy_on x t.
Hypothesis Hk : val_size k = tensor_size k.

Ltac literal_case :=
  apply literal_unary_outcome;
    [ done | done | done | done
    | first [done | apply Hx] | first [done | apply Hx]
    | first [ left; split; [done|]; eapply is_literal_scalar; eassumption
            | right; split; [done|]; eapply is_literal_scalar; eassumption ] ].

Ltac general_case left_ :=
  match goal with
  | |- call_outcome _ _ _ (record_spy_tensor ?SS ?VV ?SV ?VS _
                             (tensor_binary ?f _ _) _ _ _) =>
      apply (record_spy_tensor_layout SS VV SV VS left_ f x k t);
      done
  end.

Lemma Spy_minus_Tensor_outcome :
  call_outcome (tensor x) k t (Spy_minus_Tensor x k t).
Proof.
  unfold Spy_minus_Tensor. cbv zeta.
  destruct (is_literal 0%float k) eqn:E; [literal_case|general_case false].
Qed.

Lemma Spy_plus_Tensor_outcome :
  call_outcome (tensor x) k t (Spy_plus_Tensor x k t).
Proof.
  unfold Spy_plus_Tensor. cbv zeta.
  destruct (is_literal 0%float k) eqn:E; [literal_case|general_case false].
Qed.

Lemma Spy_divide_Tensor_outcome :
  call_outcome (tensor x) k t (Spy_divide_Tensor x k t).
Proof.
  unfold Spy_divide_Tensor. cbv zeta.
  destruct (is_literal 1%float k) eqn:E; [literal_case|general_case false].
Qed.

Lemma Spy_pow_outcome :
  call_outcome (tensor x) k t (Spy_pow std_pow x k t).
Proof.
  unfold Spy_pow. cbv zeta.
  destruct (is_literal (-1)%float k) eqn:E1; [literal_case|].
  destruct (is_literal 0%float k) eqn:E2; [literal_case|].
  destruct (is_literal 1%float k) eqn:E3; [literal_case|].
  destruct (is_literal 2%float k) eqn:E4; [literal_case|].
  destruct (is_literal 3%float k) eqn:E5; [literal_case|].
  general_case false.
Qed.

Lemma Tensor_minus_Spy_outcome :
  call_outcome k (tensor x) t (Tensor_minus_Spy k x t).
Proof.
  unfold Tensor_minus_Spy. cbv zeta.
  destruct (is_literal 0%float k) eqn:E; [literal_case|general_case true].
Qed.

Lemma Tensor_divide_Spy_outcome :
  call_outcome k (tensor x) t (Tensor_divide_Spy k x t).
Proof.
  unfold Tensor_divide_Spy. cbv zeta.
  destruct (is_literal 0%float k) eqn:E1; [literal_case|].
  destruct (is_literal 1%float k) eqn:E2; [literal_case|].
  general_case true.
Qed.

Lemma Tensor_pow_Spy_outcome :
  call_outcome k (tensor x) t (Tensor_pow_Spy std_pow k x t).
Proof.
  unfold Tensor_pow_Spy. cbv zeta.
  destruct (is_literal 0%float k) eqn:E1; [literal_case|].
  destruct (is_literal 1%float k) eqn:E2; [literal_case|].
  general_case true.
Qed.

Lemma Tensor_plus_Spy_outcome :
  call_outcome k (tensor x) t (Tensor_plus_Spy k x t).
Proof.
  pose proof Spy_plus_Tensor_outcome as H. unfold Tensor_plus_Spy.
  unfold call_outcome in *.
  destruct (Spy_plus_Tensor x k t) as [[s|e] t']; [done|].
  destruct H as (? & ? & ? & ? & ?). repeat split; try done; congruence.
Qed.

End spy_tensor.

(** What keeps a call on a spy and a tensor away from a failed assertion:
    neither tensor is null; the tensor is a scalar or a vector, as the
    constructors of the constants [OpConst::Array<1>] and [OpConst::Vector]
    assert; and the dimensions are equal or one of the two is a scalar. *)
Definition spy_tensor_asserts (x : Spy) (k : Tensor) : Prop :=
  is_null (tensor x) = false ∧ is_null k = false ∧
  (is_scalar k = true ∨ is_vector k = true) ∧
  (dim (tensor x) = dim k ∨
   is_scalar (tensor x) = true ∨ is_scalar k = true).

(** The branch of a literal operand leaves a built tape. *)
Lemma rec_unary_built S V x value t :
  constructor_asserts
    (mkOp S (In_Array1 0) Const_None (Out_Scalar 0)) = true →
  (∀ i y, constructor_asserts (mkOp V (In_Range i) Const_None (Out_Range y))
          = (range_size i =? range_size y)) →
  out_is_scalar S = true → out_is_scalar V = false →
  Spy_on x t → built t →
  built (let '(out, tape') := rec_unary S V x t in
         return_Spy value out tape').2.
Proof.
  intros HS HV HoS HoV Hx Hbuilt. unfold rec_unary.
  destruct (is_scalar (tensor x)) eqn:Hsc.
  - pose proof (rec_built S (to_Scalar x) Const_None t) as H.
    destruct (rec S (to_Scalar x) Const_None t) as [out t'].
    rewrite return_Spy_snd. apply H; [done|].
    unfold rec_out. rewrite HoS. clear -HS. unfold to_Scalar.
    destruct S; try done.
  - pose proof (rec_built V (to_Range x) Const_None t) as H.
    destruct (rec V (to_Range x) Const_None t) as [out t'].
    rewrite return_Spy_snd. apply H; [done|].
    unfold rec_out. rewrite HoV. unfold to_Range. rewrite HV.
    cbn [output_range_size]. unfold range_size. cbn [range_begin range_end].
    apply Z.eqb_eq. lia.
Qed.

Ltac literal_built :=
  apply rec_unary_built; [reflexivity|by intros|reflexivity|reflexivity|..];
  assumption.

(** The facts that the dimensions give on the sizes. *)
Lemma dim_eq_val_sizes a b :
  val_size a = tensor_size a → val_size b = tensor_size b →
  dim_eq a b = true → val_size a = val_size b.
Proof. intros Ha Hb Hd. apply dim_eq_sizes in Hd. congruence. Qed.

Ltac general_built :=
  unfold record_spy_tensor; lazy beta iota zeta;
  match goal with
  | Hc : _ ∨ _ ∨ _ |- _ =>
      repeat match goal with
             | |- context [dim_eq ?a ?b] =>
                 let Hd := fresh "Hd" in destruct (dim_eq a b) eqn:Hd
             | |- context [is_scalar ?a] =>
                 let Hs := fresh "Hs" in destruct (is_scalar a) eqn:Hs
             end;
      first
        [ built_branch
        | exfalso;
          repeat match goal with
                 | H : dim_eq _ _ = false |- _ =>
                     unfold dim_eq in H; apply bool_decide_eq_false in H
                 end;
          destruct Hc as [?|[?|?]]; congruence ]
  end.

Section spy_tensor_built.
Variable std_pow : double → double → double.

Lemma spy_tensor_built (x : Spy) (k : Tensor) (t : Tape) f :
  f ∈ [Spy_minus_Tensor; Spy_plus_Tensor; Spy_divide_Tensor;
       Spy_pow std_pow] →
  Spy_on x t → val_size k = tensor_size k →
  (dim (tensor x) = dim k ∨
   is_scalar (tensor x) = true ∨ is_scalar k = true) →
  built t → built (f x k t).2.
Proof.
  intros Hf Hx Hk Hcompat Hbuilt.
  pose proof (dim_eq_val_sizes (tensor x) k (proj1 Hx) Hk) as Hsz.
  repeat (apply elem_of_cons in Hf as [->|Hf]);
    [..|by apply elem_of_nil in Hf].
  - unfold Spy_minus_Tensor. cbv zeta.
    destruct (is_literal 0%float k); [literal_built|general_built].
  - unfold Spy_plus_Tensor. cbv zeta.
    destruct (is_literal 0%float k); [literal_built|general_built].
  - unfold Spy_divide_Tensor. cbv zeta.
    destruct (is_literal 1%float k); [literal_built|general_built].
  - unfold Spy_pow. cbv zeta.
    destruct (is_literal (-1)%float k); [literal_built|].
    destruct (is_literal 0%float k); [literal_built|].
    destruct (is_literal 1%float k); [literal_built|].
    destruct (is_literal 2%float k); [literal_built|].
    destruct (is_literal 3%float k); [literal_built|].
    general_built.
Qed.

End spy_tensor_built.

Section tensor_spy_built.
Variable std_pow : double → double → double.

Lemma tensor_spy_built (x : Spy) (k : Tensor) (t : Tape) g :
  g ∈ [Tensor_minus_Spy; Tensor_plus_Spy; Tensor_divide_Spy;
       Tensor_pow_Spy std_pow] →
  Spy_on x t → val_size k = tensor_size k →
  (dim (tensor x) = dim k ∨
   is_scalar (tensor x) = true ∨ is_scalar k = true) →
  built t → built (g k x t).2.
Proof.
  intros Hg Hx Hk Hcompat Hbuilt.
  pose proof (dim_eq_val_sizes k (tensor x) Hk (proj1 Hx)) as Hsz.
  pose proof (dim_eq_val_sizes (tensor x) k (proj1 Hx) Hk) as Hsz'.
  assert (dim k = dim (tensor x) ∨
          is_scalar k = true ∨ is_scalar (tensor x) = true) as Hcompat'
    by (destruct Hcompat as [?|[?|?]]; auto).
  clear Hcompat.
  repeat (apply elem_of_cons in Hg as [->|Hg]);
    [..|by apply elem_of_nil in Hg].
  - unfold Tensor_minus_Spy. cbv zeta.
    destruct (is_literal 0%float k); [literal_built|general_built].
  - unfold Tensor_plus_Spy, Spy_plus_Tensor. cbv zeta.
    assert (dim (tensor x) = dim k ∨
            is_scalar (tensor x) = true ∨ is_scalar k = true) as Hcompat
      by (destruct Hcompat' as [?|[?|?]]; auto).
    clear Hcompat'.
    destruct (is_literal 0%float k); [literal_built|general_built].
  - unfold Tensor_divide_Spy. cbv zeta.
    destruct (is_literal 0%float k); [literal_built|].
    destruct (is_literal 1%float k); [literal_built|].
    general_built.
  - unfold Tensor_pow_Spy. cbv zeta.
    destruct (is_literal 0%float k); [literal_built|].
    destruct (is_literal 1%float k); [literal_built|].
    general_built.
Qed.

End tensor_spy_built.

(** The functions of the library on a spy and a tensor that are embedded
    here, by the side of the spy. *)
Definition spy_tensor_functions (std_pow : double → double → double)
  : list (Spy → Tensor → Tape → Result Spy * Tape) :=
  [Spy_minus_Tensor; Spy_plus_Tensor; Spy_divide_Tensor; Spy_pow std_pow].

Definition tensor_spy_functions (std_pow : double → double → double)
  : list (Tensor → Spy → Tape → Result Spy * Tape) :=
  [Tensor_minus_Spy; Tensor_plus_Spy; Tensor_divide_Spy;
   Tensor_pow_Spy std_pow].

(** X10 — recording an operation on a spy and a tensor.  For [x - k],
    [x + k], [x / k], [pow(x, k)], [k - x], [k + x], [k / x] and [pow(k, x)]
    with a spy [x] that stands for slots of a tape meeting the recording
    invariant and a tensor [k] holding as many values as its dimensions say,
    the two meeting the assertions on the path of the call (neither tensor
    is null; [k] is a scalar or a vector; the dimensions are equal or one of
    the two is a scalar): the call returns a spy, it appends exactly one
    operator, leaves the inputs alone, the spy stands for exactly the slots
    added to the trace, and the tape meets the invariant again; the operator
    passes the assertions of its constructor, so that a tape whose operators
    all had passed them still has this property. *)
Theorem spy_tensor_recording (std_pow : double → double → double)
    (x : Spy) (k : Tensor) (t : Tape) :
  Tape_wf t → Spy_on x t → val_size k = tensor_size k →
  spy_tensor_asserts x k →
  (∀ f, f ∈ spy_tensor_functions std_pow →
        ∃ s t', f x k t = (Ok s, t') ∧ recording t s t' ∧
                (built t → built t')) ∧
  (∀ g, g ∈ tensor_spy_functions std_pow →
        ∃ s t', g k x t = (Ok s, t') ∧ recording t s t' ∧
                (built t → built t')).
Proof.
  intros Hwf Hx Hk (_ & _ & _ & Hcompat). split.
  - intros f Hf.
    pose proof (spy_tensor_built std_pow x k t f Hf Hx Hk Hcompat) as Hb.
    assert (call_outcome (tensor x) k t (f x k t)) as Hout.
    { unfold spy_tensor_functions in Hf.
      repeat (apply elem_of_cons in Hf as [->|Hf]).
      - by apply Spy_minus_Tensor_outcome.
      - by apply Spy_plus_Tensor_outcome.
      - by apply Spy_divide_Tensor_outcome.
      - by apply Spy_pow_outcome.
      - by apply elem_of_nil in Hf. }
    unfold call_outcome in Hout. destruct (f x k t) as [[s|e] t'].
    + by exists s, t'.
    + exfalso. destruct Hout as (_ & _ & Hd & Hsx & Hsk).
      destruct Hcompat as [?|[?|?]]; congruence.
  - intros g Hg.
    pose proof (tensor_spy_built std_pow x k t g Hg Hx Hk Hcompat) as Hb.
    assert (call_outcome k (tensor x) t (g k x t)) as Hout.
    { unfold tensor_spy_functions in Hg.
      repeat (apply elem_of_cons in Hg as [->|Hg]).
      - by apply Tensor_minus_Spy_outcome.
      - by apply Tensor_plus_Spy_outcome.
      - by apply Tensor_divide_Spy_outcome.
      - by apply Tensor_pow_Spy_outcome.
      - by apply elem_of_nil in Hg. }
    unfold call_outcome in Hout. destruct (g k x t) as [[s|e] t'].
    + by exists s, t'.
    + exfalso. destruct Hout as (_ & _ & Hd & Hsk & Hsx).
      destruct Hcompat as [?|[?|?]]; congruence.
Qed.

(** A vector of two inputs, and its quotient by the vector [4, 8]. *)
Lemma spy_tensor_recording_witness :
  let t := mkTape 2 2 [] [1.5%float; 2%float] in
  let x := Spy_register (Tensor_vector [1.5%float; 2%float]) 0 in
  let k := Tensor_vector [4%float; 8%float] in
  ∃ s t', Spy_divide_Tensor x k t = (Ok s, t') ∧ recording t s t' ∧
          operations t' =
            [mkOp (DivideVectorVector FreeFixed) (In_Range (mkRange 0 2))
               (Const_Vector [4%float; 8%float])
               (Out_Range (mkRange 2 4))] ∧
          built t'.
Proof.
  cbv zeta.
  destruct (spy_tensor_recording (λ a b, a)
              (Spy_register (Tensor_vector [1.5%float; 2%float]) 0)
              (Tensor_vector [4%float; 8%float])
              (mkTape 2 2 [] [1.5%float; 2%float])) as [Hf _].
  - split; [by cbn|]. split; [done|]. reflexivity.
  - split; [reflexivity|]. by cbn.
  - reflexivity.
  - split; [reflexivity|]. split; [reflexivity|].
    split; [right; reflexivity|left; reflexivity].
  - destruct (Hf Spy_divide_Tensor) as (s & t' & He & Hr & Hb).
    { right. right. by left. }
    exists s, t'. split; [exact He|]. split; [exact Hr|].
    injection He as <- <-. split; [reflexivity|]. apply Hb. constructor.
Defined.

End recorders_layout.

(** ** Playing a recorded tape *)

Section played_tape.
Import SparseSymMat SparseSymMatOps Sweep.

Lemma vget_vset_other v i j x : i ≠ j → vget (vset v i x) j = vget v j.
Proof.
  intros Hne. unfold vget, vset. destruct (i <? 0) eqn:Ei; [done|].
  destruct (j <? 0) eqn:Ej; [done|].
  rewrite list_lookup_insert_ne; [done|]. lia.
Qed.

(** The loop of an element-wise [evaluate] writes from the first slot of
    its output range on. *)
Lemma map_range_frame f i o v :
  length (Body.map_range f i o v) = length v ∧
  ∀ s, s < range_begin o → vget (Body.map_range f i o v) s = vget v s.
Proof.
  unfold Body.map_range.
  apply (for_range_invariant_bound
           (λ w, length w = length v ∧
                 ∀ s, s < range_begin o → vget w s = vget v s)).
  - intros w k Hk [Hl Hs]. split.
    + by rewrite length_vset.
    + intros s Hlt. rewrite vget_vset_other; [by apply Hs|].
      unfold range_at. lia.
  - done.
Qed.

(** An embedded operator has the [in] and [out] fields of the recorded
    instance, and is element-wise only on a single range. *)
Lemma operator_of_fields o op :
  operator_of o = Some op →
  op_in op = ov_in o ∧ op_out op = ov_out o ∧
  (OpIsElementWise op = true → ∃ r, ov_in o = In_Range r) ∧
  ∀ v, length (evaluate op v) = length v ∧
       ∀ s, s < out_at (ov_out o) 0 → vget (evaluate op v) s = vget v s.
Proof.
  destruct o as [ty i c y]. unfold operator_of. cbn [ov_type ov_in ov_constant ov_out].
  intros H.
  assert (∀ v j x, length (vset v j x) = length v ∧
            ∀ s, s < j → vget (vset v j x) s = vget v s) as Hset.
  { intros v j x. split; [apply length_vset|].
    intros s Hs. apply vget_vset_other. lia. }
  repeat case_match; simplify_eq; cbn;
    (split; [done|]); (split; [done|]);
    (split; [first [done | by eauto]|]);
    intros v;
    first [ apply Hset
          | split; [apply map_range_frame|];
            intros s Hs; apply map_range_frame;
            unfold range_at in Hs; lia ].
Qed.

Lemma operands_within_below i n :
  operands_within i n →
  ∀ k, 0 ≤ k < in_size i → 0 ≤ in_at i k < n.
Proof.
  unfold operands_within, range_within, in_size, in_at, range_size, range_at.
  destruct i; intros H k Hk; cbn in *;
    repeat match goal with |- context [?a <? ?b] =>
             destruct (Z.ltb_spec a b) end; lia.
Qed.

Lemma out_at_rec_out OP i c n : out_at (rec_out OP i c n) 0 = n.
Proof.
  unfold rec_out. destruct (out_is_scalar OP); cbn; [done|].
  unfold range_at. cbn. lia.
Qed.

Lemma recorded_laid_out ovs : ∀ n ops,
  recorded n ovs → mapM operator_of ovs = Some ops → laid_out n ops.
Proof.
  induction ovs as [|o ovs IH]; intros n ops Hr Hm.
  - apply mapM_Some in Hm. by inversion Hm.
  - rewrite mapM_Some in Hm. inversion Hm as [|? op ? ops' Ho Hm']; subst.
    apply mapM_Some in Hm'. destruct Hr as (Hin & Hout & Hr).
    destruct (operator_of_fields o op Ho) as (Hi & Hy & Hel & _).
    cbn [laid_out]. unfold out_begin, out_end, out_begin.
    rewrite Hy, Hout, out_at_rec_out.
    split; [done|]. split; [by apply (rec_out_size _ _ _ n)|]. split.
    { unfold operands_below. rewrite Hi. by apply operands_within_below. }
    split.
    { unfold elementwise_fits. intros He. destruct (Hel He) as [r Hr'].
      rewrite Hi, Hy, Hout, Hr'. rewrite out_size_rec_out.
      destruct (out_is_scalar (ov_type o)) eqn:Hsc.
      - exfalso. clear -Ho He Hsc. destruct o as [ty i c y].
        unfold operator_of in Ho. cbn in Ho, Hsc.
        repeat case_match; simplify_eq; done.
      - destruct (ov_constant o); cbn; lia. }
    apply IH; [|done]. by rewrite <- Hout.
Qed.

Lemma recorded_forward ovs : ∀ n ops v,
  recorded n ovs → mapM operator_of ovs = Some ops →
  let v' := foldl (λ v op, evaluate op v) v ops in
  length v' = length v ∧ ∀ s, s < n → vget v' s = vget v s.
Proof.
  induction ovs as [|o ovs IH]; intros n ops v Hr Hm.
  - apply mapM_Some in Hm. by inversion Hm.
  - rewrite mapM_Some in Hm. inversion Hm as [|? op ? ops' Ho Hm']; subst.
    apply mapM_Some in Hm'. destruct Hr as (Hin & Hout & Hr).
    destruct (operator_of_fields o op Ho) as (_ & _ & _ & Hev).
    destruct (Hev v) as [Hl Hs]. rewrite Hout, out_at_rec_out in Hs.
    cbn [foldl]. cbv zeta.
    destruct (IH _ ops' (evaluate op v) Hr Hm') as [Hl' Hs'].
    split; [congruence|]. intros s Hlt.
    rewrite Hs'; [by apply Hs|].
    pose proof (rec_out_size (ov_type o) _ (ov_constant o) n n Hin).
    rewrite Hout. lia.
Qed.

Lemma mapM_operator_of_total_out ovs : ∀ ops,
  mapM operator_of ovs = Some ops → total_out ops = outputs_size ovs.
Proof.
  induction ovs as [|o ovs IH]; intros ops Hm.
  - apply mapM_Some in Hm. by inversion Hm.
  - rewrite mapM_Some in Hm. inversion Hm as [|? op ? ops' Ho Hm']; subst.
    apply mapM_Some in Hm'.
    destruct (operator_of_fields o op Ho) as (_ & Hy & _).
    cbn [total_out outputs_size foldr]. fold (total_out ops').
    fold (outputs_size ovs). rewrite Hy. f_equal. by apply IH.
Qed.

(** The trace [tr] has one value and one adjoint for every slot of the
    tape, as the trace that [Trace(tape)] builds. *)
Definition Trace_on (tape : Tape) (tr : Trace) : Prop :=
  Z.of_nat (length (values tr)) = n_trace_size tape ∧
  Z.of_nat (length (adjoints tr)) = n_trace_size tape.

Lemma vget_vadd_other a j x s : j ≠ s → vget (vadd a j x) s = vget a s.
Proof. intros H. unfold vadd. by apply vget_vset_other. Qed.

(** The adjoint update changes the adjoints of operand slots only. *)
Lemma adjoint_update_frame op v i_local w a s :
  operands_in (λ j, j ≠ s) op → elementwise_fits op →
  0 ≤ i_local < out_size (op_out op) →
  vget (adjoint_update op v i_local w a) s = vget a s.
Proof.
  intros Hin Hf Hl. unfold adjoint_update, adjoint_add.
  unfold elementwise_fits in Hf. unfold operands_in in Hin.
  case_eq (op_in op); intros;
    match goal with H : op_in op = _ |- _ => rename H into Hshape end;
    rewrite Hshape in Hf, Hin; cbn [in_size in_left_size] in Hf, Hin |- *.
  1: rewrite vget_vadd_other; [done|apply Hin; lia].
  1: rewrite !vget_vadd_other; [done|apply Hin; lia..].
  all: destruct (OpIsElementWise op);
    [ specialize (Hf eq_refl);
      rewrite ?vget_vadd_other; [done|apply Hin; lia..]
    | apply (for_range_invariant_bound (λ a', vget a' s = vget a s));
      [|done];
      intros a' j Hj Ha'; destruct (is_zero _); [done|];
      rewrite vget_vadd_other; [done|apply Hin; lia] ].
Qed.

Lemma reverse_output_adjoint op tr tr' i_local s :
  operands_in (λ j, j ≠ s) op → elementwise_fits op →
  0 ≤ i_local < out_size (op_out op) →
  reverse_output op (Some tr) i_local = Some tr' →
  vget (adjoints tr') s = vget (adjoints tr) s.
Proof.
  intros Hin Hf Hl He. unfold reverse_output in He. cbv zeta in He.
  repeat case_match; simplify_eq; cbn [adjoints];
    first [done | by apply adjoint_update_frame].
Qed.

Lemma OpVariantReverse_adjoint op tr tr' s :
  trace_symmetric tr →
  operands_below op (out_begin op) → elementwise_fits op →
  out_begin op ≤ s →
  OpVariantReverse (Some tr) op = Some tr' →
  vget (adjoints tr') s = vget (adjoints tr) s.
Proof.
  intros Hs Hb Hf Hle. unfold OpVariantReverse.
  destruct (Z.le_gt_cases 0 (out_size (op_out op))) as [Hn|Hn].
  2: { rewrite seqZ_nil by lia. cbn. by intros [= <-]. }
  intros He.
  apply (seqZ_fold_Some_invariant
           (λ k tr1, trace_symmetric tr1 ∧
              vget (adjoints tr1) s = vget (adjoints tr) s)
           (reverse_output op) (out_size (op_out op)) tr tr');
    [done|done|done| |done].
  intros k tr1 tr2 Hk [Hs1 Ha1] He2. split.
  - by apply (reverse_output_symmetric op tr1 k tr2).
  - rewrite <- Ha1.
    apply (reverse_output_adjoint op tr1 tr2 k); try done.
    intros j Hj. specialize (Hb j Hj). unfold input. lia.
Qed.

Lemma total_out_nonneg ops : ∀ n, laid_out n ops → 0 ≤ total_out ops.
Proof.
  induction ops as [|o ops IH]; intros m Hl; [done|].
  destruct Hl as (_ & ? & _ & _ & Hl). cbn [total_out foldr].
  fold (total_out ops). specialize (IH _ Hl). lia.
Qed.

Lemma sweep_adjoint ops : ∀ n tr tr' s,
  laid_out n ops → trace_symmetric tr →
  n + total_out ops ≤ s + 1 →
  foldl OpVariantReverse (Some tr) (reverse ops) = Some tr' →
  vget (adjoints tr') s = vget (adjoints tr) s.
Proof.
  induction ops as [|op ops IH]; intros n tr tr' s Hl Hs Hle He.
  - cbn in He. by injection He as <-.
  - pose proof (total_out_nonneg _ _ (proj2 (proj2 (proj2 (proj2 Hl)))))
      as Hpos.
    destruct Hl as (Hb & Hn & Hbelow & Hfit & Hl).
    rewrite reverse_cons, foldl_app in He. cbn [foldl] in He.
    cbn [total_out foldr] in Hle. fold (total_out ops) in Hle.
    destruct (foldl OpVariantReverse (Some tr) (reverse ops))
      as [tr1|] eqn:E1; [|by rewrite OpVariantReverse_None in He].
    pose proof (sweep_symmetric (reverse ops) tr tr1 Hs E1) as (Hs1 & _).
    rewrite <- (IH (out_end op) tr tr1 s Hl Hs); [| |done].
    2: { unfold out_end. lia. }
    destruct (decide (out_size (op_out op) = 0)) as [Hz|Hz].
    + revert He. unfold OpVariantReverse. rewrite Hz. cbn.
      by intros [= <-].
    + apply (OpVariantReverse_adjoint op tr1 tr' s); try done.
      * by rewrite Hb.
      * lia.
Qed.

(** The operators of a recorded tape are laid out from its inputs on and
    fill the trace. *)
Lemma Tape_wf_laid_out tape ops :
  Tape_wf tape → mapM operator_of (operations tape) = Some ops →
  laid_out (n_input_size tape) ops ∧
  n_trace_size tape = n_input_size tape + total_out ops.
Proof.
  intros (Hn & Hr & Hsz) Hm. split.
  - by apply (recorded_laid_out (operations tape)).
  - by rewrite (mapM_operator_of_total_out _ _ Hm).
Qed.

(** The start of [play_reverse]: the adjoints are not empty, and the sweep
    starts from cleared adjoints seeded at the last slot and from an empty
    Hessian. *)
Lemma play_reverse_start ops tr tr' :
  play_reverse ops tr = Some tr' →
  adjoints tr ≠ [] ∧
  foldl OpVariantReverse
    (Some (mkTrace (values tr)
             (set_back (replicate (length (adjoints tr)) 0%float) 1%float)
             (mk (width_ (hessian tr)) ∅)))
    (reverse ops) = Some tr'.
Proof.
  unfold play_reverse. by destruct (adjoints tr).
Qed.

Lemma empty_confined S : confined S ∅.
Proof.
  intros a b [x Hx]. unfold entry in Hx. by rewrite lookup_empty in Hx.
Qed.

Lemma play_reverse_confined tape ops tr tr' :
  Tape_wf tape → mapM operator_of (operations tape) = Some ops →
  play_reverse ops tr = Some tr' →
  confined (λ s, 0 ≤ s < n_input_size tape) (matrix (hessian tr')).
Proof.
  intros Hwf Hm Hp. destruct (Tape_wf_laid_out tape ops Hwf Hm) as [Hl _].
  apply play_reverse_start in Hp as [_ Hp].
  apply (sweep_confined ops (n_input_size tape)) in Hp as [_ Hc];
    [done|done|apply empty_symmetric|apply empty_confined].
Qed.

(** X6 — the Hessian after the reverse sweep.  On a tape that meets the
    recording invariant, whose operators passed the assertions of their
    constructors and all have an embedded body, and on a trace with one
    value and one adjoint for every slot of the tape: whenever
    [play_reverse] runs to its end, every entry that the Hessian stores
    afterwards has its row and its column among the input slots, the rows
    and columns of all the operator outputs having been erased. *)
Theorem reverse_sweep_leaves_input_slots (tape : Tape)
    (ops : list Operator) (tr tr' : Trace) :
  Tape_wf tape → built tape →
  mapM operator_of (operations tape) = Some ops →
  Trace_on tape tr →
  play_reverse ops tr = Some tr' →
  ∀ i j, is_Some (entry (matrix (hessian tr')) i j) →
         0 ≤ i < n_input_size tape ∧ 0 ≤ j < n_input_size tape.
Proof.
  intros Hwf _ Hm _ Hp. by apply (play_reverse_confined tape ops tr tr').
Qed.

(** Two inputs, their squares taken element-wise, and the product of the
    two squares. *)
Definition tape_product_of_squares : Tape :=
  mkTape 2 5
    [ mkOp SquareVector (In_Range (mkRange 0 2)) Const_None
        (Out_Range (mkRange 2 4));
      mkOp (MultiplyScalarScalar FreeFree) (In_ScalarScalar 2 3) Const_None
        (Out_Scalar 4) ]
    [1.5%float; 2%float].

(** Its trace at 1.5 and 2, after the forward sweep. *)
Definition trace_product_of_squares : Trace :=
  mkTrace [1.5%float; 2%float; 2.25%float; 4%float; 9%float]
          [0%float; 0%float; 0%float; 0%float; 0%float]
          (SparseSymMat.make 2).

Lemma tape_product_of_squares_wf :
  Tape_wf tape_product_of_squares ∧ built tape_product_of_squares ∧
  mapM operator_of (operations tape_product_of_squares) =
    Some [ Body.SquareVector (mkRange 0 2) (mkRange 2 4);
           Body.MultiplyScalarScalar_free_free 2 3 4 ] ∧
  Trace_on tape_product_of_squares trace_product_of_squares.
Proof.
  split; [|split; [|split]].
  - split; [by cbn|]. split; [|reflexivity].
    cbn. unfold rec_out, range_within. cbn. repeat split; lia.
  - repeat constructor.
  - reflexivity.
  - by split.
Qed.

Lemma reverse_sweep_leaves_input_slots_witness :
  ∃ tr', play_reverse
           [ Body.SquareVector (mkRange 0 2) (mkRange 2 4);
             Body.MultiplyScalarScalar_free_free 2 3 4 ]
           trace_product_of_squares = Some tr' ∧
         ∀ i j, is_Some (entry (matrix (hessian tr')) i j) →
                0 ≤ i < 2 ∧ 0 ≤ j < 2.
Proof.
  destruct tape_product_of_squares_wf as (Hwf & Hb & Hm & Hon).
  eexists. split; [by vm_compute|].
  apply (reverse_sweep_leaves_input_slots tape_product_of_squares
           [ Body.SquareVector (mkRange 0 2) (mkRange 2 4);
             Body.MultiplyScalarScalar_free_free 2 3 4 ]
           trace_product_of_squares); [exact Hwf|exact Hb|exact Hm|exact Hon|].
  by vm_compute.
Defined.

(** X7 — [play_reverse] can be repeated.  On a recorded tape and a trace as
    for X6, whenever [play_reverse] runs to its end it leaves the values,
    the size of the adjoints and the width of the Hessian as they were; what
    it computes depends on the trace through these three only, the former
    adjoints and Hessian being cleared first; and running it again on its
    result gives this result again. *)
Theorem play_reverse_repeatable (tape : Tape) (ops : list Operator)
    (tr tr' : Trace) :
  Tape_wf tape → built tape →
  mapM operator_of (operations tape) = Some ops →
  Trace_on tape tr →
  play_reverse ops tr = Some tr' →
  values tr' = values tr ∧
  length (adjoints tr') = length (adjoints tr) ∧
  width_ (hessian tr') = width_ (hessian tr) ∧
  Trace_on tape tr' ∧
  play_reverse ops tr' = Some tr' ∧
  ∀ tr2, values tr2 = values tr →
         length (adjoints tr2) = length (adjoints tr) →
         width_ (hessian tr2) = width_ (hessian tr) →
         play_reverse ops tr2 = Some tr'.
Proof.
  intros _ _ _ [Hv0 Ha0] Hp.
  destruct (play_reverse_symmetric ops tr tr' Hp) as (_ & Hv & Ha & Hw).
  assert (∀ tr2, values tr2 = values tr →
                 length (adjoints tr2) = length (adjoints tr) →
                 width_ (hessian tr2) = width_ (hessian tr) →
                 play_reverse ops tr2 = Some tr') as Hdep.
  { intros tr2 H1 H2 H3. rewrite <- Hp. unfold play_reverse.
    rewrite H1, H3.
    destruct (adjoints tr2) as [|x2 a2], (adjoints tr) as [|x a];
      try done. by rewrite H2. }
  split; [done|]. split; [done|]. split; [done|]. split.
  - split; congruence.
  - split; [by apply Hdep|done].
Qed.

Lemma play_reverse_repeatable_witness :
  ∃ tr', play_reverse
           [ Body.SquareVector (mkRange 0 2) (mkRange 2 4);
             Body.MultiplyScalarScalar_free_free 2 3 4 ]
           trace_product_of_squares = Some tr' ∧
         play_reverse
           [ Body.SquareVector (mkRange 0 2) (mkRange 2 4);
             Body.MultiplyScalarScalar_free_free 2 3 4 ] tr' = Some tr'.
Proof.
  destruct tape_product_of_squares_wf as (Hwf & Hb & Hm & Hon).
  destruct (play_reverse
              [ Body.SquareVector (mkRange 0 2) (mkRange 2 4);
                Body.MultiplyScalarScalar_free_free 2 3 4 ]
              trace_product_of_squares) as [tr'|] eqn:Hp;
    [|by vm_compute in Hp].
  exists tr'. split; [reflexivity|].
  destruct (play_reverse_repeatable tape_product_of_squares
              [ Body.SquareVector (mkRange 0 2) (mkRange 2 4);
                Body.MultiplyScalarScalar_free_free 2 3 4 ]
              trace_product_of_squares tr' Hwf Hb Hm Hon Hp)
    as (_ & _ & _ & _ & Hagain & _).
  exact Hagain.
Defined.

(** X11 — playing a recorded tape.  On a tape that meets the recording
    invariant, whose operators passed the assertions of their constructors
    and all have an embedded body, and on a trace with as many adjoints as
    the tape has slots: whenever [play] runs to its end, the trace had one
    value for every slot of the tape, as [play] asserts; the size of the
    values is kept and the values of the input slots are not changed; and
    afterwards every entry that the Hessian stores has its row and its
    column among the input slots. *)
Theorem play_of_recorded_tape (tape : Tape) (ops : list Operator)
    (tr tr' : Trace) :
  Tape_wf tape → built tape →
  mapM operator_of (operations tape) = Some ops →
  Z.of_nat (length (adjoints tr)) = n_trace_size tape →
  Trace_play tape tr = Some tr' →
  Trace_on tape tr ∧
  length (values tr') = length (values tr) ∧
  (∀ s, s < n_input_size tape →
        vget (values tr') s = vget (values tr) s) ∧
  (∀ i j, is_Some (entry (matrix (hessian tr')) i j) →
          0 ≤ i < n_input_size tape ∧ 0 ≤ j < n_input_size tape).
Proof.
  intros Hwf _ Hm Ha. unfold Trace_play. rewrite Hm. cbn [mbind option_bind].
  unfold trace_size.
  destruct (Z.eqb_spec (Z.of_nat (length (values tr))) (n_trace_size tape))
    as [Hv|]; [|done].
  unfold play. intros Hp.
  destruct Hwf as (Hn & Hr & Hsz).
  destruct (recorded_forward _ _ _ (values tr) Hr Hm) as [Hlen Hin].
  destruct (play_reverse_symmetric ops (play_forward ops tr) tr' Hp)
    as (_ & Hv' & _).
  split; [done|]. rewrite Hv'. cbn [play_forward values].
  split; [done|]. split; [done|].
  by apply (play_reverse_confined tape ops (play_forward ops tr) tr').
Qed.

(** The tape of x * (1/x) at 2. *)
Lemma play_of_recorded_tape_witness :
  ∃ tr', Trace_play (tape_x_times_inverse 2%float)
           (Trace_make (tape_x_times_inverse 2%float)) = Some tr' ∧
         vget (values tr') 0 = 2%float ∧
         ∀ i j, is_Some (entry (matrix (hessian tr')) i j) →
                0 ≤ i < 1 ∧ 0 ≤ j < 1.
Proof.
  destruct (Trace_play (tape_x_times_inverse 2%float)
              (Trace_make (tape_x_times_inverse 2%float)))
    as [tr'|] eqn:Hp; [|by vm_compute in Hp].
  exists tr'. split; [reflexivity|].
  destruct (play_of_recorded_tape (tape_x_times_inverse 2%float)
              [Body.InvertScalar 0 1;
               Body.MultiplyScalarScalar_free_free 0 1 2]
              (Trace_make (tape_x_times_inverse 2%float)) tr')
    as (_ & _ & Hv & Hc).
  - split; [by cbn|]. split; [|reflexivity].
    cbn. unfold rec_out. cbn. repeat split; lia.
  - repeat constructor.
  - reflexivity.
  - reflexivity.
  - exact Hp.
  - split; [|exact Hc]. rewrite Hv; [reflexivity|]. by cbn.
Defined.

(** X12 — the seed of the reverse sweep.  On a recorded tape and a trace as
    for X6, whenever [play_reverse] runs to its end, the adjoint of the last
    slot, which it seeds with 1.0, is still 1.0: no operator adds to it. *)
Theorem reverse_sweep_keeps_seed (tape : Tape) (ops : list Operator)
    (tr tr' : Trace) :
  Tape_wf tape → built tape →
  mapM operator_of (operations tape) = Some ops →
  Trace_on tape tr →
  play_reverse ops tr = Some tr' →
  vget (adjoints tr') (n_trace_size tape - 1) = 1%float.
Proof.
  intros Hwf _ Hm [_ Hlen] Hp.
  destruct (Tape_wf_laid_out tape ops Hwf Hm) as [Hl Hsz].
  apply play_reverse_start in Hp as [Hne Hp].
  assert (0 < n_trace_size tape) as Hpos.
  { destruct (adjoints tr); [done|]. cbn [length] in Hlen. lia. }
  match type of Hp with foldl _ (Some ?t0) _ = _ =>
    rewrite (sweep_adjoint ops (n_input_size tape) t0 tr'
               (n_trace_size tape - 1) Hl);
      [|apply empty_symmetric|lia|done] end.
  cbn [adjoints]. unfold set_back.
  destruct (replicate (length (adjoints tr)) 0%float) as [|x l] eqn:E.
  { apply (f_equal length) in E. rewrite length_replicate in E.
    cbn in E. lia. }
  rewrite <- E. unfold vget.
  destruct (Z.ltb_spec (n_trace_size tape - 1) 0); [lia|].
  rewrite length_replicate.
  replace (Z.to_nat (n_trace_size tape - 1))
    with (Nat.pred (length (adjoints tr))) by lia.
  rewrite list_lookup_insert_eq; [done|].
  rewrite length_replicate. lia.
Qed.

Lemma reverse_sweep_keeps_seed_witness :
  ∃ tr', play_reverse
           [ Body.SquareVector (mkRange 0 2) (mkRange 2 4);
             Body.MultiplyScalarScalar_free_free 2 3 4 ]
           trace_product_of_squares = Some tr' ∧
         vget (adjoints tr') 4 = 1%float.
Proof.
  destruct tape_product_of_squares_wf as (Hwf & Hb & Hm & Hon).
  eexists. split; [by vm_compute|].
  apply (reverse_sweep_keeps_seed tape_product_of_squares
           [ Body.SquareVector (mkRange 0 2) (mkRange 2 4);
             Body.MultiplyScalarScalar_free_free 2 3 4 ]
           trace_product_of_squares); [exact Hwf|exact Hb|exact Hm|exact Hon|].
  by vm_compute.
Defined.

End played_tape.

(** ** Declaring, copying and reading spies *)

Section spies_on_tape.

Lemma Spy_on_later s t t' :
  Spy_on s t → n_trace_size t ≤ n_trace_size t' → Spy_on s t'.
Proof. intros (? & ? & ?) ?. repeat split; [done..|lia]. Qed.

Lemma recording_grows t s t' :
  Tape_wf t → recording t s t' → n_trace_size t ≤ n_trace_size t'.
Proof.
  intros Hwf (_ & (Hv & H0 & He) & Hb & Hend & _).
  unfold tape_end, tape_begin in *. unfold val_size in *. lia.
Qed.



(** The trace built for a tape starts with the initial values. *)
Lemma Trace_make_values t :
  Z.of_nat (length (initial_values t)) ≤ n_trace_size t →
  ∃ zeros, values (Trace_make t) = initial_values t ++ zeros.
Proof.
  intros Hle. unfold Trace_make, trace_size. cbn [values].
  rewrite take_app_ge by lia. eexists. done.
Qed.

(** X14 — an input is read back from the trace.  On a tape without
    recorded operator that holds one initial value per input slot, declaring
    the input [x], a tensor with as many values as its dimensions say,
    succeeds and keeps these properties and the recording invariant; and on
    the trace built for this tape, or for any tape obtained from it by more
    declarations and recordings, [read] at the new spy gives the values of
    [x], [read_tensor] gives [x], and [read_scalar] gives its first value. *)
Theorem declared_input_is_read_back (x : Tensor) (t t'' : Tape)
    (rest : list double) :
  Tape_wf t → operations t = [] →
  Z.of_nat (length (initial_values t)) = n_input_size t →
  val_size x = tensor_size x →
  initial_values t'' = initial_values t ++ val x ++ rest →
  Z.of_nat (length (initial_values t'')) ≤ n_trace_size t'' →
  ∃ s t', Spy_input x t = (Ok s, t') ∧
    Tape_wf t' ∧ Spy_on s t' ∧ operations t' = [] ∧
    Z.of_nat (length (initial_values t')) = n_input_size t' ∧
    Trace_read (Trace_make t'') s = val x ∧
    read_tensor (Trace_make t'') s = x ∧
    (0 < val_size x → read_scalar (Trace_make t'') s = vget (val x) 0).
Proof.
  intros (Hn & Hr & Hsz) Hops Hiv Hx Hiv'' Hle.
  unfold Spy_input. rewrite Hops. cbn [length Z.of_nat Z.ltb Z.compare].
  eexists _, _. split; [done|].
  rewrite Hops in Hsz. cbn in Hsz.
  assert (0 ≤ val_size x) as Hvx by (unfold val_size; lia).
  split.
  { split; [cbn; lia|]. split; [done|]. cbn. lia. }
  split.
  { unfold Spy_on, tape_end, tape_begin, input_size. cbn. lia. }
  split; [done|]. split.
  { cbn. rewrite length_app. unfold val_size. lia. }
  destruct (Trace_make_values t'' Hle) as [zeros Hv].
  assert (Trace_read (Trace_make t'') (Spy_register x (input_size t))
          = val x) as Hread.
  { unfold Trace_read, tape_end, tape_begin, input_size, Spy_register.
    cbn [tape_id_ tensor].
    rewrite Hv, Hiv''. rewrite <- Hiv, Nat2Z.id.
    rewrite <- !app_assoc, drop_app_length.
    replace (Z.to_nat (Z.of_nat (length (initial_values t)) + val_size x
                       - Z.of_nat (length (initial_values t))))
      with (length (val x)) by (unfold val_size; lia).
    rewrite take_app_length.
    rewrite <- Hx. unfold val_size. rewrite Nat2Z.id.
    rewrite drop_ge by (by rewrite length_replicate).
    by rewrite app_nil_r. }
  split; [done|]. split.
  { unfold read_tensor. rewrite Hread. cbn. by destruct x. }
  intros Hpos. unfold read_scalar, tape_begin, input_size, Spy_register.
  cbn [tape_id_ tensor].
  rewrite Hv, Hiv''. rewrite <- Hiv. unfold vget.
  destruct (Z.ltb_spec (Z.of_nat (length (initial_values t))) 0); [lia|].
  rewrite Nat2Z.id. rewrite <- !app_assoc.
  rewrite lookup_app_r by lia. rewrite Nat.sub_diag.
  cbn [Z.ltb Z.compare Z.to_nat].
  unfold val_size in Hpos. destruct (val x) as [|y l]; [cbn in Hpos; lia|].
  done.
Qed.

(** A vector of two values declared on an empty tape and read from its
    trace. *)
Lemma declared_input_is_read_back_witness :
  ∃ s t', Spy_input (Tensor_vector [1.5%float; 2%float]) (Tape_make 0)
            = (Ok s, t') ∧
          Trace_read (Trace_make t') s = [1.5%float; 2%float].
Proof.
  destruct (declared_input_is_read_back
              (Tensor_vector [1.5%float; 2%float]) (Tape_make 0)
              (mkTape 2 2 [] [1.5%float; 2%float]) [])
    as (s & t' & He & _ & _ & _ & _ & Hr & _).
  - split; [by cbn|]. split; [done|]. reflexivity.
  - reflexivity.
  - reflexivity.
  - reflexivity.
  - reflexivity.
  - by cbn.
  - exists s, t'. split; [exact He|]. injection He as <- <-. exact Hr.
Defined.

End spies_on_tape.

(** ** The entries of the working matrix *)

Section working_matrix_entries.
Import SparseSymMat EigenSparseMat.

(** One step of [setFromTriplets]. *)
Definition add_triplet (m : coefficients) (t : Triplet) : coefficients :=
  match m !! (row t, col t) with
  | None => <[(row t, col t) := value t]> m
  | Some x => <[(row t, col t) := (x + value t)%float]> m
  end.

(** Triplets at distinct places that the matrix does not hold yet are
    stored as they are. *)
Lemma add_triplets_fresh l : ∀ m,
  NoDup (map (λ t, (row t, col t)) l) →
  (∀ t, t ∈ l → m !! (row t, col t) = None) →
  (∀ t, t ∈ l → foldl add_triplet m l !! (row t, col t) = Some (value t)) ∧
  (∀ k, k ∉ map (λ t, (row t, col t)) l → foldl add_triplet m l !! k = m !! k).
Proof.
  induction l as [|t l IH]; intros m Hnd Hfresh.
  - split; [by intros t Ht%elem_of_nil|done].
  - cbn [map] in Hnd. apply NoDup_cons in Hnd as [Ht Hnd].
    cbn [foldl]. unfold add_triplet at 2 4.
    rewrite (Hfresh t) by (by left).
    destruct (IH (<[(row t, col t) := value t]> m) Hnd) as [H1 H2].
    { intros t' Ht'. rewrite lookup_insert_ne.
      - apply Hfresh. by right.
      - intros He. apply Ht. rewrite He.
        apply (list_elem_of_fmap_2 (λ t, (row t, col t))). done. }
    split.
    + intros t' [->|Ht']%elem_of_cons; [|by apply H1].
      rewrite H2 by done. by rewrite lookup_insert_eq.
    + intros k Hk. rewrite H2.
      * rewrite lookup_insert_ne; [done|]. intros <-. apply Hk. by left.
      * intros ?. apply Hk. by right.
Qed.

Lemma filter_eq_absent (x : Z) l : x ∉ l → filter (λ y, x = y) l = [].
Proof.
  induction l as [|y l IH]; intros Hx; [done|].
  rewrite filter_cons_False.
  - apply IH. intros ?. apply Hx. by right.
  - intros ->. apply Hx. by left.
Qed.

Lemma filter_eq_NoDup (x : Z) l :
  NoDup l → x ∈ l → filter (λ y, x = y) l = [x].
Proof.
  induction l as [|y l IH]; intros Hnd Hx; [by apply elem_of_nil in Hx|].
  apply NoDup_cons in Hnd as [Hy Hnd].
  destruct (decide (x = y)) as [<-|Hne].
  - rewrite filter_cons_True by done. by rewrite filter_eq_absent.
  - rewrite filter_cons_False by done.
    apply IH; [done|]. by apply elem_of_cons in Hx as [?|?].
Qed.

(** What the constructor stores in the row of the Hessian row [r]. *)
Definition row_coefficient (fixed_indices : list Z) (r : Z * row_t) (b : Z)
  : option double :=
  if decide (r.1 ∈ fixed_indices)
  then if decide (b = r.1) then Some (-1)%float else None
  else r.2 !! b.

Lemma add_row fixed_indices r m :
  NoDup fixed_indices →
  (∀ j, m !! (r.1, j) = None) →
  (∀ b, foldl add_triplet m (row_triplets fixed_indices r) !! (r.1, b)
        = row_coefficient fixed_indices r b) ∧
  (∀ a b, a ≠ r.1 →
          foldl add_triplet m (row_triplets fixed_indices r) !! (a, b)
          = m !! (a, b)).
Proof.
  intros Hnd Hfresh. unfold row_triplets, row_coefficient.
  destruct (decide (r.1 ∈ fixed_indices)) as [Hin|Hin].
  - rewrite (filter_eq_NoDup r.1 fixed_indices Hnd Hin). cbn [map foldl].
    unfold add_triplet. cbn [row col value]. rewrite Hfresh. split.
    + intros b. destruct (decide (b = r.1)) as [->|Hb].
      * by rewrite lookup_insert_eq.
      * rewrite lookup_insert_ne by congruence. apply Hfresh.
    + intros a b Ha. by rewrite lookup_insert_ne by congruence.
  - rewrite (filter_eq_absent r.1 fixed_indices Hin).
    set (l := map (λ entry, mkTriplet r.1 entry.1 entry.2) (in_order r.2)).
    assert (map (λ t, (row t, col t)) l
            = map (λ b, (r.1, b)) (in_order r.2).*1) as Hkeys.
    { unfold l. generalize (in_order r.2). intros es.
      induction es as [|e es IHes]; [done|]. cbn. by f_equal. }
    destruct (add_triplets_fresh l m) as [H1 H2].
    { rewrite Hkeys. apply (NoDup_fmap_2 (λ b, (r.1, b))).
      apply NoDup_in_order_keys. }
    { intros t Ht. unfold l in Ht. apply list_elem_of_fmap in Ht as [e [-> _]].
      apply Hfresh. }
    split.
    + intros b. destruct (r.2 !! b) as [x|] eqn:Hb.
      * apply elem_of_in_order in Hb.
        apply (H1 (mkTriplet r.1 b x)). unfold l.
        apply (list_elem_of_fmap_2 (λ entry, mkTriplet r.1 entry.1 entry.2)
                 _ (b, x)). done.
      * rewrite H2; [apply Hfresh|]. rewrite Hkeys.
        intros Hk. apply list_elem_of_fmap in Hk as [b' [[= <-] Hb']].
        apply elem_of_in_order_keys in Hb' as [x Hx]. congruence.
    + intros a b Ha. apply H2. rewrite Hkeys.
      intros Hk. apply list_elem_of_fmap in Hk as [b' [[= -> _] _]]. done.
Qed.

Lemma add_rows fixed_indices rows : ∀ m,
  NoDup fixed_indices → NoDup rows.*1 →
  (∀ r j, r ∈ rows → m !! (r.1, j) = None) →
  let m' := foldl add_triplet m
              (concat (map (row_triplets fixed_indices) rows)) in
  (∀ r b, r ∈ rows → m' !! (r.1, b) = row_coefficient fixed_indices r b) ∧
  (∀ a b, a ∉ rows.*1 → m' !! (a, b) = m !! (a, b)).
Proof.
  induction rows as [|r rows IH]; intros m Hnd Hrows Hfresh; cbv zeta.
  - split; [by intros r b Hr%elem_of_nil|done].
  - cbn [fmap list_fmap] in Hrows. apply NoDup_cons in Hrows as [Hr Hrows].
    cbn [map concat]. rewrite foldl_app.
    destruct (add_row fixed_indices r m Hnd) as [H1 H2].
    { intros j. apply Hfresh. by left. }
    destruct (IH (foldl add_triplet m (row_triplets fixed_indices r))
                Hnd Hrows) as [H3 H4].
    { intros r' j Hr'. rewrite H2.
      - apply Hfresh. by right.
      - intros He. apply Hr. rewrite <- He.
        apply (list_elem_of_fmap_2 fst). done. }
    split.
    + intros r' b [->|Hr']%elem_of_cons; [|by apply H3].
      rewrite H4 by done. apply H1.
    + intros a b Ha. rewrite H4.
      * apply H2. intros ->. apply Ha. by left.
      * intros ?. apply Ha. by right.
Qed.

(** X15 — the entries of the working matrix.  With every fixed index listed
    once, the matrix that [EigenSparseMat(hessian_map, fixed_indices)]
    builds holds, in the row of an index that is not fixed, exactly the
    entries of this row of the Hessian, those in the columns of fixed
    indices included; in the row of a fixed index for which the Hessian
    stores a row, -1 on the diagonal and nothing else; and nothing in the
    row of an index for which the Hessian stores no row. *)
Theorem working_matrix_rows (hessian_map : SparseSymMat.t)
    (fixed_indices : list Z) :
  NoDup fixed_indices →
  let W := make hessian_map fixed_indices in
  (∀ i j, i ∉ fixed_indices → W !! (i, j) = entry (matrix hessian_map) i j) ∧
  (∀ f j, f ∈ fixed_indices → is_Some (matrix hessian_map !! f) →
          W !! (f, j) = if decide (j = f) then Some (-1)%float else None) ∧
  (∀ i j, matrix hessian_map !! i = None → W !! (i, j) = None).
Proof.
  intros Hnd. cbv zeta.
  change (make hessian_map fixed_indices)
    with (foldl add_triplet ∅
            (concat (map (row_triplets fixed_indices)
                       (in_order (matrix hessian_map))))).
  destruct (add_rows fixed_indices (in_order (matrix hessian_map)) ∅ Hnd)
    as [H1 H2].
  { apply NoDup_in_order_keys. }
  { intros. apply lookup_empty. }
  assert (∀ i j, matrix hessian_map !! i = None →
            foldl add_triplet ∅
              (concat (map (row_triplets fixed_indices)
                         (in_order (matrix hessian_map)))) !! (i, j) = None)
    as Habsent.
  { intros i j Hi. rewrite H2; [apply lookup_empty|].
    intros Hk. apply elem_of_in_order_keys in Hk as [x Hx]. congruence. }
  split; [|split; [|done]].
  - intros i j Hi. unfold entry.
    destruct (matrix hessian_map !! i) as [r|] eqn:Hr.
    + apply elem_of_in_order in Hr. specialize (H1 (i, r) j Hr).
      cbn [fst] in H1. rewrite H1.
      unfold row_coefficient. cbn [fst snd]. by rewrite decide_False.
    + by apply Habsent.
  - intros f j Hf [r Hr]. apply elem_of_in_order in Hr.
    specialize (H1 (f, r) j Hr). cbn [fst] in H1. rewrite H1.
    unfold row_coefficient. cbn [fst snd]. by rewrite decide_True.
Qed.

Lemma working_matrix_rows_witness :
  make hessian_2x2 [1] !! (0, 1) = entry (matrix hessian_2x2) 0 1.
Proof.
  apply (working_matrix_rows hessian_2x2 [1]).
  - apply NoDup_singleton.
  - by intros [= ]%list_elem_of_singleton.
Defined.

End working_matrix_entries.

(** ** Shapes and indices of tensors *)

Section tensor_shapes.

Lemma foldl_mul_init a l : foldl Z.mul a l = a * foldl Z.mul 1 l.
Proof.
  revert a. induction l as [|d l IH]; intros a; cbn [foldl]; [lia|].
  rewrite (IH (a * d)), (IH (1 * d)). lia.
Qed.

Lemma product_cons d l :
  product (d :: l) = d * (match l with [] => 1 | _ => product l end).
Proof.
  unfold product. cbn [foldl]. rewrite foldl_mul_init.
  destruct l; cbn [foldl]; lia.
Qed.

(** The product of the sizes past the first dimension. *)
Definition tail_product (l : list Z) : Z := foldl Z.mul 1 l.

Lemma tail_product_cons d l : tail_product (d :: l) = d * tail_product l.
Proof. unfold tail_product. cbn [foldl]. rewrite foldl_mul_init. lia. Qed.

Lemma tail_product_pos l : Forall (λ d, 0 < d) l → 0 < tail_product l.
Proof.
  induction 1 as [|d l Hd Hl IH]; [done|].
  rewrite tail_product_cons. lia.
Qed.

Lemma tail_product_one l :
  Forall (λ d, 0 < d) l →
  tail_product l = 1 ↔ Forall (λ d, d = 1) l.
Proof.
  induction 1 as [|d l Hd Hl IH]; [done|].
  rewrite tail_product_cons. pose proof (tail_product_pos l Hl) as Hpos. split.
  - intros H. assert (d = 1 ∧ tail_product l = 1) as [-> Ht] by nia.
    constructor; [done|]. by apply IH.
  - intros H. inversion H as [|?? -> Hl']; subst. apply IH in Hl'. lia.
Qed.

(** The dimensions other than 1. *)
Definition wide_dims (l : list Z) : list Z := filter (λ d, d ≠ 1) l.

Lemma wide_dims_nil l : wide_dims l = [] ↔ Forall (λ d, d = 1) l.
Proof.
  unfold wide_dims. induction l as [|d l IH]; [done|].
  destruct (decide (d = 1)) as [->|Hd].
  - rewrite filter_cons_False by (intros ?; done). rewrite IH. split.
    + by constructor.
    + by inversion 1.
  - rewrite filter_cons_True by done. split; [done|].
    inversion 1; subst. done.
Qed.

Lemma is_vector_loop_spec l :
  Forall (λ d, 0 < d) l →
  is_vector_loop (tail_product l) l = true ↔
    l ≠ [] ∧ (length (wide_dims l) ≤ 1)%nat.
Proof.
  induction 1 as [|d l Hd Hl IH]; [by split; [|intros [? _]]|].
  cbn [is_vector_loop]. rewrite tail_product_cons.
  pose proof (tail_product_pos l Hl) as Hpos.
  destruct (Z.eqb_spec d (d * tail_product l)) as [He|Hne].
  - assert (tail_product l = 1) as Ht by nia.
    apply tail_product_one in Ht; [|done]. apply wide_dims_nil in Ht.
    split; [|done]. intros _. split; [done|].
    unfold wide_dims in *. rewrite filter_cons. rewrite Ht.
    case_decide; cbn; lia.
  - destruct (Z.ltb_spec 1 d) as [Hgt|Hle].
    + split; [done|]. intros [_ Hlen]. exfalso.
      unfold wide_dims in Hlen. rewrite filter_cons_True in Hlen by lia.
      cbn in Hlen. assert (filter (λ d, d ≠ 1) l = []) as Hnil
        by (destruct (filter _ l); [done|cbn in Hlen; lia]).
      apply wide_dims_nil, tail_product_one in Hnil; [|done]. nia.
    + assert (d = 1) as -> by lia. rewrite Z.mul_1_l in *.
      rewrite IH. unfold wide_dims.
      rewrite filter_cons_False by (intros ?; done).
      split; [intros [_ ?]; done|]. intros [_ Hlen]. split; [|done].
      intros ->. by cbn in Hne.
Qed.

Lemma elem_le_tail_product x l :
  Forall (λ d, 0 < d) l → x ∈ l → x ≤ tail_product l.
Proof.
  induction 1 as [|d l Hd Hl IH]; [by intros ?%elem_of_nil|].
  rewrite tail_product_cons. pose proof (tail_product_pos l Hl) as Hpos.
  intros [->|Hx]%elem_of_cons; [nia|]. specialize (IH Hx). nia.
Qed.

Lemma dim_of_full_size l :
  Forall (λ d, 0 < d) l →
  (∃ d, d ∈ l ∧ d = tail_product l) ↔
    l ≠ [] ∧ (length (wide_dims l) ≤ 1)%nat.
Proof.
  induction 1 as [|d l Hd Hl IH].
  { split; [intros (d & Hd & _); by apply elem_of_nil in Hd|by intros [? _]]. }
  pose proof (tail_product_pos l Hl) as Hpos.
  unfold wide_dims in *. rewrite tail_product_cons. split.
  - intros (x & Hx & Hxe). split; [done|].
    apply elem_of_cons in Hx as [->|Hx].
    + assert (tail_product l = 1) as Ht by nia.
      apply tail_product_one, wide_dims_nil in Ht; [|done].
      unfold wide_dims in Ht. rewrite filter_cons, Ht.
      case_decide; cbn; lia.
    + pose proof (elem_le_tail_product x l Hl Hx) as Hle.
      assert (d = 1) as -> by nia.
      rewrite filter_cons_False by (intros ?; done).
      apply IH. exists x. split; [done|lia].
  - intros [_ Hlen]. destruct (decide (d = 1)) as [->|Hd1].
    + rewrite filter_cons_False in Hlen by (intros ?; done).
      destruct l as [|d' l'].
      * exists 1. split; [apply list_elem_of_singleton; done|done].
      * destruct IH as [_ IH]. destruct IH as (x & Hx & Hxe); [done|].
        exists x. split; [by apply list_elem_of_further|lia].
    + rewrite filter_cons_True in Hlen by done. cbn in Hlen.
      assert (filter (λ d, d ≠ 1) l = []) as Hnil
        by (destruct (filter _ l); [done|cbn in Hlen; lia]).
      apply wide_dims_nil, tail_product_one in Hnil; [|done].
      exists d. split; [apply list_elem_of_here|lia].
Qed.

(** X16 — [TensorDim::is_vector].  For dimensions that are all positive, as
    the constructor asserts, and whose product is a [size_t], so that the
    product that [size()] computes does not wrap around, [is_vector()] holds
    exactly when there is at least one dimension and at most one of the
    dimensions is not 1 (at least K-1 of the K dimensions have size 1), and
    exactly when some dimension equals the size of the tensor. *)
Theorem is_vector_spec (t : Tensor) :
  Forall (λ d, 0 < d) (dim t) →
  tensor_size t < 2 ^ 64 →
  (is_vector t = true ↔
     dim t ≠ [] ∧ (length (wide_dims (dim t)) ≤ 1)%nat) ∧
  (is_vector t = true ↔ ∃ d, d ∈ dim t ∧ d = tensor_size t).
Proof.
  intros Hpos _. unfold is_vector, tensor_size.
  destruct (dim t) as [|d0 l0] eqn:Hdim.
  { split; (split; [done|]).
    - by intros [? _].
    - intros (d & Hd & _). by apply elem_of_nil in Hd. }
  assert (product (d0 :: l0) = tail_product (d0 :: l0)) as -> by done.
  rewrite is_vector_loop_spec by done. split; [done|].
  by rewrite dim_of_full_size.
Qed.

Lemma is_vector_spec_witness :
  let t := mkTensor [1; 3; 1] [1%float; 2%float; 3%float] in
  Forall (λ d, 0 < d) (dim t) ∧ tensor_size t = 3 ∧
  is_vector t = true ∧
  (is_vector t = true ↔
     dim t ≠ [] ∧ (length (wide_dims (dim t)) ≤ 1)%nat) ∧
  (is_vector t = true ↔ ∃ d, d ∈ dim t ∧ d = tensor_size t).
Proof.
  cbv zeta.
  assert (Forall (λ d, 0 < d) [1; 3; 1]) as Hpos
    by (repeat constructor; lia).
  split; [exact Hpos|]. split; [reflexivity|]. split; [reflexivity|].
  apply (is_vector_spec (mkTensor [1; 3; 1] [1%float; 2%float; 3%float])
           Hpos).
  by cbn.
Defined.

(** The index tuple [ivec] is inside the dimensions [d], one index for
    each dimension. *)
Definition index_within (ivec d : list Z) : Prop :=
  Forall2 (λ i_k dim_k, 0 ≤ i_k < dim_k) ivec d.

Lemma vec_index_loop_shift vi n_ ivec d :
  length ivec = length d →
  ∃ v, vec_index ivec d = Some v ∧
       vec_index_loop vi n_ ivec d = Some (vi + n_ * v).
Proof.
  unfold vec_index. revert vi n_ d.
  induction ivec as [|i_k ivec IH]; intros vi n_ [|dim_k d] Hlen;
    cbn in Hlen; try done.
  { exists 0. split; [done|]. cbn. f_equal. lia. }
  cbn [vec_index_loop].
  destruct (IH (0 + i_k * 1) (1 * dim_k) d) as (v & Hv & ->); [lia|].
  destruct (IH (vi + i_k * n_) (n_ * dim_k) d) as (v' & Hv' & ->); [lia|].
  rewrite Hv in Hv'. injection Hv' as <-.
  eexists. split; [done|]. f_equal. lia.
Qed.

Lemma vec_index_cons i_k ivec dim_k d v :
  vec_index ivec d = Some v →
  length ivec = length d →
  vec_index (i_k :: ivec) (dim_k :: d) = Some (i_k + dim_k * v).
Proof.
  intros Hv Hlen. unfold vec_index at 1. cbn [vec_index_loop].
  destruct (vec_index_loop_shift (0 + i_k * 1) (1 * dim_k) ivec d)
    as (v' & Hv' & ->); [done|].
  rewrite Hv in Hv'. injection Hv' as <-. f_equal. lia.
Qed.

Lemma vec_index_bounds ivec d :
  index_within ivec d →
  ∃ v, vec_index ivec d = Some v ∧ 0 ≤ v < tail_product d.
Proof.
  induction 1 as [|i_k dim_k ivec d Hk Hw IH].
  { exists 0. split; [done|]. unfold tail_product. cbn. lia. }
  destruct IH as (v & Hv & Hb).
  exists (i_k + dim_k * v). split.
  - apply vec_index_cons; [done|]. by eapply Forall2_length.
  - rewrite tail_product_cons. nia.
Qed.

Lemma vec_index_injective ivec ivec' d v :
  index_within ivec d → index_within ivec' d →
  vec_index ivec d = Some v → vec_index ivec' d = Some v →
  ivec = ivec'.
Proof.
  intros Hw. revert ivec' v.
  induction Hw as [|i_k dim_k ivec d Hk Hw IH]; intros ivec' v Hw' Hv Hv'.
  { by inversion Hw'. }
  inversion Hw' as [|i_k' ? ivec'' ? Hk' Hw'' E1 E2]; subst.
  destruct (vec_index_bounds ivec d Hw) as (u & Hu & Hub).
  destruct (vec_index_bounds ivec'' d Hw'') as (u' & Hu' & Hub').
  rewrite (vec_index_cons _ _ _ _ u Hu) in Hv
    by (by eapply Forall2_length).
  rewrite (vec_index_cons _ _ _ _ u' Hu') in Hv'
    by (by eapply Forall2_length).
  assert (i_k + dim_k * u = i_k' + dim_k * u') as He by congruence.
  assert (u = u') as -> by nia.
  assert (i_k = i_k') as -> by lia.
  f_equal. by eapply IH.
Qed.

Lemma vec_index_2_tuple d i j :
  length d = 2%nat → vec_index_2 d i j = vec_index [i; j] d.
Proof.
  intros Hlen. destruct d as [|d0 [|d1 [|]]]; try done.
  unfold vec_index_2, vec_index. cbn. f_equal. lia.
Qed.

Lemma vec_index_3_tuple d i j k :
  length d = 3%nat → vec_index_3 d i j k = vec_index [i; j; k] d.
Proof.
  intros Hlen. destruct d as [|d0 [|d1 [|d2 [|]]]]; try done.
  unfold vec_index_3, vec_index. cbn. f_equal. lia.
Qed.

(** X17 — [TensorDim::vec_index] is the column-major numbering.  For an
    index tuple with one index inside each dimension of a tensor that has
    at least one dimension and holds as many values as its dimensions say,
    the vectorized index is a valid index of the values; two such tuples
    with the same vectorized index are the same tuple; and on matrices and
    3D tensors the overloads taking two and three indices agree with the
    overload taking the tuple. *)
Theorem vec_index_column_major (t : Tensor) (ivec : list Z) :
  dim t ≠ [] →
  val_size t = tensor_size t →
  index_within ivec (dim t) →
  (∃ vi, vec_index ivec (dim t) = Some vi ∧
         vec_index_is_valid t vi = true ∧
         ∀ ivec', index_within ivec' (dim t) →
                  vec_index ivec' (dim t) = Some vi → ivec' = ivec) ∧
  (∀ i j, length (dim t) = 2%nat →
          vec_index_2 (dim t) i j = vec_index [i; j] (dim t)) ∧
  (∀ i j k, length (dim t) = 3%nat →
            vec_index_3 (dim t) i j k = vec_index [i; j; k] (dim t)).
Proof.
  intros Hdims Hsize Hw. split; [|split].
  - destruct (vec_index_bounds _ _ Hw) as (vi & Hvi & Hb).
    exists vi. split; [done|]. split.
    + unfold vec_index_is_valid. rewrite Hsize. unfold tensor_size, product.
      destruct (dim t) as [|d0 l0] eqn:Hdim; [done|].
      fold (tail_product (d0 :: l0)).
      apply andb_true_iff. split; [apply Z.leb_le|apply Z.ltb_lt]; lia.
    + intros ivec' Hw' Hv'. by eapply vec_index_injective.
  - intros i j Hlen. by apply vec_index_2_tuple.
  - intros i j k Hlen. by apply vec_index_3_tuple.
Qed.

Lemma vec_index_column_major_witness :
  let t := mkTensor [2; 3]
             [1%float; 2%float; 3%float; 4%float; 5%float; 6%float] in
  vec_index [1; 2] (dim t) = Some 5 ∧
  (∃ vi, vec_index [1; 2] (dim t) = Some vi ∧
         vec_index_is_valid t vi = true ∧
         ∀ ivec', index_within ivec' (dim t) →
                  vec_index ivec' (dim t) = Some vi → ivec' = [1; 2]) ∧
  (∀ i j, length (dim t) = 2%nat →
          vec_index_2 (dim t) i j = vec_index [i; j] (dim t)) ∧
  (∀ i j k, length (dim t) = 3%nat →
            vec_index_3 (dim t) i j k = vec_index [i; j; k] (dim t)).
Proof.
  cbv zeta. split; [reflexivity|].
  apply (vec_index_column_major
           (mkTensor [2; 3]
              [1%float; 2%float; 3%float; 4%float; 5%float; 6%float])
           [1; 2]).
  - discriminate.
  - reflexivity.
  - repeat constructor; cbn; lia.
Defined.

End tensor_shapes.

(** ** Elements of a spy *)

Section spy_elements.

Lemma Trace_read_at tr s i :
  tape_end s ≤ Z.of_nat (length (values tr)) →
  0 ≤ tape_begin s → 0 ≤ i < val_size (tensor s) →
  vget (Trace_read tr s) i = vget (values tr) (tape_begin s + i).
Proof.
  unfold tape_end, tape_begin, val_size. intros He Hb Hi.
  unfold Trace_read, vget, tape_end, tape_begin, val_size.
  destruct (Z.ltb_spec i 0); [lia|].
  destruct (Z.ltb_spec (tape_id_ s + i) 0); [lia|].
  f_equal. rewrite lookup_app_l.
  - rewrite lookup_take_lt by lia. rewrite lookup_drop. f_equal. lia.
  - rewrite length_take, length_drop. lia.
Qed.

(** X18 — element access.  For a spy that stands for slots of the tape and
    a valid vectorized index [i], [operator[]] returns a scalar spy on the
    slot of the element, with the element as its value, and reading this spy
    from a trace that covers the tape gives the element at [i] of what is
    read at the whole spy; access by an index tuple inside the dimensions
    gives the spy of [operator[]] at the column-major index of the tuple,
    and so does access by two indices on a matrix and by three on a 3D
    tensor. *)
Theorem element_access (s : Spy) (t : Tape) (tr : Trace) (i : Z) :
  Spy_on s t →
  n_trace_size t ≤ Z.of_nat (length (values tr)) →
  vec_index_is_valid (tensor s) i = true →
  let e := Spy_at s i in
  Spy_on e t ∧ is_scalar (tensor e) = true ∧
  tape_begin s ≤ tape_begin e ∧ tape_end e ≤ tape_end s ∧
  scalar (tensor e) = vget (val (tensor s)) i ∧
  read_scalar tr e = vget (Trace_read tr s) i ∧
  (∀ ivec, index_within ivec (dim (tensor s)) → dim (tensor s) ≠ [] →
     ∃ vi, vec_index ivec (dim (tensor s)) = Some vi ∧
           vec_index_is_valid (tensor s) vi = true ∧
           Spy_at_tuple s ivec = Some (Spy_at s vi)) ∧
  (∀ j k, length (dim (tensor s)) = 2%nat →
          Spy_at_2 s j k = Spy_at_tuple s [j; k]) ∧
  (∀ j k l, length (dim (tensor s)) = 3%nat →
            Spy_at_3 s j k l = Spy_at_tuple s [j; k; l]).
Proof.
  intros (Hv & Hb & He) Hlen Hi e.
  unfold vec_index_is_valid in Hi. apply andb_true_iff in Hi as [H0 H1].
  apply Z.leb_le in H0. apply Z.ltb_lt in H1.
  unfold tape_end, tape_begin in *.
  assert (tape_id_ e = tape_id_ s + i) as Hte by done.
  assert (val_size (tensor e) = 1) as Hve by done.
  split.
  { split; [done|]. unfold tape_end, tape_begin. rewrite Hte, Hve. lia. }
  split; [done|]. unfold tape_end, tape_begin. rewrite Hte, Hve.
  split; [lia|]. split; [lia|]. split; [done|].
  split; [|split; [|split]].
  - unfold read_scalar, tape_begin. rewrite Hte.
    symmetry. apply Trace_read_at; unfold tape_end, tape_begin; lia.
  - intros ivec Hw Hd.
    destruct (vec_index_bounds _ _ Hw) as (vi & Hvi & Hbd).
    exists vi. split; [done|]. split.
    + unfold vec_index_is_valid. rewrite Hv. unfold tensor_size, product.
      destruct (dim (tensor s)) as [|d0 l0]; [done|].
      fold (tail_product (d0 :: l0)).
      apply andb_true_iff. split; [apply Z.leb_le|apply Z.ltb_lt]; lia.
    + unfold Spy_at_tuple. by rewrite Hvi.
  - intros j k Hdim. unfold Spy_at_2, Spy_at_tuple.
    by rewrite vec_index_2_tuple.
  - intros j k l Hdim. unfold Spy_at_3, Spy_at_tuple.
    by rewrite vec_index_3_tuple.
Qed.

(** The element (1, 2) of a 2 by 3 matrix declared as the input of a
    tape. *)
Lemma element_access_witness :
  let x := mkTensor [2; 3]
             [1%float; 2%float; 3%float; 4%float; 5%float; 6%float] in
  let s := Spy_register x 0 in
  let t := mkTape 6 6 [] (val x) in
  Spy_at_tuple s [1; 2] = Some (Spy_at s 5) ∧
  read_scalar (Trace_make t) (Spy_at s 5) = 6%float ∧
  read_scalar (Trace_make t) (Spy_at s 5)
    = vget (Trace_read (Trace_make t) s) 5.
Proof.
  cbv zeta. split; [reflexivity|]. split; [reflexivity|].
  apply (element_access
           (Spy_register
              (mkTensor [2; 3]
                 [1%float; 2%float; 3%float; 4%float; 5%float; 6%float]) 0)
           (mkTape 6 6 []
              [1%float; 2%float; 3%float; 4%float; 5%float; 6%float])
           (Trace_make
              (mkTape 6 6 []
                 [1%float; 2%float; 3%float; 4%float; 5%float; 6%float]))
           5).
  - split; [reflexivity|]. by cbn.
  - by cbn.
  - reflexivity.
Defined.

End spy_elements.

(** ** The search of a Newton direction *)

Section solver_direction.
Import Solver.
Variable std_pow : double → double → double.
Variable LU_solver :
  EigenSparseMat.coefficients → list double → option (list double * bool).
Variable config : SolverConfig.
Variable gradient : list double.

Local Abbreviation newton_direction :=
  (newton_direction std_pow LU_solver config gradient).
Local Abbreviation succeeds := (succeeds std_pow LU_solver config gradient).


End solver_direction.

Section solver_direction_witness.
Import Solver.

(** A solver whose factorization always fails. *)
Definition LU_failing (m : EigenSparseMat.coefficients) (g : list double)
  : option (list double * bool) := None.


End solver_direction_witness.

(** ** The sparsity tags of the operators *)

Section operator_tags.

(** X20 — the tags that let the reverse sweep skip work are sound.  For
    every operator with an embedded body, at every trace and output: when
    the operator is tagged [HessianDiagAlwaysZero] its second partial
    derivative in one operand taken twice is [0.], when it is tagged
    [HessianOffDiagAlwaysZero] its second partial derivative in two
    different operands is [0.], when it is tagged [OpIsElementWise] its
    first partial derivative of the output [i] in an operand other than [i]
    is [0.]; and the second partial derivative is the same in both orders of
    the operands. *)
Theorem operator_tags_sound (o : OpVariant) (op : Operator)
    (v : list double) (i : Z) :
  operator_of o = Some op →
  (HessianDiagAlwaysZero op = true → ∀ j, partial2 op v i j j = 0%float) ∧
  (HessianOffDiagAlwaysZero op = true →
     ∀ j k, j ≠ k → partial2 op v i j k = 0%float) ∧
  (OpIsElementWise op = true →
     ∀ j, j ≠ i → partial1 op v i j = 0%float) ∧
  (∀ j k, partial2 op v i j k = partial2 op v i k j).
Proof.
  intros Hop. unfold operator_of in Hop.
  repeat case_match; simplify_eq; cbn.
  all: split; [first [done | by intros _ p; rewrite ?Z.eqb_refl]|].
  all: split; [first [done | by intros _ p q Hpq]|].
  all: split;
    [first [done
           | by intros _ p Hp; destruct (Z.eqb_spec p i)]|].
  all: intros p q; try reflexivity.
  all: try (by destruct (Z.eqb_spec p i), (Z.eqb_spec q i)).
  all: try (by destruct (Z.eqb_spec p q), (Z.eqb_spec q p); subst).
  all: destruct (Z.eqb_spec p 0), (Z.eqb_spec q 0),
         (Z.eqb_spec q (1 - p)), (Z.eqb_spec p (1 - q));
    subst; cbn; try reflexivity; lia.
Qed.

(** The product of two free scalars: no second derivative in one operand
    taken twice. *)
Lemma operator_tags_sound_witness :
  let op := Body.MultiplyScalarScalar_free_free 0 1 2 in
  HessianDiagAlwaysZero op = true ∧
  ∀ j, partial2 op [2%float; 3%float; 6%float] 0 j j = 0%float.
Proof.
  cbv zeta. split; [reflexivity|].
  destruct (operator_tags_sound
              (mkOp (MultiplyScalarScalar FreeFree) (In_ScalarScalar 0 1)
                 Const_None (Out_Scalar 2))
              (Body.MultiplyScalarScalar_free_free 0 1 2)
              [2%float; 3%float; 6%float] 0 eq_refl) as (Hd & _).
  exact (Hd eq_refl).
Defined.

End operator_tags.

(** ** Rewrites on a literal operand *)

Section literal_operands.
Variable std_pow : double → double → double.

(** The call recorded the unary operator [S], or [V] for a spy that is not
    a scalar, on the slots of [a], with no constant; the operator passes the
    assertion of its constructor; and the call returned a spy that stands
    for exactly the slots of its output. *)
Definition records_unary (call : Result Spy * Tape) (S V : OpType)
    (a : Spy) (tape : Tape) : Prop :=
  let o := unary_instance S V Const_None a tape in
  ∃ s, call = (Ok s, op_register o tape) ∧
       constructor_asserts o = true ∧
       recording tape s (op_register o tape).

Lemma literal_records_unary S V f (a b : Tensor) (x : Spy) t :
  constructor_asserts
    (mkOp S (In_Array1 0) Const_None (Out_Scalar 0)) = true →
  (∀ i y, constructor_asserts (mkOp V (In_Range i) Const_None (Out_Range y))
          = (range_size i =? range_size y)) →
  out_is_scalar S = true → out_is_scalar V = false →
  Tape_wf t → Spy_on x t →
  val_size a = tensor_size a → val_size b = tensor_size b →
  (a = tensor x ∧ is_scalar b = true) ∨ (b = tensor x ∧ is_scalar a = true) →
  records_unary
    (let '(out, tape') := rec_unary S V x t in
     return_Spy (tensor_binary f a b) out tape') S V x t.
Proof.
  intros HS HV HoS HoV Hwf Hx Ha Hb Hlit.
  pose proof (literal_unary_outcome S V f a b x t HoS HoV Hwf Hx Ha Hb Hlit)
    as Hout.
  rewrite rec_unary_instance in Hout |- * by done.
  unfold records_unary. cbv zeta. unfold call_outcome, return_Spy in *.
  destruct (tensor_binary f a b) as [v|e].
  - eexists. split; [done|]. split; [|done].
    unfold unary_instance. destruct (is_scalar (tensor x)).
    + clear -HS. destruct S; try done.
    + rewrite HV. unfold range_size. cbn [range_begin range_end].
      apply Z.eqb_eq. lia.
  - exfalso. destruct Hout as (_ & _ & _ & H1 & H2).
    destruct Hlit as [[_ ?]|[_ ?]]; congruence.
Qed.

Local Ltac literal_rewrite H :=
  cbv iota;
  apply literal_records_unary;
    [ reflexivity | by intros | reflexivity | reflexivity
    | assumption | assumption
    | first [reflexivity | apply H] | first [reflexivity | apply H]
    | first [ left; split; reflexivity | right; split; reflexivity ] ].

(** X21 — the rewrites on a literal operand.  On a tape that meets the
    recording invariant, for a spy [a] that stands for slots of the tape and
    is not null, as the operation on the values asserts: with a [double] on
    one side, [a - 0.], [a - (-0.)],
    [a + 0.], [0. + a] and [a / 1.] record the identity on the slots of [a],
    [0. - a] records the negation, [0. / a] and [pow(0., a)] record the
    constant 0, [pow(1., a)] records the constant 1 and [pow(a, -1.)]
    records the inverse.  Each call appends this one unary operator, in
    scalar or vector form by the shape of [a] and with no constant, the
    operator passes the assertion of its constructor, and the call returns
    a spy that stands for exactly the slots of the output, on a tape that
    meets the invariant again. *)
Theorem literal_operand_rewrites (a : Spy) (tape : Tape) :
  Tape_wf tape → Spy_on a tape → is_null (tensor a) = false →
  records_unary (Spy_minus_double a 0%float tape)
    IdentityScalar IdentityVector a tape ∧
  records_unary (Spy_minus_double a (-0)%float tape)
    IdentityScalar IdentityVector a tape ∧
  records_unary (Spy_plus_double a 0%float tape)
    IdentityScalar IdentityVector a tape ∧
  records_unary (double_plus_Spy 0%float a tape)
    IdentityScalar IdentityVector a tape ∧
  records_unary (Spy_divide_double a 1%float tape)
    IdentityScalar IdentityVector a tape ∧
  records_unary (double_minus_Spy 0%float a tape)
    NegateScalar NegateVector a tape ∧
  records_unary (double_divide_Spy 0%float a tape)
    (TrivialScalar Body.RESULT_0) (TrivialVector Body.RESULT_0) a tape ∧
  records_unary (double_pow_Spy std_pow 0%float a tape)
    (TrivialScalar Body.RESULT_0) (TrivialVector Body.RESULT_0) a tape ∧
  records_unary (double_pow_Spy std_pow 1%float a tape)
    (TrivialScalar Body.RESULT_1) (TrivialVector Body.RESULT_1) a tape ∧
  records_unary (Spy_pow_double std_pow a (-1)%float tape)
    InvertScalar InvertVector a tape.
Proof.
  intros Hwf Ha _. repeat split_and.
  - unfold Spy_minus_double, Spy_minus_Tensor.
    change (is_literal 0%float (Tensor_scalar 0%float)) with true.
    literal_rewrite Ha.
  - unfold Spy_minus_double, Spy_minus_Tensor.
    change (is_literal 0%float (Tensor_scalar (-0)%float)) with true.
    literal_rewrite Ha.
  - unfold Spy_plus_double, Spy_plus_Tensor.
    change (is_literal 0%float (Tensor_scalar 0%float)) with true.
    literal_rewrite Ha.
  - unfold double_plus_Spy, Spy_plus_Tensor.
    change (is_literal 0%float (Tensor_scalar 0%float)) with true.
    literal_rewrite Ha.
  - unfold Spy_divide_double, Spy_divide_Tensor.
    change (is_literal 1%float (Tensor_scalar 1%float)) with true.
    literal_rewrite Ha.
  - unfold double_minus_Spy, Tensor_minus_Spy.
    change (is_literal 0%float (Tensor_scalar 0%float)) with true.
    literal_rewrite Ha.
  - unfold double_divide_Spy, Tensor_divide_Spy.
    change (is_literal 0%float (Tensor_scalar 0%float)) with true.
    literal_rewrite Ha.
  - unfold double_pow_Spy, Tensor_pow_Spy.
    change (is_literal 0%float (Tensor_scalar 0%float)) with true.
    literal_rewrite Ha.
  - unfold double_pow_Spy, Tensor_pow_Spy.
    change (is_literal 0%float (Tensor_scalar 1%float)) with false.
    change (is_literal 1%float (Tensor_scalar 1%float)) with true.
    literal_rewrite Ha.
  - unfold Spy_pow_double, Spy_pow.
    change (is_literal (-1)%float (Tensor_scalar (-1)%float)) with true.
    literal_rewrite Ha.
Qed.

End literal_operands.

Section literal_operands_witness.

(** [0. - a] on a vector of two inputs. *)
Lemma literal_operand_rewrites_witness :
  let tape := mkTape 2 2 [] [1.5%float; 2%float] in
  let a := Spy_register (Tensor_vector [1.5%float; 2%float]) 0 in
  records_unary (double_minus_Spy 0%float a tape)
    NegateScalar NegateVector a tape ∧
  (double_minus_Spy 0%float a tape).2 =
    mkTape 2 4
      [mkOp NegateVector (In_Range (mkRange 0 2)) Const_None
         (Out_Range (mkRange 2 4))]
      [1.5%float; 2%float].
Proof.
  cbv zeta. split; [|reflexivity].
  apply (literal_operand_rewrites (λ x y, x)
           (Spy_register (Tensor_vector [1.5%float; 2%float]) 0)
           (mkTape 2 2 [] [1.5%float; 2%float])).
  - split; [by cbn|]. split; [done|]. reflexivity.
  - split; [reflexivity|]. by cbn.
  - reflexivity.
Defined.

End literal_operands_witness.

(** ** Broadcasting in the operations on tensors *)

Section tensor_broadcast.

Lemma vget_map (g : double → double) l i :
  0 ≤ i < Z.of_nat (length l) → vget (map g l) i = g (vget l i).
Proof.
  intros Hi. unfold vget. destruct (Z.ltb_spec i 0); [lia|].
  change (map g l) with (g <$> l). rewrite list_lookup_fmap.
  destruct (lookup_lt_is_Some_2 l (Z.to_nat i)) as [x ->]; [lia|]. done.
Qed.

Lemma vget_imap (g : nat → double → double) l i :
  0 ≤ i < Z.of_nat (length l) →
  vget (imap g l) i = g (Z.to_nat i) (vget l i).
Proof.
  intros Hi. unfold vget. destruct (Z.ltb_spec i 0); [lia|].
  rewrite list_lookup_imap.
  destruct (lookup_lt_is_Some_2 l (Z.to_nat i)) as [x ->]; [lia|]. done.
Qed.

(** The element of [t] that element [i] of a result is computed from: the
    only one when [t] holds one value, else the one at [i]. *)
Definition broadcast_at (t : Tensor) (i : Z) : double :=
  vget (val t) (if val_size t =? 1 then 0 else i).

(** The two outcomes of a binary operation, as the code runs when its
    assertions are compiled out. *)
Lemma tensor_binary_outcomes (f : double → double → double)
    (a b : Tensor) :
  val_size a = tensor_size a → val_size b = tensor_size b →
  match tensor_binary f a b with
  | Ok y =>
      (dim a = dim b ∨ is_scalar a = true ∨ is_scalar b = true) ∧
      dim y = (if is_scalar a then dim b else dim a) ∧
      val_size y = tensor_size y ∧
      ∀ i, 0 ≤ i < val_size y →
           vget (val y) i = f (broadcast_at a i) (broadcast_at b i)
  | Throw e =>
      e = logic_error "Uncompatible tensor dimensions" ∧
      dim a ≠ dim b ∧ is_scalar a = false ∧ is_scalar b = false
  end.
Proof.
  intros Ha Hb.
  pose proof (tensor_binary_size f a b Ha Hb) as Hsize.
  unfold tensor_binary, dim_eq in *.
  unfold broadcast_at, is_scalar in *. rewrite Ha, Hb.
  unfold val_size, tensor_size in *.
  assert (∀ y i, dim y = dim a ∨ dim y = dim b →
            val y = vector_binary f (val a) (val b) →
            Z.of_nat (length (val y)) = product (dim y) →
            (dim y = dim b ∨ product (dim b) = 1) →
            (dim y = dim a ∨ product (dim a) = 1) →
            0 ≤ i < Z.of_nat (length (val y)) →
            vget (val y) i =
              f (vget (val a) (if product (dim a) =? 1 then 0 else i))
                (vget (val b) (if product (dim b) =? 1 then 0 else i)))
    as Hval.
  { intros y i _ Hy Hly Hyb Hya Hi. rewrite Hy. rewrite Hy in Hi.
    rewrite length_vector_binary in Hi. unfold vector_binary.
    rewrite Ha, Hb. rewrite Ha in Hi.
    destruct (Z.eqb_spec (product (dim a)) 1) as [Ea|Ea].
    - rewrite vget_map by lia.
      destruct (Z.eqb_spec (product (dim b)) 1) as [Eb|Eb]; [|done].
      do 2 f_equal. lia.
    - destruct (Z.eqb_spec (product (dim b)) 1) as [Eb|Eb].
      + by rewrite vget_map by lia.
      + rewrite vget_imap by lia. do 2 f_equal. lia. }
  case_bool_decide as Hd.
  - destruct Hsize as [Hs _]. split; [by left|]. cbn [dim val] in *.
    split; [by destruct (product (dim a) =? 1); [rewrite Hd|]|].
    split; [done|]. intros i Hi.
    apply (Hval (mkTensor (dim a) (vector_binary f (val a) (val b))));
      cbn [dim val]; auto.
  - destruct (Z.eqb_spec (product (dim a)) 1) as [Ea|Ea].
    + destruct Hsize as [Hs _]. split; [right; left; done|].
      cbn [dim val] in *. split; [done|]. split; [done|]. intros i Hi.
      apply (Hval (mkTensor (dim b) (vector_binary f (val a) (val b))));
        cbn [dim val]; auto.
    + destruct (Z.eqb_spec (product (dim b)) 1) as [Eb|Eb]; [|done].
      destruct Hsize as [Hs _]. split; [right; right; done|].
      cbn [dim val] in *. split; [done|]. split; [done|]. intros i Hi.
      apply (Hval (mkTensor (dim a) (vector_binary f (val a) (val b))));
        cbn [dim val]; auto.
Qed.

(** X22 — broadcasting.  On two tensors that are not null, as the
    operations assert, that hold as many values as their dimensions say, and
    whose dimensions are equal or one of which is a scalar, a binary
    operation ([operator-], [operator+], [operator/], [pow]) returns a
    tensor that has the dimensions of the operand that is not a scalar and
    holds as many values as its dimensions say, and each of its elements is
    the operation on the elements of the operands at the same index, the only
    element of a one-element operand standing at every index. *)
Theorem tensor_binary_broadcast (f : double → double → double)
    (a b : Tensor) :
  is_null a = false → is_null b = false →
  val_size a = tensor_size a → val_size b = tensor_size b →
  (dim a = dim b ∨ is_scalar a = true ∨ is_scalar b = true) →
  ∃ y, tensor_binary f a b = Ok y ∧
       dim y = (if is_scalar a then dim b else dim a) ∧
       val_size y = tensor_size y ∧
       0 < val_size y ∧
       ∀ i, 0 ≤ i < val_size y →
            vget (val y) i = f (broadcast_at a i) (broadcast_at b i).
Proof.
  intros Hna Hnb Ha Hb Hcompat.
  pose proof (tensor_binary_outcomes f a b Ha Hb) as H.
  destruct (tensor_binary f a b) as [y|e].
  - destruct H as (_ & Hd & Hv & Hel). exists y.
    split; [done|]. split; [done|]. split; [done|]. split; [|done].
    rewrite Hv. unfold tensor_size. rewrite Hd.
    unfold is_null, tensor_size in Hna, Hnb.
    apply Z.eqb_neq in Hna, Hnb.
    unfold val_size, tensor_size in Ha, Hb.
    destruct (is_scalar a); lia.
  - exfalso. destruct H as (_ & Hd & Hsa & Hsb).
    destruct Hcompat as [?|[?|?]]; congruence.
Qed.

(** A vector minus a scalar. *)
Lemma tensor_binary_broadcast_witness :
  let a := Tensor_vector [5%float; 7%float] in
  let b := Tensor_scalar 2%float in
  tensor_binary PrimFloat.sub a b = Ok (Tensor_vector [3%float; 5%float]) ∧
  ∃ y, tensor_binary PrimFloat.sub a b = Ok y ∧
       dim y = (if is_scalar a then dim b else dim a) ∧
       val_size y = tensor_size y ∧
       0 < val_size y ∧
       ∀ i, 0 ≤ i < val_size y →
            vget (val y) i
              = PrimFloat.sub (broadcast_at a i) (broadcast_at b i).
Proof.
  cbv zeta. split; [reflexivity|].
  apply (tensor_binary_broadcast PrimFloat.sub
           (Tensor_vector [5%float; 7%float]) (Tensor_scalar 2%float));
    [reflexivity..|].
  right. right. reflexivity.
Defined.

End tensor_broadcast.
